(** * webresource: virtual file tree, module resolver and walker

    A shallow embedding of the Go package [webresource] (files [fs.go]
    and [webresource.go]) together with the handful of Go standard
    library functions it calls ([path.Clean], [path.Split], [path.Join],
    [path.Ext], [strings.TrimSuffix], [bytes.Reader], [io.ReadAll],
    [sort.Sort]).

    Go strings are byte sequences and are modelled as [list ascii]; byte
    slices are [list byte].  Panics and errors are values of explicit
    result types.  The gzip codec is an opaque byte transform. *)

From Stdlib Require Import Ascii String List ZArith Lia Bool Arith.
From Stdlib Require Import Permutation Sorted.
From Stdlib.Strings Require Import Byte.
Import ListNotations.

Open Scope char_scope.
Open Scope list_scope.

Set Warnings "-register-all".

(** ** Go strings *)

Definition gostring := list ascii.

(** Literals: [go "/a/b"] is the Go string ["/a/b"]. *)
Definition go (s : string) : gostring := list_ascii_of_string s.

Definition str_eqb (a b : gostring) : bool :=
  if list_eq_dec ascii_dec a b then true else false.

(** Go's [<] on strings: bytewise lexicographic. *)
Fixpoint str_ltb (a b : gostring) : bool :=
  match a, b with
  | _, [] => false
  | [], _ :: _ => true
  | x :: a', y :: b' =>
      if Ascii.ltb x y then true
      else if Ascii.eqb x y then str_ltb a' b' else false
  end.

(** ** package strings *)

Definition HasSuffix (s suffix : gostring) : bool :=
  (length suffix <=? length s)%nat &&
  str_eqb (skipn (length s - length suffix) s) suffix.

Definition TrimSuffix (s suffix : gostring) : gostring :=
  if HasSuffix s suffix then firstn (length s - length suffix) s else s.

(** ** package path *)

(** Index of the last occurrence of [c] in [s], or -1. *)
Fixpoint LastIndexByte (s : gostring) (c : ascii) : Z :=
  match s with
  | [] => (-1)%Z
  | x :: t =>
      let i := LastIndexByte t c in
      if (0 <=? i)%Z then (i + 1)%Z
      else if x =? c then 0%Z else (-1)%Z
  end.

(** [path.Split]: [path[:i+1], path[i+1:]] for [i] the last slash. *)
Definition Split (path : gostring) : gostring * gostring :=
  let i := LastIndexByte path "/" in
  (firstn (Z.to_nat (i + 1)) path, skipn (Z.to_nat (i + 1)) path).

(** [path.Ext] scans from the end of the string towards the last slash;
    [rp] is the part not yet scanned, last byte first, and [suffix] the
    part already passed. *)
Fixpoint ext_scan (rp : list ascii) (suffix : gostring) : gostring :=
  match rp with
  | [] => []
  | c :: rp' =>
      if c =? "/" then []
      else if c =? "." then c :: suffix
      else ext_scan rp' (c :: suffix)
  end.

Definition Ext (path : gostring) : gostring := ext_scan (rev path) [].

(** [r == n || path[r] == '/'] for the unread input [l = path[r:]]. *)
Definition at_elem_end (l : gostring) : bool :=
  match l with
  | [] => true
  | c :: _ => c =? "/"
  end.

(** The output buffer of [path.Clean] (its [lazybuf]) is kept as the
    list of the [w] bytes written so far, most recent first, so that
    [out.w] is [length out] and [out.w--] drops the head.

    [backtrack] is the ".." case: [out.w--], then
    [for out.w > dotdot && out.index(out.w) != '/' { out.w-- }], where
    [out.index(out.w)] is the byte that was just dropped. *)
Fixpoint backtrack (out : list ascii) (dotdot : nat) : list ascii :=
  match out with
  | [] => []
  | c :: out' =>
      if (dotdot <? length out')%nat && negb (c =? "/")
      then backtrack out' dotdot
      else out'
  end.

(** [for ; r < n && path[r] != '/'; r++ { out.append(path[r]) }] *)
Fixpoint copy_elem (rest : gostring) (out : list ascii)
  : gostring * list ascii :=
  match rest with
  | [] => ([], out)
  | c :: t => if c =? "/" then (rest, out) else copy_elem t (c :: out)
  end.

(** The main loop [for r < n { switch ... }] of [path.Clean]; [rest] is
    [path[r:]].  Every iteration consumes at least one byte, so
    [length path] iterations always suffice (lemma
    [clean_loop_fuel] below). *)
Fixpoint clean_loop (fuel : nat) (rooted : bool) (rest : gostring)
         (out : list ascii) (dotdot : nat) : list ascii :=
  match fuel with
  | O => out
  | S fuel' =>
      match rest with
      | [] => out
      | c :: t =>
          if c =? "/" then
            (* empty path element *)
            clean_loop fuel' rooted t out dotdot
          else if (c =? ".") && at_elem_end t then
            (* . element *)
            clean_loop fuel' rooted t out dotdot
          else if (c =? ".") &&
                  match t with
                  | c2 :: t2 => (c2 =? ".") && at_elem_end t2
                  | [] => false
                  end then
            (* .. element: remove to last / *)
            let t2 := tl t in
            if (dotdot <? length out)%nat then
              clean_loop fuel' rooted t2 (backtrack out dotdot) dotdot
            else if negb rooted then
              let out1 := if (0 <? length out)%nat then "/" :: out else out in
              let out2 := "." :: "." :: out1 in
              clean_loop fuel' rooted t2 out2 (length out2)
            else clean_loop fuel' rooted t2 out dotdot
          else
            (* real path element: add slash if needed, copy element *)
            let out1 :=
              if (rooted && negb (length out =? 1)%nat)
                 || (negb rooted && negb (length out =? 0)%nat)
              then "/" :: out else out in
            let '(rest', out2) := copy_elem rest out1 in
            clean_loop fuel' rooted rest' out2 dotdot
      end
  end.

Definition Clean (path : gostring) : gostring :=
  match path with
  | [] => ["."]
  | c :: t =>
      let rooted := c =? "/" in
      let out := clean_loop (length path) rooted
                   (if rooted then t else path)
                   (if rooted then ["/"] else [])
                   (if rooted then 1%nat else 0%nat) in
      match out with
      | [] => ["."]
      | _ => rev out
      end
  end.

(** [path.Join]: the non-empty elements joined by slashes, cleaned; the
    empty string when every element is empty. *)
Definition Join (elem : list gostring) : gostring :=
  let buf :=
    fold_left (fun buf e =>
                 match buf, e with
                 | [], _ => e
                 | _, _ => buf ++ "/" :: e
                 end) elem [] in
  match buf with
  | [] => []
  | _ => Clean buf
  end.

(** ** bytes.Reader and io.ReadAll *)

Record Reader := mkReader { r_s : list byte; r_i : Z }.

Definition NewReader (b : list byte) : Reader := mkReader b 0.

(** Errors returned through Go's [error] interface. *)
Inductive error :=
| ErrNotExist                (* os.ErrNotExist *)
| EOF                        (* io.EOF *)
| ErrGzip (code : nat)       (* any error of compress/gzip *)
| ErrVisit (code : nat).     (* any error made up by a visit callback *)

(** [Read(b)] with [len(b) = n]. *)
Definition Read (r : Reader) (n : nat) : Reader * list byte * option error :=
  if (r_i r >=? Z.of_nat (length (r_s r)))%Z then (r, [], Some EOF)
  else
    let b := firstn n (skipn (Z.to_nat (r_i r)) (r_s r)) in
    (mkReader (r_s r) (r_i r + Z.of_nat (length b)), b, None).

(** [Seek(0, io.SeekEnd)]: never fails. *)
Definition SeekEnd (r : Reader) : Reader * option error :=
  (mkReader (r_s r) (Z.of_nat (length (r_s r))), None).

(** [io.ReadAll]: read chunks until the reader reports an error; [EOF]
    is turned into success.  [chunk] is the free capacity offered to
    each [Read]; [None] means the iteration bound was too small. *)
Fixpoint readAll_loop (fuel chunk : nat) (r : Reader) (b : list byte)
  : option (Reader * list byte * option error) :=
  match fuel with
  | O => None
  | S fuel' =>
      let '(r', got, err) := Read r chunk in
      let b' := b ++ got in
      match err with
      | Some EOF => Some (r', b', None)
      | Some e => Some (r', b', Some e)
      | None => readAll_loop fuel' chunk r' b'
      end
  end.

Definition ReadAll (chunk : nat) (r : Reader)
  : option (Reader * list byte * option error) :=
  readAll_loop (S (length (r_s r))) chunk r [].

(** ** package sort

    [sort.Sort] orders a slice by its [Less] method and is specified up
    to the order of the elements that compare equal.  The model is
    insertion sort; where no two elements compare equal unless they are
    the same, every sorting algorithm returns the same slice (lemma
    [sorted_perm_unique] below). *)
Section Sorting.
Context {A : Type} (less : A -> A -> bool).

Fixpoint insert (x : A) (l : list A) : list A :=
  match l with
  | [] => [x]
  | y :: t => if less y x then y :: insert x t else x :: l
  end.

Definition Sort (l : list A) : list A := fold_right insert [] l.
End Sorting.

(** ** fs.go: the virtual file tree

    The repository holds two versions of this file.  The model follows
    the later one, which adds [MkdirAll], [WriteGzipFile] and the
    [gzipped] flag; the earlier one is the case in which no entry is
    gzipped, and the functions they share are the same in both.

    [time.Now()] is an explicit argument.  A panic is the result
    [Panic], and the builder methods return the file set they were
    called on, here the updated value. *)

Definition time := Z.

(** [os.FileMode] is a [uint32]. *)
Definition FileMode := Z.
Bind Scope Z_scope with time FileMode.
Definition ModeDir : FileMode := Z.shiftl 1 31.
Definition mode_or (a b : FileMode) : FileMode :=
  (Z.lor a b mod 2 ^ 32)%Z.
Definition mode_IsDir (m : FileMode) : bool :=
  negb (Z.land m ModeDir =? 0)%Z.

(** Run-time panics raised by the builder API and by nil dereferences. *)
Inductive panic :=
| NoParentEntry (dir : gostring)          (* "no entry found for parent directory" *)
| NotADirectory (dir : gostring)          (* "... is not a directory" *)
| EntryExists (base dir : gostring)       (* "entry already exists for ..." *)
| InvalidName (name : gostring)           (* "invalid name ..." *)
| NilDereference.                         (* nil pointer dereference *)

Inductive result (A : Type) :=
| Ok (a : A)
| Panic (p : panic).
Arguments Ok {A} a.
Arguments Panic {A} p.

Definition bind {A B} (r : result A) (k : A -> result B) : result B :=
  match r with
  | Ok a => k a
  | Panic p => Panic p
  end.

Notation "x <- r ;; k" := (bind r (fun x => k))
  (at level 61, r at next level, right associativity).

(** [type fileEntry struct].  [buf] is a pointer, [None] is nil.  The
    [sys] field is nil throughout and is left out. *)
Inductive fileEntry := mkFileEntry {
  buf : option (list byte);
  gzipped : bool;
  name : gostring;
  mode : FileMode;
  modTime : time;
  children : list fileEntry
}.

Definition fileEntryList := list fileEntry.

Definition set_children (e : fileEntry) (ch : fileEntryList) : fileEntry :=
  mkFileEntry (buf e) (gzipped e) (name e) (mode e) (modTime e) ch.

Definition set_gzipped (e : fileEntry) (g : bool) : fileEntry :=
  mkFileEntry (buf e) g (name e) (mode e) (modTime e) (children e).

(** The [os.FileInfo] methods of [*fileEntry]. *)
Definition Size (fe : fileEntry) : result Z :=
  match buf fe with
  | None => Panic NilDereference
  | Some b => Ok (Z.of_nat (length b))
  end.
Definition Mode (fe : fileEntry) : FileMode := mode fe.
Definition ModTime (fe : fileEntry) : time := modTime fe.
Definition IsDir (fe : fileEntry) : bool := mode_IsDir (mode fe).
Definition Stat (fe : fileEntry) : fileEntry * option error := (fe, None).

Fixpoint entryWithName (l : fileEntryList) (nm : gostring)
  : option fileEntry :=
  match l with
  | [] => None
  | fe :: t => if str_eqb (name fe) nm then Some fe else entryWithName t nm
  end.

Definition newFileEntry (nm : gostring) (b : list byte) (md : FileMode)
           (mt : time) : result fileEntry :=
  let '(d, n) := Split nm in
  if negb (str_eqb d []) || negb (str_eqb n nm) then Panic (InvalidName nm)
  else Ok (mkFileEntry (Some b) false nm md mt []).

(** [fullPathSplit] does "/a/b/c" -> "a", "b", "c".  The loop removes
    one component per iteration; [ret] is in the order of the appends
    and is reversed at the end. *)
Fixpoint split_loop (fuel : nat) (p1 : gostring) (ret : list gostring)
  : list gostring :=
  match fuel with
  | O => ret
  | S fuel' =>
      let '(dir, base) := Split p1 in
      match base with
      | [] => ret
      | _ => split_loop fuel' (TrimSuffix dir ["/"]) (ret ++ [base])
      end
  end.

Definition fullPathSplit (p : gostring) : list gostring :=
  let p1 := Clean ("/" :: p) in
  rev (split_loop (S (length p1)) p1 []).

(** [type FileSet struct], which implements [Module]: the fields
    [name] and [requires] are read through the methods [Name] and
    [Requires]. *)
Inductive FileSet := mkFileSet {
  root : fileEntry;
  Name : gostring;
  Requires : list FileSet
}.

Definition Module := FileSet.
Definition ModuleList := list Module.

Definition set_root (fs : FileSet) (r : fileEntry) : FileSet :=
  mkFileSet r (Name fs) (Requires fs).

Definition NewFileSet (now : time) (nm : gostring) (requires : list Module)
  : FileSet :=
  mkFileSet (mkFileEntry None false ["/"] (mode_or 493%Z ModeDir) now [])
            nm requires.

(** [findEntry]: traverse to find the entry for a path. *)
Fixpoint find_loop (parts : list gostring) (thisEntry : fileEntry)
  : option fileEntry :=
  match parts with
  | [] => Some thisEntry
  | part :: parts' =>
      match entryWithName (children thisEntry) part with
      | None => None
      | Some e2 => find_loop parts' e2
      end
  end.

Definition findEntry (fs : FileSet) (fullPath : gostring)
  : option fileEntry :=
  find_loop (fullPathSplit (Clean ("/" :: fullPath))) (root fs).

(** The builder methods mutate an entry through the pointer handed out
    by [findEntry] or [entryWithName].  In the tree value this is a
    replacement of the first child carrying the looked-up name, along
    the path the lookup followed. *)
Fixpoint replaceChild (l : fileEntryList) (nm : gostring)
         (f : fileEntry -> fileEntry) : fileEntryList :=
  match l with
  | [] => []
  | fe :: t =>
      if str_eqb (name fe) nm then f fe :: t
      else fe :: replaceChild t nm f
  end.

Fixpoint modifyEntry (parts : list gostring) (f : fileEntry -> fileEntry)
         (e : fileEntry) : fileEntry :=
  match parts with
  | [] => f e
  | part :: parts' =>
      set_children e (replaceChild (children e) part (modifyEntry parts' f))
  end.

(** [MkdirAll]; [clock i] is what [time.Now()] returns when the [i]-th
    path component is created. *)
Fixpoint mkdirAll_loop (clock : nat -> time) (md : FileMode) (i : nat)
         (parts : list gostring) (e : fileEntry) : result fileEntry :=
  match parts with
  | [] => Ok e
  | p :: parts' =>
      match entryWithName (children e) p with
      | None =>
          sube <- newFileEntry p [] (mode_or md ModeDir) (clock i) ;;
          sube' <- mkdirAll_loop clock md (S i) parts' sube ;;
          Ok (set_children e (children e ++ [sube']))
      | Some sube =>
          sube' <- mkdirAll_loop clock md (S i) parts' sube ;;
          Ok (set_children e (replaceChild (children e) p (fun _ => sube')))
      end
  end.

Definition MkdirAll (clock : nat -> time) (fs : FileSet)
           (fullPath : gostring) (md : FileMode) : result FileSet :=
  r <- mkdirAll_loop clock md 0 (fullPathSplit fullPath) (root fs) ;;
  Ok (set_root fs r).

(** The common body of [Mkdir] and [writeFile]: find the parent, check
    it, and append the entry [mk base] to its children. *)
Definition addEntry (fs : FileSet) (fullPath : gostring)
           (mk : gostring -> result fileEntry) : result FileSet :=
  let fullPath := Clean ("/" :: fullPath) in
  let '(dir, base) := Split fullPath in
  match findEntry fs dir with
  | None => Panic (NoParentEntry dir)
  | Some dire =>
      if negb (IsDir dire) then Panic (NotADirectory dir)
      else
        match entryWithName (children dire) base with
        | Some _ => Panic (EntryExists base dir)
        | None =>
            e <- mk base ;;
            Ok (set_root fs
                  (modifyEntry (fullPathSplit (Clean ("/" :: dir)))
                     (fun d => set_children d (children d ++ [e]))
                     (root fs)))
        end
  end.

Definition Mkdir (now : time) (fs : FileSet) (fullPath : gostring)
           (md : FileMode) : result FileSet :=
  addEntry fs fullPath
    (fun base => newFileEntry base [] (mode_or md ModeDir) now).

Definition writeFile (fs : FileSet) (fullPath : gostring) (md : FileMode)
           (mt : time) (contents : list byte) (gz : bool) : result FileSet :=
  addEntry fs fullPath
    (fun base =>
       e <- newFileEntry base contents md mt ;;
       Ok (set_gzipped e gz)).

Definition WriteFile fs fullPath md mt contents :=
  writeFile fs fullPath md mt contents false.

Definition WriteGzipFile fs fullPath md mt contents :=
  writeFile fs fullPath md mt contents true.

(** ** Open file handles *)

(** compress/gzip is outside the package: decoding (the reader's
    construction followed by reading it to the end) is an opaque
    transform of the stored bytes that yields the content or an error. *)
Class Gzip := { gunzip : list byte -> list byte + error }.

(** [type file struct]: the embedded [*fileEntry], the embedded
    [*bytes.Reader] and the handle's own [children] field, which is the
    one [Readdir] works on. *)
Record file := mkFile {
  f_fileEntry : fileEntry;
  f_Reader : Reader;
  f_children : fileEntryList
}.

Definition open `{Gzip} (fe : fileEntry) : file + error :=
  match buf fe with
  | Some b =>
      if gzipped fe then
        match gunzip b with
        | inr err => inr err
        | inl u => inl (mkFile fe (NewReader u) (children fe))
        end
      else inl (mkFile fe (NewReader b) (children fe))
  | None => inl (mkFile fe (NewReader []) (children fe))
  end.

(** [Open] implements [http.FileSystem]. *)
Definition Open `{Gzip} (fs : FileSet) (fullPath : gostring) : file + error :=
  match findEntry fs fullPath with
  | None => inr ErrNotExist
  | Some e => open e
  end.

Definition Close (f : file) : file * option error :=
  let '(r, err) := SeekEnd (f_Reader f) in
  (mkFile (f_fileEntry f) r (f_children f), err).

(** [Readdir]: re-slices the handle's [children]; [count] is a Go
    [int]. *)
Definition Readdir (f : file) (count : Z) : file * (fileEntryList + error) :=
  let n := Z.of_nat (length (f_children f)) in
  let count := if (count <=? 0)%Z then n else count in
  let count := if (count >? n)%Z then n else count in
  let ch := firstn (Z.to_nat count) (f_children f) in
  let f' := mkFile (f_fileEntry f) (f_Reader f)
                   (skipn (Z.to_nat count) (f_children f)) in
  match ch with
  | [] => (f', inr EOF)
  | _ => (f', inl ch)
  end.

(** ** webresource.go: the resolver *)

Definition Named (l : ModuleList) (nm : gostring) : option Module :=
  find (fun wr => str_eqb (Name wr) nm) l.

(** [Less] sorts by [Name()]. *)
Definition Less (a b : Module) : bool := str_ltb (Name a) (Name b).

(** [if ret.Named(m.Name()) == nil { ret = append(ret, m) }] *)
Definition appendUnlessNamed (ret : ModuleList) (m : Module) : ModuleList :=
  match Named ret (Name m) with
  | None => ret ++ [m]
  | Some _ => ret
  end.

(** One iteration of the loop of [Resolve] for the module [m], given
    [mreqs = Resolve(m.Requires())]. *)
Definition resolveStep (ret : ModuleList) (m : Module) (mreqs : ModuleList)
  : ModuleList :=
  appendUnlessNamed (fold_left appendUnlessNamed mreqs ret) m.

(** [Resolve] recurses on [m.Requires()] for the modules [m] of the
    sorted copy of its argument.  To make that recursion structural
    every module is paired with the resolution of its requirements
    before sorting; [resolveRequires m] is [Resolve(m.Requires())].
    The equation [Resolve_unfold] below restates [Resolve] in the shape
    of the source. *)
Definition LessFst (a b : Module * ModuleList) : bool := Less (fst a) (fst b).

Definition resolveLoop (r2 : list (Module * ModuleList)) : ModuleList :=
  fold_left (fun ret mr => resolveStep ret (fst mr) (snd mr)) r2 [].

Fixpoint resolveRequires (m : Module) : ModuleList :=
  match m with
  | mkFileSet _ _ requires =>
      resolveLoop
        (Sort LessFst
           ((fix annotate (l : list Module) : list (Module * ModuleList) :=
               match l with
               | [] => []
               | x :: t => (x, resolveRequires x) :: annotate t
               end) requires))
  end.

Definition Resolve (r : ModuleList) : ModuleList :=
  resolveLoop (Sort LessFst (map (fun m => (m, resolveRequires m)) r)).

(** ** webresource.go: the walker *)

(** What the walker does to the file system and to the callback, in
    order: every [Open] and [Readdir] with its error, every [Close],
    and every call of the visit function with the error it returned. *)
Inductive event :=
| EOpen (path : gostring) (err : option error)
| EReaddir (path : gostring) (err : option error)
| EClose (path : gostring)
| EVisit (m : Module) (path : gostring) (err : option error).

Section Walker.
Context `{Gzip} {St : Type}.

(** [type WalkFunc func(m Module, fullPath string, f http.File) error];
    the callback's own effects are a state of type [St]. *)
Definition WalkFunc := Module -> gostring -> file -> St -> St * option error.

Record world := mkWorld { log : list event; user : St }.

Definition record (e : event) (w : world) : world :=
  mkWorld (log w ++ [e]) (user w).

(** The loop [for _, fi := range fis] of [walkDir]; [recurse] stands
    for the recursive call [walkDir(m, newRoot, ext, fn)]. *)
Fixpoint rangeEntries
         (recurse : gostring -> world -> option (world * option error))
         (m : Module) (root ext : gostring) (fn : WalkFunc)
         (fis : fileEntryList) (w : world)
  : option (world * option error) :=
  match fis with
  | [] => Some (w, None)
  | fi :: fis' =>
      if IsDir fi then
        (* recurse into directory *)
        let newRoot := Join [root; name fi] in
        match recurse newRoot w with
        | None => None
        | Some (w', Some err) => Some (w', Some err)
        | Some (w', None) => rangeEntries recurse m root ext fn fis' w'
        end
      else
        let base := name fi in
        if negb (str_eqb (Ext base) ext) then
          (* skip wrong ext *)
          rangeEntries recurse m root ext fn fis' w
        else
          (* open and close each file right here *)
          let fullPath := Join [root; name fi] in
          match Open m fullPath with
          | inr err => Some (record (EOpen fullPath (Some err)) w, Some err)
          | inl f =>
              let w := record (EOpen fullPath None) w in
              let '(u, err) := fn m fullPath f (user w) in
              let w := record (EVisit m fullPath err) (mkWorld (log w) u) in
              let w := record (EClose fullPath) w in
              match err with
              | Some e => Some (w, Some e)
              | None => rangeEntries recurse m root ext fn fis' w
              end
          end
  end.

(** [walkDir]; the result [None] means that the bound [fuel] on the
    depth of the recursion was too small. *)
Fixpoint walkDir (fuel : nat) (m : Module) (root ext : gostring)
         (fn : WalkFunc) (w : world) : option (world * option error) :=
  match fuel with
  | O => None
  | S fuel' =>
      match Open m root with
      | inr err => Some (record (EOpen root (Some err)) w, Some err)
      | inl dirf =>
          let w := record (EOpen root None) w in
          let '(dirf, r) := Readdir dirf (-1) in
          (* close dir right after reading the file infos *)
          match r with
          | inr err =>
              Some (record (EClose root)
                      (record (EReaddir root (Some err)) w), Some err)
          | inl fis =>
              let w := record (EClose root)
                         (record (EReaddir root None) w) in
              rangeEntries (fun newRoot w => walkDir fuel' m newRoot ext fn w)
                           m root ext fn fis w
          end
      end
  end.

Definition Walk (fuel : nat) (m : Module) (ext : gostring) (fn : WalkFunc)
           (w : world) : option (world * option error) :=
  walkDir fuel m ["/"] ext fn w.

Fixpoint ModuleList_Walk (fuel : nat) (l : ModuleList) (ext : gostring)
         (fn : WalkFunc) (w : world) : option (world * option error) :=
  match l with
  | [] => Some (w, None)
  | m :: l' =>
      match Walk fuel m ext fn w with
      | None => None
      | Some (w', Some err) => Some (w', Some err)
      | Some (w', None) => ModuleList_Walk fuel l' ext fn w'
      end
  end.
End Walker.

(** * Vocabulary of the specification

    The definitions below are not part of the Go sources.  They name
    the notions the specification talks about (components of a path,
    reachable modules, the files a traversal meets, ...) and the
    auxiliary functions the proofs are organised around. *)

(** ** Paths as component sequences *)

(** [strings.Split(s, "/")]. *)
Fixpoint split_slash (s : gostring) : list gostring :=
  match s with
  | [] => [[]]
  | c :: t =>
      if c =? "/" then [] :: split_slash t
      else match split_slash t with
           | h :: r => (c :: h) :: r
           | [] => [[c]]
           end
  end.

(** One component read by a normaliser that keeps the components met so
    far on a stack, the last one on top. *)
Definition norm_step (st : list gostring) (c : gostring) : list gostring :=
  if str_eqb c [] || str_eqb c ["."] then st
  else if str_eqb c ["."; "."] then tl st
  else c :: st.

(** The component sequence of a path read as an absolute path: empty
    components and "." are dropped, ".." drops the component before it
    and does nothing at the root. *)
Definition normalize (p : gostring) : list gostring :=
  rev (fold_left norm_step (split_slash p) []).

Fixpoint abs0 (cs : list gostring) : gostring :=
  match cs with
  | [] => []
  | c :: cs' => "/" :: c ++ abs0 cs'
  end.

(** The absolute path rebuilt from a component sequence: "/" followed
    by the components joined with "/". *)
Definition abspath (cs : list gostring) : gostring :=
  match cs with
  | [] => ["/"]
  | _ => abs0 cs
  end.

Definition slashfree (c : gostring) : Prop := ~ In "/" c.

(** A component that survives normalisation. *)
Definition good (c : gostring) : Prop :=
  c <> [] /\ c <> ["."] /\ c <> ["."; "."] /\ slashfree c.

Definition goodb (c : gostring) : bool :=
  negb (str_eqb c []) && negb (str_eqb c ["."]) &&
  negb (str_eqb c ["."; "."]) && negb (existsb (Ascii.eqb "/") c).

(** The output buffer of [path.Clean] on a rooted path after the
    components [st] (last one first) have been written. *)
Fixpoint r0 (st : list gostring) : list ascii :=
  match st with
  | [] => []
  | c :: st' => rev c ++ "/" :: r0 st'
  end.

Definition outbuf (st : list gostring) : list ascii :=
  match st with
  | [] => ["/"]
  | _ => r0 st
  end.

(** The first path element of the unread input and what follows it. *)
Fixpoint first_elem (s : gostring) : gostring :=
  match s with
  | [] => []
  | c :: t => if c =? "/" then [] else c :: first_elem t
  end.

Fixpoint after_elem (s : gostring) : gostring :=
  match s with
  | [] => []
  | c :: t => if c =? "/" then s else after_elem t
  end.

(** The parent directory and the base name [Mkdir] and [writeFile]
    derive from their path argument. *)
Definition parent_parts (p : gostring) : list gostring :=
  removelast (normalize p).
Definition base_of (p : gostring) : gostring := last (normalize p) [].
Definition dir_of (p : gostring) : gostring := fst (Split (Clean ("/" :: p))).

(** ** Trees *)

(** All entries strictly below [e]. *)
Fixpoint descendants (e : fileEntry) : list fileEntry :=
  match e with
  | mkFileEntry _ _ _ _ _ ch =>
      (fix over (l : list fileEntry) : list fileEntry :=
         match l with
         | [] => []
         | c :: t => (c :: descendants c) ++ over t
         end) ch
  end.

(** The file sets that the builder API can produce. *)
Inductive built : FileSet -> Prop :=
| built_NewFileSet now nm requires :
    built (NewFileSet now nm requires)
| built_Mkdir now fs p md fs' :
    built fs -> Mkdir now fs p md = Ok fs' -> built fs'
| built_MkdirAll clock fs p md fs' :
    built fs -> MkdirAll clock fs p md = Ok fs' -> built fs'
| built_WriteFile fs p md mt b fs' :
    built fs -> WriteFile fs p md mt b = Ok fs' -> built fs'
| built_WriteGzipFile fs p md mt b fs' :
    built fs -> WriteGzipFile fs p md mt b = Ok fs' -> built fs'.

(** Whatever exists along [parts] below [e] is a directory. *)
Fixpoint dirs_along (parts : list gostring) (e : fileEntry) : Prop :=
  match parts with
  | [] => True
  | p :: parts' =>
      match entryWithName (children e) p with
      | None => True
      | Some s => IsDir s = true /\ dirs_along parts' s
      end
  end.

(** Every prefix of [parts] resolves below [e], to a directory. *)
Fixpoint dirs_resolve (parts : list gostring) (e : fileEntry) : Prop :=
  match parts with
  | [] => True
  | p :: parts' =>
      exists s, entryWithName (children e) p = Some s /\
                IsDir s = true /\ dirs_resolve parts' s
  end.

Definition has_buf (e : fileEntry) : Prop := buf e <> None.

Definition buffered (e : fileEntry) : Prop := Forall has_buf (descendants e).

(** Induction over trees with the hypothesis for all children. *)
Fixpoint fileEntry_induction (P : fileEntry -> Prop)
         (step : forall e, Forall P (children e) -> P e) (e : fileEntry) : P e :=
  step e
    (match e return Forall P (children e) with
     | mkFileEntry _ _ _ _ _ ch =>
         (fix over (l : list fileEntry) : Forall P l :=
            match l with
            | [] => Forall_nil P
            | c :: t => Forall_cons c (fileEntry_induction P step c) (over t)
            end) ch
     end).

(** A sequence of [Readdir] calls on one handle, with the counts
    [counts], and the entries it hands out. *)
Fixpoint readdirs (f : file) (counts : list Z)
  : file * list (fileEntryList + error) :=
  match counts with
  | [] => (f, [])
  | k :: ks =>
      let '(f1, r) := Readdir f k in
      let '(f2, rs) := readdirs f1 ks in
      (f2, r :: rs)
  end.

Definition listed (rs : list (fileEntryList + error)) : fileEntryList :=
  flat_map (fun r => match r with inl l => l | inr _ => [] end) rs.

(** ** The requires-graph *)

(** [a <= b] on Go strings, as the negation of [b < a]. *)
Definition str_le (a b : gostring) : Prop := str_ltb b a = false.

Definition name_le (x y : Module) : Prop := str_le (Name x) (Name y).

(** The direct and transitive requirements of a module.  [Module] is
    an inductive type, so the graph has no cycle. *)
Fixpoint deps (m : Module) : list Module :=
  match m with
  | mkFileSet _ _ requires =>
      (fix over (l : list Module) : list Module :=
         match l with
         | [] => []
         | x :: t => (x :: deps x) ++ over t
         end) requires
  end.

(** Every module reachable from the collection [r]. *)
Definition closure (r : ModuleList) : list Module :=
  flat_map (fun x => x :: deps x) r.

(** Names identify modules: two modules of [l] with one name are the
    same module. *)
Definition consistent (l : list Module) : Prop :=
  forall x y, In x l -> In y l -> Name x = Name y -> x = y.

(** Every module of [l] comes after all it depends on, [seen] being
    what precedes [l]. *)
Fixpoint deps_first (seen l : list Module) : Prop :=
  match l with
  | [] => True
  | x :: t => incl (deps x) seen /\ deps_first (x :: seen) t
  end.

(** The state of the loops of [Resolve]: no name twice, every module
    after all it depends on, everything inside the universe [U]. *)
Definition resolved (U ret : list Module) : Prop :=
  NoDup (map Name ret) /\ deps_first [] ret /\ incl ret U.

Definition resolves (U : list Module) (r : ModuleList) : Prop :=
  incl (closure r) U ->
  resolved U (Resolve r) /\ (forall z, In z (Resolve r) <-> In z (closure r)).

(** Induction over modules with the hypothesis for all requirements. *)
Fixpoint Module_induction (P : Module -> Prop)
         (step : forall m, Forall P (Requires m) -> P m) (m : Module) : P m :=
  step m
    (match m return Forall P (Requires m) with
     | mkFileSet _ _ requires =>
         (fix over (l : list Module) : Forall P l :=
            match l with
            | [] => Forall_nil P
            | x :: t => Forall_cons x (Module_induction P step x) (over t)
            end) requires
     end).

(** ** Traversals *)

(** The trace of a traversal is a sequence of blocks: a directory is
    opened, listed and closed; a file is opened, visited and closed.
    A failing operation ends its block with the handle closed. *)
Inductive ok_block : list event -> Prop :=
| ok_listing p : ok_block [EOpen p None; EReaddir p None; EClose p]
| ok_visit m p : ok_block [EOpen p None; EVisit m p None; EClose p].

Inductive fail_block (err : error) : list event -> Prop :=
| fail_open p : fail_block err [EOpen p (Some err)]
| fail_listing p :
    fail_block err [EOpen p None; EReaddir p (Some err); EClose p]
| fail_visit m p :
    fail_block err [EOpen p None; EVisit m p (Some err); EClose p].

Inductive ok_log : list event -> Prop :=
| ok_log_nil : ok_log []
| ok_log_snoc l b : ok_log l -> ok_block b -> ok_log (l ++ b).

(** What a run that returned [r] may add to the trace: successful
    blocks only, or successful blocks followed by the one block that
    failed with the returned error. *)
Definition trace_shape (r : option error) (added : list event) : Prop :=
  match r with
  | None => ok_log added
  | Some err => exists l0 fb, added = l0 ++ fb /\ ok_log l0 /\ fail_block err fb
  end.

Fixpoint visited (l : list event) : list gostring :=
  match l with
  | [] => []
  | EVisit _ p _ :: t => p :: visited t
  | _ :: t => visited t
  end.

Fixpoint uniqueb (l : list gostring) : bool :=
  match l with
  | [] => true
  | x :: t => negb (existsb (str_eqb x) t) && uniqueb t
  end.

(** A directory that [walkDir] can list: it opens and is not empty. *)
Definition listable (e : fileEntry) : bool :=
  negb (gzipped e) && match children e with [] => false | _ => true end.

(** The children of [e] are addressable by their paths (names are
    proper components and differ among siblings), and so on below
    every directory, each of which is listable. *)
Fixpoint walkable (e : fileEntry) : bool :=
  match e with
  | mkFileEntry _ _ _ _ _ ch =>
      uniqueb (map name ch) && forallb (fun c => goodb (name c)) ch &&
      (fix all (l : fileEntryList) : bool :=
         match l with
         | [] => true
         | c :: t => (negb (IsDir c) || (listable c && walkable c)) && all t
         end) ch
  end.

(** The number of nested calls of [walkDir] the directory [e] takes. *)
Fixpoint depth (e : fileEntry) : nat :=
  match e with
  | mkFileEntry _ _ _ _ _ ch =>
      S ((fix deepest (l : fileEntryList) : nat :=
            match l with
            | [] => 0
            | c :: t => Nat.max (if IsDir c then depth c else 0) (deepest t)
            end) ch)
  end.

(** The files met below the directory [e] at path [dir] whose
    extension is [ext]: depth-first, the children of every directory in
    the order of its list, a directory's files at the directory's own
    place. *)
Fixpoint matching (ext : gostring) (dir : list gostring) (e : fileEntry)
  : list (gostring * fileEntry) :=
  match e with
  | mkFileEntry _ _ _ _ _ ch =>
      (fix over (l : fileEntryList) : list (gostring * fileEntry) :=
         match l with
         | [] => []
         | c :: t =>
             (if IsDir c then matching ext (dir ++ [name c]) c
              else if str_eqb (Ext (name c)) ext
                   then [(abspath (dir ++ [name c]), c)]
                   else []) ++ over t
         end) ch
  end.

Definition matching_child (ext : gostring) (dir : list gostring)
           (c : fileEntry) : list (gostring * fileEntry) :=
  if IsDir c then matching ext (dir ++ [name c]) c
  else if str_eqb (Ext (name c)) ext then [(abspath (dir ++ [name c]), c)]
       else [].

(** The files a walk over the modules [l] is to visit, in order. *)
Definition visits (ext : gostring) (l : ModuleList)
  : list (Module * (gostring * fileEntry)) :=
  flat_map (fun m => map (pair m) (matching ext [] (root m))) l.

Definition walks_ok (fuel : nat) (m : Module) : Prop :=
  listable (root m) = true /\ walkable (root m) = true /\
  (depth (root m) <= fuel)%nat.

Section VisitVocabulary.
Context `{Gzip} {St : Type}.
Implicit Types (fn : WalkFunc (St := St)) (w : world (St := St)).

(** [w'] is [w] with a well-shaped piece of trace added. *)
Definition extends w w' (r : option error) : Prop :=
  exists added, log w' = log w ++ added /\ trace_shape r added.

(** Calling [fn] on the listed files in order, each with a fresh
    handle, until an open or a call fails. *)
Fixpoint visit_all fn (files : list (Module * (gostring * fileEntry)))
         (u : St) : St * option error :=
  match files with
  | [] => (u, None)
  | (m, (p, e)) :: t =>
      match open e with
      | inr err => (u, Some err)
      | inl f =>
          let '(u', r) := fn m p f u in
          match r with
          | Some err => (u', Some err)
          | None => visit_all fn t u'
          end
      end
  end.

(** The run [res] returned, and what it did to the callback's state
    and what it returned is what [visit_all] says. *)
Definition visits_result fn (files : list (Module * (gostring * fileEntry)))
           w (res : option (world * option error)) : Prop :=
  exists w', res = Some (w', snd (visit_all fn files (user w))) /\
             user w' = fst (visit_all fn files (user w)).
End VisitVocabulary.

(** A run that returned: split the equation of its two results. *)
Ltac inj_some :=
  let Hinj := fresh "Hinj" in
  intro Hinj; cbv beta iota in Hinj; injection Hinj as <- <-.

(** ** Concrete inputs used by the examples *)

(** A codec that accepts no payload; the examples that use it store no
    compressed file. *)
Definition rejectAll : Gzip := {| gunzip := fun _ => inr (ErrGzip 0) |}.

Definition bytes (s : string) : list byte := list_byte_of_string s.

(** [a]; [m]; [n] requires [a]. *)
Definition mod_a : Module := NewFileSet 0%Z (go "a") [].
Definition mod_m : Module := NewFileSet 0%Z (go "m") [].
Definition mod_n : Module := NewFileSet 0%Z (go "n") [mod_a].

(** The visitor of [TestWalk]: append the content of every file. *)
Definition concatVisitor : WalkFunc (St := list byte) :=
  fun _ _ f buffer =>
    match ReadAll 512 (f_Reader f) with
    | Some (_, b, None) => (buffer ++ b, None)
    | Some (_, _, Some err) => (buffer, Some err)
    | None => (buffer, Some (ErrVisit 0))
    end.

(** A visitor that fails on the path [bad] and counts the others. *)
Definition failingVisitor (bad : gostring) : WalkFunc (St := nat) :=
  fun _ p _ n => if str_eqb p bad then (n, Some (ErrVisit 1)) else (Datatypes.S n, None).

(** A fresh file set named "demo". *)
Definition demo : FileSet := NewFileSet 0%Z (go "demo") [].

(** The file set a chain of builder calls ends with. *)
Definition the (r : result FileSet) : FileSet :=
  match r with
  | Ok fs => fs
  | Panic _ => demo
  end.

(** The modules of [TestWalk]: [a]; [b] and [c] require [a]; [d]
    requires [b] and [c] and keeps its files in a subdirectory. *)
Definition test_a : Module :=
  the (WriteFile (NewFileSet 0%Z (go "a") []) (go "/a.js") 420%Z 0%Z
         (bytes "/* a.js */")).
Definition test_b : Module :=
  the (WriteFile (NewFileSet 0%Z (go "b") [test_a]) (go "/b.js") 420%Z 0%Z
         (bytes "/* b.js */")).
Definition test_c : Module :=
  the (WriteFile (NewFileSet 0%Z (go "c") [test_a]) (go "/c.js") 420%Z 0%Z
         (bytes "/* c.js */")).
Definition test_d : Module :=
  the (fs <- Mkdir 0%Z (NewFileSet 0%Z (go "d") [test_b; test_c])
               (go "/subdir") 493%Z ;;
       fs <- WriteFile fs (go "/subdir/d1.js") 420%Z 0%Z (bytes "/* d1.js */") ;;
       WriteFile fs (go "/subdir/d2.js") 420%Z 0%Z (bytes "/* d2.js */")).

(** "/sub" is created before "/a.js". *)
Definition dirFirst : result FileSet :=
  fs <- Mkdir 0%Z demo (go "/sub") 493%Z ;;
  fs <- WriteFile fs (go "/sub/x.js") 420%Z 0%Z (bytes "X") ;;
  WriteFile fs (go "/a.js") 420%Z 0%Z (bytes "A").

(** Three children in "/files", made one call after the other. *)
Definition files0 : FileSet := the (Mkdir 0%Z demo (go "/files") 493%Z).
Definition files1 : FileSet :=
  the (WriteFile files0 (go "/files/one.js") 420%Z 0%Z (bytes "1")).
Definition files2 : FileSet :=
  the (WriteFile files1 (go "/files/two.js") 420%Z 0%Z (bytes "2")).
Definition threeFiles : FileSet :=
  the (WriteFile files2 (go "/files/three.js") 420%Z 0%Z (bytes "3")).

(** The gzip encoding of the empty content: header, one empty stored
    block, CRC-32 and length, 23 bytes in all. *)
Definition gzipOfEmpty : list byte :=
  [x1f; x8b; x08; x00; x00; x00; x00; x00; x00; xff;
   x01; x00; x00; xff; xff;
   x00; x00; x00; x00; x00; x00; x00; x00]%byte.

(** The children of [e] are addressable by their paths: their names
    are proper components and differ among siblings, and so on below
    every directory.  A directory may be empty and a file may hold a
    payload that does not decode. *)
Fixpoint addressable (e : fileEntry) : bool :=
  match e with
  | mkFileEntry _ _ _ _ _ ch =>
      uniqueb (map name ch) && forallb (fun c => goodb (name c)) ch &&
      (fix all (l : fileEntryList) : bool :=
         match l with
         | [] => true
         | c :: t => (negb (IsDir c) || addressable c) && all t
         end) ch
  end.

(** A module whose walk returns within [fuel] nested calls of
    [walkDir], whatever fails on the way. *)
Definition returns_ok (fuel : nat) (m : Module) : Prop :=
  addressable (root m) = true /\ (depth (root m) <= fuel)%nat.

(** ** fs.go: printing a file set *)

(** [String]: the name, followed for a file set with requirements by
    " -> (", the [String] of each requirement with ", " after it, the
    last two bytes taken back by [buf.Truncate(buf.Len() - 2)], and
    ")". *)
Fixpoint String (fs : FileSet) : gostring :=
  match fs with
  | mkFileSet _ nm requires =>
      match requires with
      | [] => nm
      | _ =>
          let buf :=
            fold_left (fun buf r => buf ++ String r ++ go ", ") requires
                      (nm ++ go " -> (") in
          firstn (length buf - 2) buf ++ go ")"
      end
  end.

(** ** demoserver.go: concatenating the files of one kind *)

(** The callback [main] hands to [moduleList.Walk], once for ".css" and
    once for ".js": it reads the file to the end, asks for its
    [Stat], keeps the later of the modification time and the time
    recorded so far, and appends the content and a newline to the
    buffer.  The state is the pair of variables the closure captures,
    [cssBuf] and [cssTime] (or [jsBuf] and [jsTime]). *)
Definition concatNewest : WalkFunc (St := list byte * time) :=
  fun _ _ f st =>
    match ReadAll 512 (f_Reader f) with
    | None => (st, Some (ErrVisit 0))
    | Some (_, _, Some err) => (st, Some err)
    | Some (_, b, None) =>
        let '(info, err) := Stat (f_fileEntry f) in
        match err with
        | Some err => (st, Some err)
        | None =>
            let cssTime :=
              if (ModTime info >? snd st)%Z then ModTime info else snd st in
            ((fst st ++ b ++ [x0a%byte], cssTime), None)
        end
    end.

(** ** mkwebresource.go: the local name of an import path *)

(** [strings.NewReplacer(".", "", "-", "").Replace]: every "." and
    every "-" is dropped. *)
Definition dropDotsAndDashes (s : gostring) : gostring :=
  filter (fun c => negb ((c =? ".") || (c =? "-"))) s.

(** [importLocalName]: the last of the parts [strings.Split] cuts the
    path into at its slashes (there is always one), without dots and
    dashes. *)
Definition importLocalName (fullImportPath : gostring) : gostring :=
  let parts := split_slash fullImportPath in
  let ret := last parts [] in
  dropDotsAndDashes ret.

(** ** mkwebresource.go: the code it generates *)

(** A statement of the generated function [addFiles]: a call of a
    builder method on [fs], its result assigned to [fs]. *)
Inductive call :=
| CallMkdirAll (fullPath : gostring) (mode : FileMode)
| CallWriteGzipFile (fullPath : gostring) (mode : FileMode) (modTime : time)
                    (contents : list byte).

(** The statements [addFile] writes for an input file it could read:
    [name] is the path of the file below the input directory,
    [modTime] its modification time and [gz] what the gzip writer made
    of its content.  The modes are the octal literals 0755 and 0644. *)
Definition addFile (name : gostring) (modTime : time) (gz : list byte)
  : list call :=
  let '(nameDir, _) := Split (Clean ("/" :: name)) in
  (if negb (str_eqb nameDir []) && negb (str_eqb nameDir ["/"])
   then [CallMkdirAll nameDir 493%Z]        (* mkdirall if not root dir *)
   else [])
  ++ [CallWriteGzipFile name 420%Z modTime gz].

(** The body of the generated [addFiles]: the statements of every
    input file, in the order of [inputFilePaths]. *)
Definition addFiles (inputs : list (gostring * time * list byte)) : list call :=
  flat_map (fun i => addFile (fst (fst i)) (snd (fst i)) (snd i)) inputs.

(** Running generated statements. *)
Definition exec (clock : nat -> time) (fs : FileSet) (c : call)
  : result FileSet :=
  match c with
  | CallMkdirAll p md => MkdirAll clock fs p md
  | CallWriteGzipFile p md mt b => WriteGzipFile fs p md mt b
  end.

Fixpoint execAll (clock : nat -> time) (fs : FileSet) (cs : list call)
  : result FileSet :=
  match cs with
  | [] => Ok fs
  | c :: cs' => fs' <- exec clock fs c ;; execAll clock fs' cs'
  end.

(** ** Vocabulary of the further properties *)

(** Two entries that differ at most in their children: the same
    content, flag, name, mode and modification time. *)
Definition same_entry (e e' : fileEntry) : Prop :=
  buf e' = buf e /\ gzipped e' = gzipped e /\ name e' = name e /\
  mode e' = mode e /\ modTime e' = modTime e.

(** Whatever resolves below [e] resolves below [e'] to the same entry
    up to children. *)
Definition keeps (e e' : fileEntry) : Prop :=
  forall parts d, find_loop parts e = Some d ->
                  exists d', find_loop parts e' = Some d' /\ same_entry d d'.

(** [fs'] is [fs] after any number of successful builder calls. *)
Inductive builds_to (fs : FileSet) : FileSet -> Prop :=
| builds_refl : builds_to fs fs
| builds_Mkdir now fs1 p md fs2 :
    builds_to fs fs1 -> Mkdir now fs1 p md = Ok fs2 -> builds_to fs fs2
| builds_MkdirAll clock fs1 p md fs2 :
    builds_to fs fs1 -> MkdirAll clock fs1 p md = Ok fs2 -> builds_to fs fs2
| builds_WriteFile fs1 p md mt b fs2 :
    builds_to fs fs1 -> WriteFile fs1 p md mt b = Ok fs2 -> builds_to fs fs2
| builds_WriteGzipFile fs1 p md mt b fs2 :
    builds_to fs fs1 -> WriteGzipFile fs1 p md mt b = Ok fs2 -> builds_to fs fs2.

(** A name the builder API gives to an entry: a proper path component,
    or the empty name. *)
Definition okname (nm : gostring) : Prop := nm = [] \/ good nm.

(** The names of the children of [e] differ from each other and are
    names the builder API gives, and so on below every entry. *)
Fixpoint tidy (e : fileEntry) : Prop :=
  match e with
  | mkFileEntry _ _ _ _ _ ch =>
      NoDup (map name ch) /\ Forall (fun c => okname (name c)) ch /\
      (fix all (l : fileEntryList) : Prop :=
         match l with
         | [] => True
         | c :: t => tidy c /\ all t
         end) ch
  end.

(** ** Further concrete inputs *)

(** A codec for the examples: it strips a one-byte header [x1f] and
    rejects every other payload. *)
Definition stripHeader : Gzip :=
  {| gunzip := fun b => match b with
                        | x1f :: u => inl u
                        | _ => inr (ErrGzip 1)
                        end |}.

(** What adding the entry [e] at the path [p] of [fs] comes to, [r]
    being the result of the call: the three panics of [Mkdir] and
    [writeFile], or the parent directory with [e] after its former
    children. *)
Definition add_outcome (fs : FileSet) (p : gostring) (e : fileEntry)
           (r : result FileSet) : Prop :=
  let '(dir, base) := Split (Clean ("/" :: p)) in
  match findEntry fs dir with
  | None => r = Panic (NoParentEntry dir)
  | Some dire =>
      if IsDir dire then
        match entryWithName (children dire) base with
        | Some _ => r = Panic (EntryExists base dir)
        | None =>
            exists fs',
              r = Ok fs' /\
              findEntry fs' dir = Some (set_children dire (children dire ++ [e]))
        end
      else r = Panic (NotADirectory dir)
  end.

(** A file set with a compressed file whose payload [stripHeader]
    decodes, and one it rejects. *)
Definition gzDemo0 : FileSet :=
  the (WriteGzipFile demo (go "/good.gz") 420%Z 7%Z (x1f :: bytes "raw")).
Definition gzDemo : FileSet :=
  the (WriteGzipFile gzDemo0 (go "/bad.gz") 420%Z 8%Z (bytes "junk")).

(** [MkdirAll] of a path two levels below an existing file set. *)
Definition deepDirs : FileSet :=
  the (MkdirAll (fun i => Z.of_nat i) files0 (go "/files/x/y") 448%Z).

(** Every module of [l] comes after modules carrying the names of all
    it depends on, [seen] being the names that precede [l]. *)
Fixpoint names_first (seen : list gostring) (l : list Module) : Prop :=
  match l with
  | [] => True
  | x :: t =>
      (forall d, In d (deps x) -> In (Name d) seen) /\
      names_first (Name x :: seen) t
  end.

(** What [Resolve] guarantees for every input: no name twice, every
    module after modules with the names of all it depends on, the name
    of every reachable module present, only reachable modules. *)
Definition resolved_by_name (r : ModuleList) : Prop :=
  NoDup (map Name (Resolve r)) /\ names_first [] (Resolve r) /\
  (forall x, In x (closure r) -> In (Name x) (map Name (Resolve r))) /\
  (forall x, In x (Resolve r) -> In x (closure r)).

(** What [path.Ext] can return: nothing, or a dot followed by bytes
    other than the dot and the slash. *)
Definition extension (ext : gostring) : Prop :=
  ext = [] \/ exists t, ext = "." :: t /\ ~ In "." t /\ ~ In "/" t.

(** [strings.Join]: the elements with [sep] between them. *)
Fixpoint join (sep : gostring) (l : list gostring) : gostring :=
  match l with
  | [] => []
  | [x] => x
  | x :: t => x ++ sep ++ join sep t
  end.

(** The bytes a fresh handle of the entry [e] reads, or the error
    [Open] returns for it. *)
Definition content `{Gzip} (e : fileEntry) : list byte + error :=
  match buf e with
  | Some b => if gzipped e then gunzip b else inl b
  | None => inl []
  end.

Definition decoded `{Gzip} (e : fileEntry) : list byte :=
  match content e with
  | inl b => b
  | inr _ => []
  end.

(** ** Paths of files in a directory tree *)

Definition prefix_of (q c : list gostring) : Prop := exists rest, c = q ++ rest.

(** Two paths of which neither leads through the other. *)
Definition independent (a b : list gostring) : Prop :=
  ~ prefix_of a b /\ ~ prefix_of b a.

(** The paths of the regular files of a directory tree: no path is
    another one or leads through another one. *)
Fixpoint prefix_free (l : list (list gostring)) : Prop :=
  match l with
  | [] => True
  | c :: t => Forall (independent c) t /\ prefix_free t
  end.

(** The tree below [e] holds files at the paths [done], directories on
    the way to them, and nothing else. *)
Definition holds_only (done : list (list gostring)) (e : fileEntry) : Prop :=
  IsDir e = true /\
  forall q x, find_loop q e = Some x ->
              q = [] \/ In q done \/
              (IsDir x = true /\ exists c, In c done /\ prefix_of q c).

(** Three input files of a directory scan, two of them below
    directories, each with a payload [stripHeader] decodes. *)
Definition scanned : list (gostring * time * list byte) :=
  [ (go "/a.js", 1%Z, x1f :: bytes "A");
    (go "/lib/b.js", 2%Z, x1f :: bytes "B");
    (go "/lib/sub/c.css", 3%Z, x1f :: bytes "C") ].

(** A callback that records the paths it is called with. *)
Definition recordPaths : WalkFunc (St := list gostring) :=
  fun _ p _ seen => (seen ++ [p], None).

(** * Facts about paths *)

(** ** Basic string facts *)
Lemma str_eqb_eq a b : str_eqb a b = true <-> a = b.
Proof. unfold str_eqb. destruct (list_eq_dec ascii_dec a b); split; congruence. Qed.

Lemma str_eqb_neq a b : str_eqb a b = false <-> a <> b.
Proof. unfold str_eqb. destruct (list_eq_dec ascii_dec a b); split; congruence. Qed.

Lemma str_eqb_refl a : str_eqb a a = true.
Proof. now apply str_eqb_eq. Qed.

Lemma split_slash_nonnil s : split_slash s <> [].
Proof.
  destruct s as [|c t]; simpl; [discriminate|].
  destruct (c =? "/"); [discriminate|].
  destruct (split_slash t); discriminate.
Qed.

Lemma split_slash_slashfree s : Forall slashfree (split_slash s).
Proof.
  induction s as [|c t IH]; simpl.
  - constructor; [intros []|constructor].
  - destruct (Ascii.eqb_spec c "/") as [->|Hc].
    + constructor; [intros []|exact IH].
    + destruct (split_slash t) as [|h r].
      * constructor; [|constructor]. intros [E|[]]. congruence.
      * inversion IH; subst. constructor; [|assumption].
        intros [E|E]; [congruence|contradiction].
Qed.

Lemma split_slash_one c : slashfree c -> split_slash c = [c].
Proof.
  induction c as [|x c IH]; intros Hc; simpl; [reflexivity|].
  destruct (Ascii.eqb_spec x "/") as [->|Hx].
  - exfalso. apply Hc. now left.
  - rewrite IH; [reflexivity|]. intros Hin. apply Hc. now right.
Qed.

Lemma split_slash_app c t :
  slashfree c -> split_slash (c ++ "/" :: t) = c :: split_slash t.
Proof.
  induction c as [|x c IH]; intros Hc; simpl; [reflexivity|].
  destruct (Ascii.eqb_spec x "/") as [->|Hx].
  - exfalso. apply Hc. now left.
  - rewrite IH; [reflexivity|]. intros Hin. apply Hc. now right.
Qed.

Lemma norm_step_good st c : good c -> norm_step st c = c :: st.
Proof.
  intros (H1 & H2 & H3 & _). unfold norm_step.
  apply str_eqb_neq in H1, H2, H3. now rewrite H1, H2, H3.
Qed.

Lemma norm_step_Forall_good st c :
  Forall good st -> slashfree c -> Forall good (norm_step st c).
Proof.
  intros Hst Hc. unfold norm_step.
  destruct (str_eqb c []) eqn:E1; [assumption|].
  destruct (str_eqb c ["."]) eqn:E2; [assumption|]. simpl.
  destruct (str_eqb c ["."; "."]) eqn:E3.
  - destruct st; [constructor|]. now inversion Hst.
  - constructor; [|assumption].
    apply str_eqb_neq in E1, E2, E3. now repeat split.
Qed.

Lemma fold_norm_good cs : forall st,
  Forall good st -> Forall slashfree cs ->
  Forall good (fold_left norm_step cs st).
Proof.
  induction cs as [|c cs IH]; intros st Hst Hcs; simpl; [assumption|].
  inversion Hcs; subst. apply IH; [|assumption].
  now apply norm_step_Forall_good.
Qed.

Lemma normalize_good p : Forall good (normalize p).
Proof.
  unfold normalize. apply Forall_rev.
  apply fold_norm_good; [constructor|apply split_slash_slashfree].
Qed.

Lemma fold_norm_push cs : forall st,
  Forall good cs -> fold_left norm_step cs st = rev cs ++ st.
Proof.
  induction cs as [|c cs IH]; intros st H; simpl; [reflexivity|].
  inversion H; subst. rewrite norm_step_good by assumption.
  rewrite IH by assumption. now rewrite <- app_assoc.
Qed.

(** ** [path.Clean] on rooted paths *)

Lemma abs0_app l1 l2 : abs0 (l1 ++ l2) = abs0 l1 ++ abs0 l2.
Proof.
  induction l1 as [|c l1 IH]; simpl; [reflexivity|].
  now rewrite IH, <- app_assoc.
Qed.

Lemma r0_rev st : r0 st = rev (abs0 (rev st)).
Proof.
  induction st as [|c st IH]; simpl; [reflexivity|].
  rewrite abs0_app, rev_app_distr. simpl.
  rewrite app_nil_r, <- IH, <- app_assoc. reflexivity.
Qed.

Lemma outbuf_rev st : rev (outbuf st) = abspath (rev st).
Proof.
  destruct st as [|c st]; [reflexivity|].
  unfold outbuf. rewrite r0_rev, rev_involutive.
  simpl. destruct (rev st ++ [c]) eqn:E; [|reflexivity].
  now destruct (rev st).
Qed.

Lemma outbuf_nonnil st : outbuf st <> [].
Proof.
  destruct st as [|c st]; simpl; [discriminate|].
  destruct (rev c); discriminate.
Qed.

Lemma outbuf_length st :
  Forall good st -> (length (outbuf st) =? 1)%nat = match st with [] => true | _ => false end.
Proof.
  destruct st as [|c st]; intros H; [reflexivity|].
  inversion H as [|? ? (Hc & _) _]; subst.
  apply Nat.eqb_neq. simpl. rewrite length_app, length_rev. simpl.
  destruct c; [congruence|]. simpl. lia.
Qed.

Lemma backtrack_elem l : forall tail,
  ~ In "/" l ->
  backtrack (l ++ "/" :: tail) 1 =
  match tail with
  | [] => match l with [] => [] | _ => ["/"] end
  | _ => tail
  end.
Proof.
  induction l as [|x l IH]; intros tail Hl; simpl.
  - rewrite andb_false_r. now destruct tail.
  - assert (Hx : (x =? "/") = false).
    { apply Ascii.eqb_neq. intros ->. apply Hl. now left. }
    assert (Hl' : ~ In "/" l) by (intros Hin; apply Hl; now right).
    rewrite Hx, andb_true_r. rewrite length_app. simpl.
    destruct (1 <? length l + S (length tail))%nat eqn:E.
    + rewrite IH by assumption.
      destruct tail; [|reflexivity].
      destruct l; [|reflexivity].
      simpl in E. discriminate.
    + apply Nat.ltb_ge in E.
      destruct l; [|simpl in E; lia].
      destruct tail; [reflexivity|simpl in E; lia].
Qed.

Lemma backtrack_outbuf c st :
  Forall good (c :: st) -> backtrack (outbuf (c :: st)) 1 = outbuf st.
Proof.
  intros H. inversion H as [|? ? (Hne & _ & _ & Hsf) Hst]; subst.
  simpl. rewrite backtrack_elem.
  - destruct st as [|c' st']; simpl.
    + destruct (rev c) eqn:E; [|reflexivity].
      apply (f_equal (@rev ascii)) in E. rewrite rev_involutive in E.
      simpl in E. congruence.
    + destruct (rev c' ++ "/" :: r0 st') eqn:E; [|reflexivity].
      now destruct (rev c').
  - intros Hin. apply Hsf. now apply in_rev.
Qed.

Lemma first_after_elem s : s = first_elem s ++ after_elem s.
Proof.
  induction s as [|c t IH]; simpl; [reflexivity|].
  destruct (c =? "/"); simpl; congruence.
Qed.

Lemma first_elem_slashfree s : slashfree (first_elem s).
Proof.
  induction s as [|c t IH]; simpl; [intros []|].
  destruct (Ascii.eqb_spec c "/"); [intros []|].
  intros [E|E]; [congruence|contradiction].
Qed.

Lemma after_elem_end s : at_elem_end (after_elem s) = true.
Proof.
  induction s as [|c t IH]; simpl; [reflexivity|].
  destruct (c =? "/") eqn:E; [simpl; assumption|assumption].
Qed.

Lemma after_elem_length s : (length (after_elem s) <= length s)%nat.
Proof.
  induction s as [|c t IH]; simpl; [lia|].
  destruct (c =? "/"); simpl; lia.
Qed.

Lemma copy_elem_spec rest : forall out,
  copy_elem rest out = (after_elem rest, rev (first_elem rest) ++ out).
Proof.
  induction rest as [|c t IH]; intros out; simpl; [reflexivity|].
  destruct (c =? "/"); [reflexivity|].
  rewrite IH. simpl. now rewrite <- app_assoc.
Qed.

Lemma at_elem_end_first t :
  at_elem_end t = match first_elem t with [] => true | _ => false end.
Proof.
  destruct t as [|c t]; simpl; [reflexivity|]. now destruct (c =? "/").
Qed.

Lemma is_dot_spec c t :
  (c =? "/") = false ->
  (c =? ".") && at_elem_end t = str_eqb (first_elem (c :: t)) ["."].
Proof.
  intros Hc. simpl. rewrite Hc, at_elem_end_first.
  destruct (Ascii.eqb_spec c ".") as [->|Hd]; simpl.
  - destruct (first_elem t); [now rewrite str_eqb_refl|].
    symmetry. apply str_eqb_neq. discriminate.
  - symmetry. apply str_eqb_neq. congruence.
Qed.

Lemma is_dotdot_spec c t :
  (c =? "/") = false ->
  (c =? ".") &&
  match t with
  | c2 :: t2 => (c2 =? ".") && at_elem_end t2
  | [] => false
  end = str_eqb (first_elem (c :: t)) ["."; "."].
Proof.
  intros Hc. simpl. rewrite Hc.
  destruct (Ascii.eqb_spec c ".") as [->|Hd]; simpl.
  - destruct t as [|c2 t2]; simpl.
    + symmetry. apply str_eqb_neq. discriminate.
    + rewrite at_elem_end_first.
      destruct (Ascii.eqb_spec c2 "/") as [->|H2]; simpl.
      * symmetry. apply str_eqb_neq. discriminate.
      * destruct (Ascii.eqb_spec c2 ".") as [->|H3]; simpl.
        -- destruct (first_elem t2); [now rewrite str_eqb_refl|].
           symmetry. apply str_eqb_neq. discriminate.
        -- symmetry. apply str_eqb_neq. congruence.
  - symmetry. apply str_eqb_neq. congruence.
Qed.

Lemma after_elem_dot c t :
  (c =? "/") = false -> first_elem (c :: t) = ["."] -> after_elem (c :: t) = t.
Proof.
  simpl. intros ->. intros E. injection E as _ E.
  destruct t as [|c2 t2]; [reflexivity|]. simpl in *.
  destruct (c2 =? "/"); [reflexivity|discriminate].
Qed.

Lemma after_elem_dotdot c t :
  (c =? "/") = false -> first_elem (c :: t) = ["."; "."] ->
  after_elem (c :: t) = tl t.
Proof.
  simpl. intros ->. intros E. injection E as _ E.
  destruct t as [|c2 t2]; [discriminate|]. simpl in *.
  destruct (c2 =? "/"); [discriminate|]. injection E as _ E.
  destruct t2 as [|c3 t3]; [reflexivity|]. simpl in *.
  destruct (c3 =? "/"); [reflexivity|discriminate].
Qed.

Lemma fold_norm_elem elem rest' st :
  slashfree elem -> at_elem_end rest' = true ->
  fold_left norm_step (split_slash (elem ++ rest')) st =
  fold_left norm_step (split_slash rest') (norm_step st elem).
Proof.
  intros Hsf Hend. destruct rest' as [|c t].
  - rewrite app_nil_r, split_slash_one by assumption. reflexivity.
  - simpl in Hend. apply Ascii.eqb_eq in Hend. subst c.
    rewrite split_slash_app by assumption. simpl. reflexivity.
Qed.

Lemma clean_loop_nil fuel rooted out dotdot :
  clean_loop fuel rooted [] out dotdot = out.
Proof. now destruct fuel. Qed.

Lemma fold_norm_first rest st :
  fold_left norm_step (split_slash rest) st =
  fold_left norm_step (split_slash (after_elem rest))
            (norm_step st (first_elem rest)).
Proof.
  rewrite (first_after_elem rest) at 1.
  apply fold_norm_elem; [apply first_elem_slashfree|apply after_elem_end].
Qed.

Lemma clean_loop_rooted fuel : forall rest st,
  (length rest <= fuel)%nat -> Forall good st ->
  clean_loop fuel true rest (outbuf st) 1 =
  outbuf (fold_left norm_step (split_slash rest) st).
Proof.
  induction fuel as [|fuel IH]; intros rest st Hlen Hst.
  - destruct rest; [reflexivity|simpl in Hlen; lia].
  - destruct rest as [|c t]; [reflexivity|].
    simpl in Hlen. cbn [clean_loop].
    destruct (c =? "/") eqn:Hc.
    { apply Ascii.eqb_eq in Hc. subst c.
      rewrite IH by (assumption || lia). reflexivity. }
    rewrite (is_dot_spec c t Hc), (is_dotdot_spec c t Hc).
    rewrite (fold_norm_first (c :: t)). unfold norm_step at 2.
    pose proof (first_elem_slashfree (c :: t)) as Hsf.
    pose proof (after_elem_length (c :: t)) as Hal.
    assert (Hne : str_eqb (first_elem (c :: t)) [] = false).
    { apply str_eqb_neq. simpl. rewrite Hc. discriminate. }
    rewrite Hne. cbn [orb].
    destruct (str_eqb (first_elem (c :: t)) ["."]) eqn:E1.
    { apply str_eqb_eq in E1. rewrite (after_elem_dot c t Hc E1).
      apply IH; [lia|assumption]. }
    destruct (str_eqb (first_elem (c :: t)) ["."; "."]) eqn:E2.
    { apply str_eqb_eq in E2. rewrite (after_elem_dotdot c t Hc E2).
      assert (Hlen2 : (length (tl t) <= fuel)%nat) by (destruct t; simpl in *; lia).
      destruct st as [|c0 st'].
      - cbn. apply (IH (tl t) []); [assumption|constructor].
      - assert (Hlt : (1 <? length (outbuf (c0 :: st')))%nat = true).
        { apply Nat.ltb_lt. pose proof (outbuf_length (c0 :: st') Hst) as E.
          apply Nat.eqb_neq in E.
          pose proof (outbuf_nonnil (c0 :: st')).
          destruct (outbuf (c0 :: st')); [congruence|simpl in *; lia]. }
        rewrite Hlt, backtrack_outbuf by assumption.
        inversion Hst; subst. cbn [tl].
        apply IH; assumption. }
    rewrite copy_elem_spec.
    assert (Hgood : good (first_elem (c :: t))).
    { apply str_eqb_neq in Hne, E1, E2. now repeat split. }
    assert (Hal' : (length (after_elem (c :: t)) <= fuel)%nat).
    { simpl. rewrite Hc. pose proof (after_elem_length t). lia. }
    rewrite outbuf_length by assumption. cbn [andb negb orb].
    rewrite orb_false_r.
    replace (rev (first_elem (c :: t)) ++
             (if negb match st with [] => true | _ :: _ => false end
              then "/" :: outbuf st else outbuf st))
      with (outbuf (first_elem (c :: t) :: st)).
    + apply IH; [assumption|]. now constructor.
    + destruct st; reflexivity.
Qed.

Lemma fold_norm_slash p st :
  fold_left norm_step (split_slash ("/" :: p)) st =
  fold_left norm_step (split_slash p) st.
Proof. reflexivity. Qed.

Lemma normalize_slash p : normalize ("/" :: p) = normalize p.
Proof. reflexivity. Qed.

(** [path.Clean] on a rooted path: the components of the path with
    the empty ones and "." dropped and ".." removing its predecessor,
    joined again under the root. *)
Lemma Clean_rooted p : Clean ("/" :: p) = abspath (normalize p).
Proof.
  unfold Clean. cbv beta iota zeta. rewrite Ascii.eqb_refl.
  pose proof (clean_loop_rooted (length ("/" :: p)) p [] ) as H.
  change (outbuf []) with ["/"] in H.
  rewrite H by (simpl; first [lia | constructor]).
  unfold normalize. rewrite <- outbuf_rev.
  pose proof (outbuf_nonnil (fold_left norm_step (split_slash p) [])).
  destruct (outbuf (fold_left norm_step (split_slash p) [])); congruence.
Qed.

Lemma clean_loop_fuel f1 : forall f2 rooted rest out dotdot,
  (length rest <= f1)%nat -> (length rest <= f2)%nat ->
  clean_loop f1 rooted rest out dotdot = clean_loop f2 rooted rest out dotdot.
Proof.
  induction f1 as [|f1 IH]; intros f2 rooted rest out dotdot H1 H2.
  - destruct rest; [now rewrite !clean_loop_nil|simpl in H1; lia].
  - destruct f2 as [|f2].
    { destruct rest; [reflexivity|simpl in H2; lia]. }
    destruct rest as [|c t]; [reflexivity|]. simpl in H1, H2.
    assert (Htl : (length (tl t) <= length t)%nat) by (destruct t; simpl; lia).
    pose proof (after_elem_length (c :: t)) as Hal.
    cbn [clean_loop]. rewrite copy_elem_spec.
    destruct (c =? "/") eqn:Hc; [apply IH; lia|].
    assert (Hal' : (length (after_elem (c :: t)) <= length t)%nat).
    { simpl. rewrite Hc. apply after_elem_length. }
    repeat match goal with
           | |- context [if ?b then _ else _] => destruct b
           end; apply IH; lia.
Qed.

(** ** [path.Split], [strings.TrimSuffix] and [fullPathSplit] *)
Lemma LastIndexByte_none c : slashfree c -> LastIndexByte c "/" = (-1)%Z.
Proof.
  induction c as [|x c IH]; intros H; simpl; [reflexivity|].
  rewrite IH by (intros Hin; apply H; now right). simpl.
  destruct (Ascii.eqb_spec x "/") as [->|]; [|reflexivity].
  exfalso. apply H. now left.
Qed.

Lemma LastIndexByte_app l c :
  slashfree c -> LastIndexByte (l ++ "/" :: c) "/" = Z.of_nat (length l).
Proof.
  intros Hc. induction l as [|x l IH]; simpl.
  - now rewrite LastIndexByte_none.
  - rewrite IH. destruct (0 <=? Z.of_nat (length l))%Z eqn:E; [lia|].
    apply Z.leb_gt in E. lia.
Qed.

Lemma Split_noslash c : slashfree c -> Split c = ([], c).
Proof. intros H. unfold Split. now rewrite LastIndexByte_none. Qed.

Lemma Split_app l c : slashfree c -> Split (l ++ "/" :: c) = (l ++ ["/"], c).
Proof.
  intros H. unfold Split. rewrite LastIndexByte_app by assumption.
  replace (Z.to_nat (Z.of_nat (length l) + 1)) with (length (l ++ ["/"]))
    by (rewrite length_app; simpl; lia).
  change (l ++ "/" :: c) with (l ++ ["/"] ++ c). rewrite app_assoc.
  rewrite firstn_app, skipn_app, Nat.sub_diag, firstn_all, skipn_all. simpl.
  now rewrite app_nil_r.
Qed.

Lemma TrimSuffix_slash l : TrimSuffix (l ++ ["/"]) ["/"] = l.
Proof.
  unfold TrimSuffix, HasSuffix. rewrite length_app. simpl.
  replace (length l + 1 - 1)%nat with (length l) by lia.
  rewrite skipn_app, Nat.sub_diag, skipn_all. simpl.
  rewrite str_eqb_refl.
  destruct (length l + 1)%nat eqn:E; [lia|]. simpl.
  rewrite firstn_app, Nat.sub_diag, firstn_all. simpl. now rewrite app_nil_r.
Qed.

Lemma abs0_snoc cs c : abs0 (cs ++ [c]) = abs0 cs ++ "/" :: c.
Proof. rewrite abs0_app. simpl. now rewrite app_nil_r. Qed.

Lemma abs0_length cs : (length cs <= length (abs0 cs))%nat.
Proof.
  induction cs as [|c cs IH]; simpl; [lia|]. rewrite length_app. lia.
Qed.

Lemma split_loop_abs0 cs : forall fuel ret,
  Forall good cs -> (length cs < fuel)%nat ->
  split_loop fuel (abs0 cs) ret = ret ++ rev cs.
Proof.
  induction cs as [|c cs IH] using rev_ind; intros fuel ret Hg Hf.
  - destruct fuel; [lia|]. simpl. now rewrite app_nil_r.
  - apply Forall_app in Hg as [Hcs Hc]. inversion Hc as [|? ? (Hne & _ & _ & Hsf) _]; subst.
    rewrite length_app in Hf. simpl in Hf.
    destruct fuel; [lia|]. cbn [split_loop].
    rewrite abs0_snoc, Split_app by assumption.
    destruct c as [|x c]; [congruence|].
    rewrite TrimSuffix_slash, IH by (assumption || lia).
    rewrite rev_app_distr. simpl. now rewrite <- app_assoc.
Qed.

Lemma split_loop_abspath cs fuel ret :
  Forall good cs -> (length cs < fuel)%nat ->
  split_loop fuel (abspath cs) ret = ret ++ rev cs.
Proof.
  intros Hg Hf. destruct cs as [|c cs].
  - destruct fuel; [lia|]. simpl. now rewrite app_nil_r.
  - now apply split_loop_abs0.
Qed.

Lemma abspath_length cs : (length cs <= length (abspath cs))%nat.
Proof. destruct cs; [simpl; lia|apply abs0_length]. Qed.

(** [fullPathSplit] computes the normalised component sequence. *)
Lemma fullPathSplit_normalize p : fullPathSplit p = normalize p.
Proof.
  unfold fullPathSplit. cbv zeta. rewrite Clean_rooted.
  rewrite split_loop_abspath.
  - simpl. apply rev_involutive.
  - apply normalize_good.
  - pose proof (abspath_length (normalize p)). lia.
Qed.

(** The loop of [fullPathSplit] is never cut short by its bound. *)
Lemma split_loop_fuel p f1 f2 :
  (length (Clean ("/" :: p)) < f1)%nat -> (length (Clean ("/" :: p)) < f2)%nat ->
  split_loop f1 (Clean ("/" :: p)) [] = split_loop f2 (Clean ("/" :: p)) [].
Proof.
  rewrite Clean_rooted. intros H1 H2.
  pose proof (abspath_length (normalize p)).
  rewrite !split_loop_abspath by (apply normalize_good || lia). reflexivity.
Qed.

(** ** Normalising paths built from components *)
Lemma split_slash_abs0 cs c :
  slashfree c -> Forall slashfree cs -> split_slash (c ++ abs0 cs) = c :: cs.
Proof.
  intros Hc Hcs. revert c Hc. induction Hcs as [|c' cs Hc' Hcs IH]; intros c Hc; simpl.
  - rewrite app_nil_r. now apply split_slash_one.
  - rewrite split_slash_app by assumption. now rewrite IH.
Qed.

Lemma good_slashfree cs : Forall good cs -> Forall slashfree cs.
Proof. apply Forall_impl. now intros c (_ & _ & _ & H). Qed.

Lemma nil_slashfree : slashfree [].
Proof. intros []. Qed.

Lemma normalize_abs0 cs : Forall good cs -> normalize (abs0 cs) = cs.
Proof.
  intros H. unfold normalize.
  change (abs0 cs) with ([] ++ abs0 cs).
  rewrite split_slash_abs0 by (apply nil_slashfree || now apply good_slashfree).
  simpl. rewrite fold_norm_push by assumption.
  now rewrite app_nil_r, rev_involutive.
Qed.

Lemma normalize_abspath cs : Forall good cs -> normalize (abspath cs) = cs.
Proof.
  intros H. destruct cs; [reflexivity|]. now apply normalize_abs0.
Qed.

Lemma normalize_idem p : normalize (abspath (normalize p)) = normalize p.
Proof. apply normalize_abspath, normalize_good. Qed.

(** The component sequence [findEntry] walks. *)
Lemma findEntry_parts p : fullPathSplit (Clean ("/" :: p)) = normalize p.
Proof. now rewrite fullPathSplit_normalize, Clean_rooted, normalize_idem. Qed.

(** * Facts about the file tree *)

(** ** Directory listing *)

Lemma Readdir_positive f k :
  (0 < k)%Z -> f_children f <> [] ->
  Readdir f k =
  (mkFile (f_fileEntry f) (f_Reader f) (skipn (Z.to_nat k) (f_children f)),
   inl (firstn (Z.to_nat k) (f_children f))) /\
  firstn (Z.to_nat k) (f_children f) <> [].
Proof.
  intros Hk Hne. unfold Readdir.
  destruct (k <=? 0)%Z eqn:E; [lia|].
  assert (Hf : firstn (Z.to_nat k) (f_children f) <> []).
  { destruct (f_children f); [congruence|].
    destruct (Z.to_nat k) eqn:E'; [lia|discriminate]. }
  destruct (k >? Z.of_nat (length (f_children f)))%Z eqn:E2.
  - rewrite Nat2Z.id. rewrite firstn_all, skipn_all.
    assert (Hk' : (length (f_children f) <= Z.to_nat k)%nat) by lia.
    rewrite (firstn_all2 _ Hk'), (skipn_all2 _ Hk') in *.
    split; [|assumption]. destruct (f_children f); [congruence|reflexivity].
  - split; [|assumption].
    destruct (firstn (Z.to_nat k) (f_children f)); [congruence|reflexivity].
Qed.

Lemma Readdir_exhausted f n :
  f_children f = [] -> Readdir f n = (f, inr EOF).
Proof.
  intros E. unfold Readdir. rewrite E. simpl.
  destruct (n <=? 0)%Z; simpl.
  - destruct f; simpl in *; now subst.
  - destruct (n >? 0)%Z; simpl; rewrite ?firstn_nil, ?skipn_nil;
      destruct f; simpl in *; now subst.
Qed.

Lemma Readdir_all f n :
  (n <= 0)%Z -> f_children f <> [] ->
  Readdir f n = (mkFile (f_fileEntry f) (f_Reader f) [], inl (f_children f)).
Proof.
  intros Hn Hne. unfold Readdir.
  destruct (n <=? 0)%Z eqn:E; [|lia].
  rewrite Z.gtb_ltb, Z.ltb_irrefl, Nat2Z.id, firstn_all, skipn_all.
  destruct (f_children f); [congruence|reflexivity].
Qed.

Lemma Readdir_frame f n :
  f_fileEntry (fst (Readdir f n)) = f_fileEntry f /\
  f_Reader (fst (Readdir f n)) = f_Reader f.
Proof.
  unfold Readdir. cbv zeta.
  now destruct (firstn _ (f_children f)).
Qed.

Lemma Readdir_partition f n :
  listed [snd (Readdir f n)] ++ f_children (fst (Readdir f n)) = f_children f.
Proof.
  unfold Readdir. cbv zeta.
  match goal with |- context [firstn ?k _] => set (kk := k) end.
  pose proof (firstn_skipn kk (f_children f)) as Hfs.
  destruct (firstn kk (f_children f)) eqn:E; simpl.
  - exact Hfs.
  - rewrite app_nil_r. exact Hfs.
Qed.

Lemma readdirs_partition ks : forall f,
  listed (snd (readdirs f ks)) ++ f_children (fst (readdirs f ks)) = f_children f.
Proof.
  induction ks as [|k ks IH]; intros f; simpl; [reflexivity|].
  destruct (Readdir f k) as [f1 r] eqn:E1.
  destruct (readdirs f1 ks) as [f2 rs] eqn:E2. simpl.
  pose proof (IH f1) as H1. rewrite E2 in H1. simpl in H1.
  pose proof (Readdir_partition f k) as H2. rewrite E1 in H2. simpl in H2.
  rewrite app_nil_r in H2. rewrite <- app_assoc, H1. exact H2.
Qed.

Lemma readdirs_frame ks : forall f,
  f_fileEntry (fst (readdirs f ks)) = f_fileEntry f.
Proof.
  induction ks as [|k ks IH]; intros f; simpl; [reflexivity|].
  destruct (Readdir f k) as [f1 r] eqn:E1.
  destruct (readdirs f1 ks) as [f2 rs] eqn:E2. simpl.
  pose proof (IH f1) as H1. rewrite E2 in H1. simpl in H1.
  pose proof (Readdir_frame f k) as [H2 _]. rewrite E1 in H2. simpl in H2.
  congruence.
Qed.

Lemma open_fresh `{Gzip} e f :
  open e = inl f -> f_fileEntry f = e /\ f_children f = children e.
Proof.
  unfold open. intros E.
  destruct (buf e); [destruct (gzipped e); [destruct (gunzip l)|]|];
    inversion E; subst; auto.
Qed.

Lemma Open_fresh `{Gzip} fs path f :
  Open fs path = inl f ->
  findEntry fs path = Some (f_fileEntry f) /\
  f_children f = children (f_fileEntry f).
Proof.
  unfold Open. destruct (findEntry fs path) as [e|]; [|discriminate].
  intros E. apply open_fresh in E as [-> E2]. auto.
Qed.

(** ** Lookups and updates along a path *)

Lemma findEntry_normalize fs p :
  findEntry fs p = find_loop (normalize p) (root fs).
Proof. unfold findEntry. now rewrite findEntry_parts. Qed.

Lemma normalize_dir cs : Forall good cs -> normalize (abs0 cs ++ ["/"]) = cs.
Proof.
  intros H. unfold normalize.
  replace (abs0 cs ++ ["/"]) with ([] ++ abs0 (cs ++ [[]]))
    by (rewrite abs0_snoc; reflexivity).
  rewrite split_slash_abs0.
  - simpl. rewrite fold_left_app. simpl.
    rewrite fold_norm_push by assumption.
    unfold norm_step. simpl. now rewrite app_nil_r, rev_involutive.
  - apply nil_slashfree.
  - apply Forall_app. split; [now apply good_slashfree|].
    constructor; [apply nil_slashfree|constructor].
Qed.

Lemma newFileEntry_ok nm b md mt :
  slashfree nm -> newFileEntry nm b md mt = Ok (mkFileEntry (Some b) false nm md mt []).
Proof.
  intros H. unfold newFileEntry. rewrite Split_noslash by assumption.
  now rewrite !str_eqb_refl.
Qed.

Lemma normalize_cases p :
  normalize p = [] \/
  exists cs c, normalize p = cs ++ [c] /\ Forall good cs /\ good c.
Proof.
  pose proof (normalize_good p) as Hg.
  destruct (normalize p) as [|x l] using rev_ind; [now left|]. right.
  apply Forall_app in Hg as [H1 H2]. inversion H2; subst. eauto.
Qed.

Lemma base_of_slashfree p : slashfree (base_of p).
Proof.
  unfold base_of. destruct (normalize_cases p) as [->|(cs & c & -> & _ & Hc)].
  - apply nil_slashfree.
  - rewrite last_last. apply Hc.
Qed.

Lemma Split_Clean p : Split (Clean ("/" :: p)) = (dir_of p, base_of p).
Proof.
  unfold dir_of, base_of. rewrite Clean_rooted.
  destruct (normalize_cases p) as [->|(cs & c & -> & Hcs & Hc)]; [reflexivity|].
  rewrite last_last.
  assert (E : abspath (cs ++ [c]) = abs0 cs ++ "/" :: c).
  { rewrite <- abs0_snoc. now destruct cs. }
  rewrite E, Split_app by apply Hc. reflexivity.
Qed.

Lemma normalize_dir_of p : normalize (dir_of p) = parent_parts p.
Proof.
  unfold dir_of, parent_parts. rewrite Clean_rooted.
  destruct (normalize_cases p) as [->|(cs & c & -> & Hcs & Hc)]; [reflexivity|].
  rewrite removelast_last.
  assert (E : abspath (cs ++ [c]) = abs0 cs ++ "/" :: c).
  { rewrite <- abs0_snoc. now destruct cs. }
  rewrite E, Split_app by apply Hc. simpl. now apply normalize_dir.
Qed.

(** What [Mkdir] and [writeFile] do, component-wise. *)
Lemma addEntry_spec fs p mk :
  addEntry fs p mk =
  match find_loop (parent_parts p) (root fs) with
  | None => Panic (NoParentEntry (dir_of p))
  | Some dire =>
      if negb (IsDir dire) then Panic (NotADirectory (dir_of p))
      else
        match entryWithName (children dire) (base_of p) with
        | Some _ => Panic (EntryExists (base_of p) (dir_of p))
        | None =>
            e <- mk (base_of p) ;;
            Ok (set_root fs
                  (modifyEntry (parent_parts p)
                     (fun d => set_children d (children d ++ [e])) (root fs)))
        end
  end.
Proof.
  unfold addEntry. cbv zeta. rewrite Split_Clean.
  rewrite findEntry_normalize, findEntry_parts, normalize_dir_of. reflexivity.
Qed.

Lemma entryWithName_name l nm e : entryWithName l nm = Some e -> name e = nm.
Proof.
  induction l as [|x l IH]; simpl; [discriminate|].
  destruct (str_eqb (name x) nm) eqn:E; [|assumption].
  intros [= <-]. now apply str_eqb_eq.
Qed.

Lemma entryWithName_In l nm e : entryWithName l nm = Some e -> In e l.
Proof.
  induction l as [|x l IH]; simpl; [discriminate|].
  destruct (str_eqb (name x) nm); [intros [= <-]; now left|auto].
Qed.

Lemma entryWithName_app l1 l2 nm :
  entryWithName (l1 ++ l2) nm =
  match entryWithName l1 nm with
  | Some e => Some e
  | None => entryWithName l2 nm
  end.
Proof.
  induction l1 as [|x l1 IH]; simpl; [reflexivity|].
  now destruct (str_eqb (name x) nm).
Qed.

Lemma entryWithName_replace l nm g e :
  entryWithName l nm = Some e -> name (g e) = nm ->
  entryWithName (replaceChild l nm g) nm = Some (g e).
Proof.
  induction l as [|x l IH]; simpl; [discriminate|]. intros Hf Hn.
  destruct (str_eqb (name x) nm) eqn:E.
  - injection Hf as <-. simpl. apply str_eqb_eq in Hn. now rewrite Hn.
  - simpl. rewrite E. auto.
Qed.

Lemma entryWithName_replace_other l nm nm' g :
  (forall x, name (g x) = name x) -> 
  entryWithName (replaceChild l nm g) nm' =
  if str_eqb nm nm' then option_map g (entryWithName l nm') else entryWithName l nm'.
Proof.
  intros Hg. induction l as [|x l IH]; simpl; [now destruct (str_eqb nm nm')|].
  destruct (str_eqb (name x) nm) eqn:E; simpl.
  - rewrite Hg. apply str_eqb_eq in E. subst nm.
    destruct (str_eqb (name x) nm'); reflexivity.
  - destruct (str_eqb (name x) nm') eqn:E'.
    + destruct (str_eqb nm nm') eqn:E2; [|reflexivity].
      apply str_eqb_eq in E', E2. subst. now rewrite str_eqb_refl in E.
    + exact IH.
Qed.

Lemma replaceChild_none l nm g :
  entryWithName l nm = None -> replaceChild l nm g = l.
Proof.
  induction l as [|x l IH]; simpl; [reflexivity|].
  destruct (str_eqb (name x) nm); [discriminate|]. intros. now rewrite IH.
Qed.

Lemma replaceChild_same l nm e :
  entryWithName l nm = Some e -> replaceChild l nm (fun _ => e) = l.
Proof.
  induction l as [|x l IH]; simpl; [reflexivity|].
  destruct (str_eqb (name x) nm); [now intros [= <-]|]. intros. now rewrite IH.
Qed.

Lemma modifyEntry_name parts f : forall e,
  (forall x, name (f x) = name x) -> name (modifyEntry parts f e) = name e.
Proof. destruct parts; intros e Hf; simpl; [apply Hf|reflexivity]. Qed.

Lemma find_loop_app p1 p2 e :
  find_loop (p1 ++ p2) e =
  match find_loop p1 e with
  | Some d => find_loop p2 d
  | None => None
  end.
Proof.
  revert e. induction p1 as [|p p1 IH]; intros e; simpl; [reflexivity|].
  destruct (entryWithName (children e) p); [apply IH|reflexivity].
Qed.

Lemma find_modify parts f : forall e d,
  (forall x, name (f x) = name x) ->
  find_loop parts e = Some d ->
  find_loop parts (modifyEntry parts f e) = Some (f d).
Proof.
  induction parts as [|p ps IH]; intros e d Hf Hfind; simpl in *.
  - now injection Hfind as ->.
  - destruct (entryWithName (children e) p) as [e2|] eqn:E; [|discriminate].
    rewrite (entryWithName_replace _ _ _ e2 E).
    + now apply IH.
    + rewrite modifyEntry_name by assumption. now apply entryWithName_name in E.
Qed.

Lemma set_children_name d ch : name (set_children d ch) = name d.
Proof. reflexivity. Qed.

(** After a successful [addEntry] the path resolves to the new entry. *)
Lemma addEntry_find fs p mk fs' :
  addEntry fs p mk = Ok fs' ->
  exists dire e,
    find_loop (parent_parts p) (root fs) = Some dire /\
    IsDir dire = true /\
    entryWithName (children dire) (base_of p) = None /\
    mk (base_of p) = Ok e /\
    fs' = set_root fs (modifyEntry (parent_parts p)
                         (fun d => set_children d (children d ++ [e])) (root fs)) /\
    find_loop (parent_parts p) (root fs') =
      Some (set_children dire (children dire ++ [e])).
Proof.
  rewrite addEntry_spec.
  destruct (find_loop (parent_parts p) (root fs)) as [dire|] eqn:Ef; [|discriminate].
  destruct (IsDir dire) eqn:Ed; [|discriminate]. simpl.
  destruct (entryWithName (children dire) (base_of p)) eqn:Eb; [discriminate|].
  destruct (mk (base_of p)) as [e|] eqn:Em; [|discriminate]. simpl.
  intros [= <-]. exists dire, e. repeat split; try assumption.
  simpl. now apply (find_modify _ (fun d => set_children d (children d ++ [e]))).
Qed.

(** ** Reading a handle to exhaustion *)
Lemma firstn_skipn_length {A} n (l : list A) :
  firstn n l ++ skipn (length (firstn n l)) l = l.
Proof.
  rewrite length_firstn.
  destruct (Nat.min_spec n (length l)) as [[Hlt ->]|[Hge ->]].
  - apply firstn_skipn.
  - rewrite firstn_all2 by assumption. now rewrite skipn_all, app_nil_r.
Qed.

Lemma readAll_loop_spec fuel : forall chunk s i acc,
  (0 < chunk)%nat -> (i <= length s)%nat -> (length s - i < fuel)%nat ->
  readAll_loop fuel chunk (mkReader s (Z.of_nat i)) acc =
  Some (mkReader s (Z.of_nat (length s)), acc ++ skipn i s, None).
Proof.
  induction fuel as [|fuel IH]; intros chunk s i acc Hc Hi Hf; [lia|].
  cbn [readAll_loop]. unfold Read. cbn [r_i r_s].
  destruct (Z.of_nat i >=? Z.of_nat (length s))%Z eqn:E.
  - assert (i = length s) by lia. subst i.
    now rewrite skipn_all, !app_nil_r.
  - rewrite Nat2Z.id.
    set (b := firstn chunk (skipn i s)).
    assert (Hb : length b = Nat.min chunk (length s - i)).
    { unfold b. now rewrite length_firstn, length_skipn. }
    replace (Z.of_nat i + Z.of_nat (length b))%Z with (Z.of_nat (length b + i)) by lia.
    rewrite IH by lia. f_equal. f_equal. f_equal.
    rewrite <- app_assoc. f_equal.
    rewrite <- skipn_skipn. apply firstn_skipn_length.
Qed.

Lemma ReadAll_NewReader chunk b :
  (0 < chunk)%nat ->
  ReadAll chunk (NewReader b) = Some (mkReader b (Z.of_nat (length b)), b, None).
Proof.
  intros Hc. unfold ReadAll, NewReader. cbn [r_s].
  change 0%Z with (Z.of_nat 0).
  rewrite readAll_loop_spec by lia. reflexivity.
Qed.

Lemma parts_snoc p : normalize p <> [] -> normalize p = parent_parts p ++ [base_of p].
Proof. intros H. now apply app_removelast_last. Qed.

Lemma writeFile_findEntry fs p md mt contents gz fs' :
  writeFile fs p md mt contents gz = Ok fs' -> normalize p <> [] ->
  findEntry fs' p = Some (mkFileEntry (Some contents) gz (base_of p) md mt []).
Proof.
  intros Hw Hne. unfold writeFile in Hw.
  apply addEntry_find in Hw as (dire & e & Hf & Hd & Hb & Hmk & -> & Hf').
  rewrite newFileEntry_ok in Hmk by apply base_of_slashfree.
  simpl in Hmk. injection Hmk as <-.
  rewrite findEntry_normalize, (parts_snoc p Hne), find_loop_app, Hf'.
  simpl. rewrite entryWithName_app, Hb. simpl.
  now rewrite str_eqb_refl.
Qed.

(** [Size] of a file just written is the length of the bytes stored. *)
Lemma writeFile_Size fs p md mt contents gz fs' :
  writeFile fs p md mt contents gz = Ok fs' -> normalize p <> [] ->
  exists e, findEntry fs' p = Some e /\ gzipped e = gz /\
            Size e = Ok (Z.of_nat (length contents)).
Proof.
  intros Hw Hne. rewrite (writeFile_findEntry _ _ _ _ _ _ _ Hw Hne).
  eexists. repeat split.
Qed.

(** Round trip of raw bytes, for every path that is not the root. *)
Lemma WriteFile_roundtrip `{Gzip} fs p md mt b fs' chunk :
  WriteFile fs p md mt b = Ok fs' -> normalize p <> [] -> (0 < chunk)%nat ->
  exists f, Open fs' p = inl f /\
            ReadAll chunk (f_Reader f) = Some (mkReader b (Z.of_nat (length b)), b, None).
Proof.
  intros Hw Hne Hc. unfold Open.
  rewrite (writeFile_findEntry _ _ _ _ _ _ _ Hw Hne). unfold open. simpl.
  eexists. split; [reflexivity|]. now apply ReadAll_NewReader.
Qed.

(** Round trip of compressed bytes, for every path that is not the root. *)
Lemma WriteGzipFile_roundtrip `{Gzip} fs p md mt payload u fs' chunk :
  WriteGzipFile fs p md mt payload = Ok fs' -> gunzip payload = inl u ->
  normalize p <> [] -> (0 < chunk)%nat ->
  exists f, Open fs' p = inl f /\
            ReadAll chunk (f_Reader f) = Some (mkReader u (Z.of_nat (length u)), u, None).
Proof.
  intros Hw Hu Hne Hc. unfold Open.
  rewrite (writeFile_findEntry _ _ _ _ _ _ _ Hw Hne). unfold open. simpl.
  rewrite Hu. eexists. split; [reflexivity|]. now apply ReadAll_NewReader.
Qed.

(** ** Modes *)
Lemma mode_or_IsDir md : mode_IsDir (mode_or md ModeDir) = true.
Proof.
  unfold mode_IsDir, mode_or. apply negb_true_iff, Z.eqb_neq. intros E.
  apply (f_equal (fun z => Z.testbit z 31)) in E.
  rewrite Z.land_spec, Z.mod_pow2_bits_low, Z.lor_spec in E by lia.
  change (Z.testbit ModeDir 31) with true in E.
  rewrite orb_true_r in E. discriminate.
Qed.

(** ** MkdirAll *)
Lemma set_children_same e : set_children e (children e) = e.
Proof. now destruct e. Qed.

Lemma mkdirAll_total clock md parts : forall i e,
  Forall slashfree parts -> exists e', mkdirAll_loop clock md i parts e = Ok e'.
Proof.
  induction parts as [|p ps IH]; intros i e Hp; simpl; [eauto|].
  inversion Hp; subst.
  destruct (entryWithName (children e) p) as [sube|].
  - destruct (IH (S i) sube) as [s' ->]; [assumption|]. simpl. eauto.
  - rewrite newFileEntry_ok by assumption. simpl.
    destruct (IH (S i) (mkFileEntry (Some []) false p (mode_or md ModeDir) (clock i) []))
      as [s' ->]; [assumption|]. simpl. eauto.
Qed.

(** [MkdirAll] never panics, whatever is in the way. *)
Lemma MkdirAll_total clock fs p md : exists fs', MkdirAll clock fs p md = Ok fs'.
Proof.
  unfold MkdirAll. rewrite fullPathSplit_normalize.
  destruct (mkdirAll_total clock md (normalize p) 0 (root fs)) as [e' ->].
  - apply good_slashfree, normalize_good.
  - simpl. eauto.
Qed.

Lemma mkdirAll_noop clock md parts : forall i e d,
  find_loop parts e = Some d -> mkdirAll_loop clock md i parts e = Ok e.
Proof.
  induction parts as [|p ps IH]; intros i e d Hf; simpl in *; [reflexivity|].
  destruct (entryWithName (children e) p) as [sube|] eqn:E; [|discriminate].
  rewrite (IH _ _ _ Hf). simpl.
  now rewrite (replaceChild_same _ _ _ E), set_children_same.
Qed.

(** On a path that already resolves, [MkdirAll] changes nothing. *)
Lemma MkdirAll_noop clock fs p md d :
  findEntry fs p = Some d -> MkdirAll clock fs p md = Ok fs.
Proof.
  rewrite findEntry_normalize. intros Hf. unfold MkdirAll.
  rewrite fullPathSplit_normalize, (mkdirAll_noop _ _ _ _ _ _ Hf). simpl.
  now destruct fs.
Qed.

Lemma mkdirAll_name clock md parts : forall i e e',
  mkdirAll_loop clock md i parts e = Ok e' -> name e' = name e.
Proof.
  destruct parts as [|p ps]; intros i e e'; simpl; [now intros [= ->]|].
  destruct (entryWithName (children e) p).
  - destruct (mkdirAll_loop clock md (S i) ps f); simpl; [|discriminate].
    now intros [= <-].
  - destruct (newFileEntry p [] (mode_or md ModeDir) (clock i)); simpl; [|discriminate].
    destruct (mkdirAll_loop clock md (S i) ps a); simpl; [|discriminate].
    now intros [= <-].
Qed.

Lemma mkdirAll_resolves clock md parts : forall i e e',
  mkdirAll_loop clock md i parts e = Ok e' -> exists d, find_loop parts e' = Some d.
Proof.
  induction parts as [|p ps IH]; intros i e e'; simpl; [eauto|].
  destruct (entryWithName (children e) p) as [sube|] eqn:E.
  - destruct (mkdirAll_loop clock md (S i) ps sube) as [s'|] eqn:El; simpl; [|discriminate].
    intros [= <-]. simpl.
    rewrite (entryWithName_replace _ _ (fun _ => s') sube E).
    + eapply IH, El.
    + rewrite (mkdirAll_name _ _ _ _ _ _ El). now apply entryWithName_name in E.
  - destruct (newFileEntry p [] (mode_or md ModeDir) (clock i)) as [n|] eqn:En; simpl; [|discriminate].
    destruct (mkdirAll_loop clock md (S i) ps n) as [s'|] eqn:El; simpl; [|discriminate].
    intros [= <-]. simpl. rewrite entryWithName_app, E. simpl.
    rewrite (mkdirAll_name _ _ _ _ _ _ El).
    unfold newFileEntry in En. destruct (Split p).
    destruct (negb (str_eqb g []) || negb (str_eqb g0 p)); [discriminate|].
    injection En as <-. simpl. rewrite str_eqb_refl. eapply IH, El.
Qed.

(** After [MkdirAll] the path resolves. *)
Lemma MkdirAll_resolves clock fs p md fs' :
  MkdirAll clock fs p md = Ok fs' -> exists d, findEntry fs' p = Some d.
Proof.
  unfold MkdirAll. rewrite fullPathSplit_normalize.
  destruct (mkdirAll_loop clock md 0 (normalize p) (root fs)) as [e'|] eqn:E; [|discriminate].
  simpl. intros [= <-]. rewrite findEntry_normalize. simpl.
  eapply mkdirAll_resolves, E.
Qed.

Lemma mkdirAll_mode clock md parts : forall i e e',
  mkdirAll_loop clock md i parts e = Ok e' -> mode e' = mode e.
Proof.
  destruct parts as [|p ps]; intros i e e'; simpl; [now intros [= ->]|].
  destruct (entryWithName (children e) p).
  - destruct (mkdirAll_loop clock md (S i) ps f); simpl; [|discriminate].
    now intros [= <-].
  - destruct (newFileEntry p [] (mode_or md ModeDir) (clock i)); simpl; [|discriminate].
    destruct (mkdirAll_loop clock md (S i) ps a); simpl; [|discriminate].
    now intros [= <-].
Qed.

Lemma mkdirAll_dirs clock md parts : forall i e e',
  mkdirAll_loop clock md i parts e = Ok e' ->
  dirs_along parts e -> dirs_resolve parts e'.
Proof.
  induction parts as [|p ps IH]; intros i e e'; simpl; [trivial|].
  destruct (entryWithName (children e) p) as [sube|] eqn:E.
  - destruct (mkdirAll_loop clock md (S i) ps sube) as [s'|] eqn:El; simpl; [|discriminate].
    intros [= <-] [Hd Hrest]. exists s'. simpl.
    rewrite (entryWithName_replace _ _ (fun _ => s') sube E).
    + repeat split; [|eapply IH; eassumption].
      unfold IsDir in *. now rewrite (mkdirAll_mode _ _ _ _ _ _ El).
    + rewrite (mkdirAll_name _ _ _ _ _ _ El). now apply entryWithName_name in E.
  - destruct (newFileEntry p [] (mode_or md ModeDir) (clock i)) as [n|] eqn:En; simpl; [|discriminate].
    destruct (mkdirAll_loop clock md (S i) ps n) as [s'|] eqn:El; simpl; [|discriminate].
    intros [= <-] _. exists s'. simpl. rewrite entryWithName_app, E. simpl.
    rewrite (mkdirAll_name _ _ _ _ _ _ El).
    unfold newFileEntry in En. destruct (Split p).
    destruct (negb (str_eqb g []) || negb (str_eqb g0 p)); [discriminate|].
    injection En as <-. simpl. rewrite str_eqb_refl.
    repeat split.
    + unfold IsDir. rewrite (mkdirAll_mode _ _ _ _ _ _ El). simpl.
      apply mode_or_IsDir.
    + eapply IH; [exact El|]. simpl. now destruct ps.
Qed.

(** Where no file is in the way, [MkdirAll] leaves a directory at the
    path and at each of its ancestors. *)
Lemma MkdirAll_creates clock fs p md fs' :
  MkdirAll clock fs p md = Ok fs' ->
  dirs_along (normalize p) (root fs) ->
  dirs_resolve (normalize p) (root fs').
Proof.
  unfold MkdirAll. rewrite fullPathSplit_normalize.
  destruct (mkdirAll_loop clock md 0 (normalize p) (root fs)) as [e'|] eqn:E; [|discriminate].
  simpl. intros [= <-]. simpl. eapply mkdirAll_dirs, E.
Qed.

(** [Mkdir] on a path other than the root that already resolves panics. *)
Lemma Mkdir_existing now fs p md d :
  findEntry fs p = Some d -> normalize p <> [] ->
  exists pn, Mkdir now fs p md = Panic pn.
Proof.
  rewrite findEntry_normalize. intros Hf Hne.
  rewrite (parts_snoc p Hne), find_loop_app in Hf.
  unfold Mkdir. rewrite addEntry_spec.
  destruct (find_loop (parent_parts p) (root fs)) as [dire|]; [|discriminate].
  destruct (IsDir dire); simpl; [|eauto].
  simpl in Hf. destruct (entryWithName (children dire) (base_of p)); [eauto|discriminate].
Qed.

(** ** Buffers of built trees *)

Lemma descendants_unfold e :
  descendants e = flat_map (fun c => c :: descendants c) (children e).
Proof.
  destruct e as [b g n m t ch]. simpl.
  induction ch as [|c ch IH]; [reflexivity|]. simpl. now rewrite IH.
Qed.

Lemma buffered_unfold e :
  buffered e <-> Forall (fun c => has_buf c /\ buffered c) (children e).
Proof.
  unfold buffered. rewrite descendants_unfold, Forall_flat_map.
  split; apply Forall_impl; intros c H.
  - now inversion H.
  - destruct H. now constructor.
Qed.

Lemma replaceChild_Forall (Q : fileEntry -> Prop) l nm g :
  Forall Q l -> (forall c, Q c -> Q (g c)) -> Forall Q (replaceChild l nm g).
Proof.
  intros Hl Hg. induction Hl as [|x l Hx Hl IH]; simpl; [constructor|].
  destruct (str_eqb (name x) nm); constructor; auto.
Qed.

Lemma modifyEntry_buf parts f e :
  (forall d, buf (f d) = buf d) -> buf (modifyEntry parts f e) = buf e.
Proof. destruct parts; intros Hf; simpl; [apply Hf|reflexivity]. Qed.

Lemma modifyEntry_buffered parts f : forall e,
  (forall d, buf (f d) = buf d) ->
  (forall d, buffered d -> buffered (f d)) ->
  buffered e -> buffered (modifyEntry parts f e).
Proof.
  induction parts as [|p ps IH]; intros e Hb Hf He; simpl; [auto|].
  apply buffered_unfold. simpl. apply buffered_unfold in He.
  apply replaceChild_Forall; [assumption|].
  intros c [Hc1 Hc2]. split; [|auto].
  unfold has_buf. now rewrite modifyEntry_buf.
Qed.

Lemma append_buffered d e :
  has_buf e -> buffered e -> buffered d ->
  buffered (set_children d (children d ++ [e])).
Proof.
  intros H1 H2 Hd. apply buffered_unfold. simpl.
  apply buffered_unfold in Hd. apply Forall_app. split; [assumption|].
  constructor; [now split|constructor].
Qed.

Lemma leaf_buffered b g n m t : buffered (mkFileEntry b g n m t []).
Proof. constructor. Qed.

Lemma addEntry_buffered fs p mk fs' :
  (forall nm e, mk nm = Ok e -> has_buf e /\ buffered e) ->
  addEntry fs p mk = Ok fs' ->
  buffered (root fs) -> buffered (root fs') /\ buf (root fs') = buf (root fs).
Proof.
  intros Hmk Ha Hb.
  apply addEntry_find in Ha as (dire & e & _ & _ & _ & Hm & -> & _).
  apply Hmk in Hm as [H1 H2]. simpl. split.
  - apply modifyEntry_buffered; auto. intros d. now apply append_buffered.
  - now apply modifyEntry_buf.
Qed.

Lemma newFileEntry_buffered nm b md mt e :
  newFileEntry nm b md mt = Ok e -> has_buf e /\ buffered e.
Proof.
  unfold newFileEntry. destruct (Split nm).
  destruct (negb (str_eqb g []) || negb (str_eqb g0 nm)); [discriminate|].
  intros [= <-]. split; [discriminate|apply leaf_buffered].
Qed.

Lemma mkdirAll_buffered clock md parts : forall i e e',
  mkdirAll_loop clock md i parts e = Ok e' ->
  buffered e -> buffered e' /\ buf e' = buf e.
Proof.
  induction parts as [|p ps IH]; intros i e e'; simpl.
  - intros [= <-]. auto.
  - destruct (entryWithName (children e) p) as [sube|] eqn:E.
    + destruct (mkdirAll_loop clock md (S i) ps sube) as [s'|] eqn:El; simpl; [|discriminate].
      intros [= <-] He. split; [|reflexivity].
      apply buffered_unfold. simpl. apply buffered_unfold in He.
      pose proof He as He'. rewrite Forall_forall in He'.
      destruct (He' sube (entryWithName_In _ _ _ E)) as [Hs1 Hs2].
      destruct (IH _ _ _ El Hs2) as [Hb1 Hb2].
      apply replaceChild_Forall; [assumption|].
      intros c _. split; [|assumption]. unfold has_buf. now rewrite Hb2.
    + destruct (newFileEntry p [] (mode_or md ModeDir) (clock i)) as [n|] eqn:En; simpl; [|discriminate].
      destruct (mkdirAll_loop clock md (S i) ps n) as [s'|] eqn:El; simpl; [|discriminate].
      intros [= <-] He. split; [|reflexivity].
      apply newFileEntry_buffered in En as [Hn1 Hn2].
      destruct (IH _ _ _ El Hn2) as [Hb1 Hb2].
      apply append_buffered; [|assumption|assumption].
      unfold has_buf. now rewrite Hb2.
Qed.

Lemma built_buffers fs :
  built fs -> buffered (root fs) /\ buf (root fs) = None.
Proof.
  induction 1 as [now nm requires
                 |now fs p md fs' Hb [IH1 IH2] Hop
                 |clock fs p md fs' Hb [IH1 IH2] Hop
                 |fs p md mt b fs' Hb [IH1 IH2] Hop
                 |fs p md mt b fs' Hb [IH1 IH2] Hop].
  - split; [apply leaf_buffered|reflexivity].
  - unfold Mkdir in Hop. apply addEntry_buffered in Hop as [H1 H2]; [|
      intros nm e; apply newFileEntry_buffered|assumption].
    split; congruence.
  - unfold MkdirAll in Hop.
    destruct (mkdirAll_loop clock md 0 (fullPathSplit p) (root fs)) as [r|] eqn:E;
      [|discriminate].
    simpl in Hop. injection Hop as <-. simpl.
    apply mkdirAll_buffered in E as [H1 H2]; [|assumption]. split; congruence.
  - unfold WriteFile, writeFile in Hop.
    apply addEntry_buffered in Hop as [H1 H2]; [split; congruence| |assumption].
    intros nm e. destruct (newFileEntry nm b md mt) as [n|] eqn:En; simpl; [|discriminate].
    intros [= <-]. apply newFileEntry_buffered in En as [Hn1 Hn2].
    split; [exact Hn1|]. unfold buffered in *. now rewrite descendants_unfold in *.
  - unfold WriteGzipFile, writeFile in Hop.
    apply addEntry_buffered in Hop as [H1 H2]; [split; congruence| |assumption].
    intros nm e. destruct (newFileEntry nm b md mt) as [n|] eqn:En; simpl; [|discriminate].
    intros [= <-]. apply newFileEntry_buffered in En as [Hn1 Hn2].
    split; [exact Hn1|]. unfold buffered in *. now rewrite descendants_unfold in *.
Qed.

(** * Facts about the resolver *)

(** ** The order on Go strings *)
Lemma ascii_ltb_N x y : Ascii.ltb x y = (N_of_ascii x <? N_of_ascii y)%N.
Proof. reflexivity. Qed.

Lemma N_of_ascii_inj x y : N_of_ascii x = N_of_ascii y -> x = y.
Proof.
  intros E. rewrite <- (ascii_N_embedding x), <- (ascii_N_embedding y). now rewrite E.
Qed.

Lemma str_ltb_irrefl a : str_ltb a a = false.
Proof.
  induction a as [|x a IH]; simpl; [reflexivity|].
  rewrite ascii_ltb_N, N.ltb_irrefl, Ascii.eqb_refl. exact IH.
Qed.

Lemma str_ltb_trans a : forall b c,
  str_ltb a b = true -> str_ltb b c = true -> str_ltb a c = true.
Proof.
  induction a as [|x a IH]; intros [|y b] [|z c]; simpl; try congruence.
  rewrite !ascii_ltb_N. intros H1 H2.
  destruct (N.ltb_spec (N_of_ascii x) (N_of_ascii y)) as [Hxy|Hxy].
  - destruct (N.ltb_spec (N_of_ascii y) (N_of_ascii z)) as [Hyz|Hyz].
    + destruct (N.ltb_spec (N_of_ascii x) (N_of_ascii z)); [reflexivity|lia].
    + destruct (Ascii.eqb_spec y z) as [->|]; [|discriminate].
      destruct (N.ltb_spec (N_of_ascii x) (N_of_ascii z)); [reflexivity|lia].
  - destruct (Ascii.eqb_spec x y) as [->|]; [|discriminate].
    destruct (N.ltb_spec (N_of_ascii y) (N_of_ascii z)) as [Hyz|Hyz]; [reflexivity|].
    destruct (Ascii.eqb_spec y z) as [->|]; [|discriminate].
    eapply IH; eassumption.
Qed.

Lemma str_ltb_total a : forall b,
  str_ltb a b = false -> str_ltb b a = false -> a = b.
Proof.
  induction a as [|x a IH]; intros [|y b]; simpl; try congruence.
  rewrite !ascii_ltb_N.
  destruct (N.ltb_spec (N_of_ascii x) (N_of_ascii y)) as [Hxy|Hxy]; [discriminate|].
  destruct (N.ltb_spec (N_of_ascii y) (N_of_ascii x)) as [Hyx|Hyx]; [
    destruct (Ascii.eqb_spec x y) as [->|]; [lia|discriminate]|].
  assert (x = y) by (apply N_of_ascii_inj; lia). subst y.
  rewrite Ascii.eqb_refl. intros H1 H2. f_equal. now apply IH.
Qed.

Lemma str_ltb_asym a b : str_ltb a b = true -> str_ltb b a = false.
Proof.
  intros H. destruct (str_ltb b a) eqn:E; [|reflexivity].
  pose proof (str_ltb_trans _ _ _ H E) as C. now rewrite str_ltb_irrefl in C.
Qed.

Lemma str_le_trans a b c : str_le a b -> str_le b c -> str_le a c.
Proof.
  unfold str_le. intros Hab Hbc.
  destruct (str_ltb c a) eqn:Hca; [|reflexivity]. exfalso.
  destruct (str_ltb a b) eqn:E1.
  - pose proof (str_ltb_trans _ _ _ Hca E1). congruence.
  - pose proof (str_ltb_total _ _ E1 Hab). subst b. congruence.
Qed.

(** ** [sort.Sort] *)

Lemma insert_perm {A} (less : A -> A -> bool) x l :
  Permutation (insert less x l) (x :: l).
Proof.
  induction l as [|y l IH]; simpl; [reflexivity|].
  destruct (less y x); [|reflexivity].
  rewrite IH. apply perm_swap.
Qed.

Lemma Sort_perm {A} (less : A -> A -> bool) l : Permutation (Sort less l) l.
Proof.
  induction l as [|x l IH]; simpl; [reflexivity|].
  rewrite insert_perm. now constructor.
Qed.

Lemma insert_sorted x l :
  StronglySorted name_le l -> StronglySorted name_le (insert Less x l).
Proof.
  induction 1 as [|y l Hs IH Hy]; simpl.
  - repeat constructor.
  - unfold Less at 1. destruct (str_ltb (Name y) (Name x)) eqn:E.
    + constructor; [assumption|].
      rewrite (insert_perm Less x l). constructor; [|assumption].
      unfold name_le, str_le. now apply str_ltb_asym.
    + constructor; [now constructor|].
      constructor; [exact E|].
      eapply Forall_impl; [|exact Hy]. intros z Hz.
      eapply str_le_trans; [exact E|exact Hz].
Qed.

Lemma Sort_sorted l : StronglySorted name_le (Sort Less l).
Proof.
  induction l as [|x l IH]; simpl; [constructor|]. now apply insert_sorted.
Qed.

Lemma sorted_perm_unique l1 : forall l2,
  StronglySorted name_le l1 -> StronglySorted name_le l2 ->
  Permutation l1 l2 ->
  (forall x y, In x l1 -> In y l1 -> Name x = Name y -> x = y) ->
  l1 = l2.
Proof.
  induction l1 as [|a t1 IH]; intros l2 H1 H2 Hp Hc.
  - now apply Permutation_nil in Hp.
  - destruct l2 as [|b t2]; [now apply Permutation_sym, Permutation_nil in Hp|].
    inversion H1 as [|? ? Hs1 Ha]; subst. inversion H2 as [|? ? Hs2 Hb]; subst.
    rewrite Forall_forall in Ha, Hb.
    assert (Eab : a = b).
    { assert (Hbin : In b (a :: t1)) by (eapply Permutation_in; [symmetry; exact Hp|now left]).
      assert (Hain : In a (b :: t2)) by (eapply Permutation_in; [exact Hp|now left]).
      destruct Hbin as [|Hbin]; [assumption|].
      destruct Hain as [|Hain]; [congruence|].
      apply Hc; [now left|now right|].
      apply str_ltb_total; [apply (Hb a Hain)|apply (Ha b Hbin)]. }
    subst b. f_equal. apply IH; try assumption.
    + eapply Permutation_cons_inv, Hp.
    + intros x y Hx Hy. apply Hc; now right.
Qed.

(** On modules whose names identify them, the order of the input of
    [sort.Sort] does not matter. *)
Lemma Sort_perm_eq l l' :
  Permutation l l' ->
  (forall x y, In x l -> In y l -> Name x = Name y -> x = y) ->
  Sort Less l = Sort Less l'.
Proof.
  intros Hp Hc. apply sorted_perm_unique; try apply Sort_sorted.
  - rewrite !Sort_perm. exact Hp.
  - intros x y Hx Hy. apply Hc; eapply Permutation_in; try eassumption; apply Sort_perm.
Qed.

(** ** Resolve in the shape of the source *)
Lemma insert_map {A B} (lessA : A -> A -> bool) (lessB : B -> B -> bool)
      (h : A -> B) x l :
  (forall a b, lessB (h a) (h b) = lessA a b) ->
  insert lessB (h x) (map h l) = map h (insert lessA x l).
Proof.
  intros Hh. induction l as [|y l IH]; simpl; [reflexivity|].
  rewrite Hh. destruct (lessA y x); simpl; [now rewrite IH|reflexivity].
Qed.

Lemma Sort_map {A B} (lessA : A -> A -> bool) (lessB : B -> B -> bool)
      (h : A -> B) l :
  (forall a b, lessB (h a) (h b) = lessA a b) ->
  Sort lessB (map h l) = map h (Sort lessA l).
Proof.
  intros Hh. induction l as [|x l IH]; simpl; [reflexivity|].
  rewrite IH. now apply insert_map.
Qed.

Lemma fold_left_map {A B C} (f : C -> B -> C) (h : A -> B) l : forall c,
  fold_left f (map h l) c = fold_left (fun c a => f c (h a)) l c.
Proof. induction l as [|x l IH]; intros c; simpl; [reflexivity|apply IH]. Qed.

Lemma fold_left_pointwise {A B} (f g : A -> B -> A) l :
  (forall a b, f a b = g a b) -> forall a, fold_left f l a = fold_left g l a.
Proof.
  intros Hfg. induction l as [|x l IH]; intros a; simpl; [reflexivity|].
  now rewrite Hfg, IH.
Qed.

Lemma resolveRequires_Resolve m : resolveRequires m = Resolve (Requires m).
Proof.
  destruct m as [r n reqs]. reflexivity.
Qed.

(** [Resolve] as the source writes it: sort a copy, then for each
    module add its resolved requirements and the module itself. *)
Lemma Resolve_unfold r :
  Resolve r =
  fold_left (fun ret m => resolveStep ret m (Resolve (Requires m)))
            (Sort Less r) [].
Proof.
  unfold Resolve at 1, resolveLoop.
  rewrite (Sort_map Less LessFst (fun m => (m, resolveRequires m))) by reflexivity.
  rewrite fold_left_map. simpl.
  apply fold_left_pointwise. intros ret m. now rewrite resolveRequires_Resolve.
Qed.

(** ** The requires-graph *)

Lemma deps_unfold m : deps m = closure (Requires m).
Proof.
  destruct m as [r n reqs]. unfold closure. simpl.
  induction reqs as [|x t IH]; [reflexivity|]. simpl. now rewrite IH.
Qed.

Lemma in_closure r x :
  In x (closure r) <-> exists m, In m r /\ (x = m \/ In x (deps m)).
Proof.
  unfold closure. rewrite in_flat_map. split; intros (m & Hm & H); exists m;
    (split; [assumption|]); simpl in *; intuition.
Qed.

Lemma deps_trans : forall m d e, In d (deps m) -> In e (deps d) -> In e (deps m).
Proof.
  intros m. induction m as [m IH] using Module_induction. intros d e Hd He.
  rewrite (deps_unfold m) in *. apply in_closure in Hd as (x & Hx & [->|Hd]).
  - apply in_closure. eauto.
  - apply in_closure. exists x. split; [assumption|right].
    rewrite Forall_forall in IH. eapply IH; eassumption.
Qed.

Lemma closure_closed r x d : In x (closure r) -> In d (deps x) -> In d (closure r).
Proof.
  intros Hx Hd. apply in_closure in Hx as (m & Hm & [->|Hx]); apply in_closure;
    exists m; (split; [assumption|right]); [assumption|].
  eapply deps_trans; eassumption.
Qed.

Lemma closure_perm r r' x : Permutation r r' -> In x (closure r) -> In x (closure r').
Proof.
  intros Hp Hx. apply in_closure in Hx as (m & Hm & H). apply in_closure.
  exists m. split; [eapply Permutation_in; eassumption|assumption].
Qed.

Lemma closure_app r1 r2 : closure (r1 ++ r2) = closure r1 ++ closure r2.
Proof. apply flat_map_app. Qed.

(** ** Named and appendUnlessNamed *)
Lemma Named_None l nm : Named l nm = None <-> ~ In nm (map Name l).
Proof.
  unfold Named. induction l as [|x l IH]; simpl; [tauto|].
  destruct (str_eqb (Name x) nm) eqn:E.
  - apply str_eqb_eq in E. split; [discriminate|]. intros H. exfalso. apply H. now left.
  - apply str_eqb_neq in E. rewrite IH. tauto.
Qed.

Lemma Named_Some l nm y : Named l nm = Some y -> In y l /\ Name y = nm.
Proof.
  unfold Named. intros H. apply find_some in H as [H1 H2].
  split; [assumption|now apply str_eqb_eq].
Qed.

Lemma deps_first_incl seen seen' l :
  incl seen seen' -> deps_first seen l -> deps_first seen' l.
Proof.
  revert seen seen'. induction l as [|x l IH]; intros seen seen' Hi; simpl; [trivial|].
  intros [H1 H2]. split.
  - intros d Hd. auto.
  - eapply IH; [|exact H2]. intros d [->|Hd]; [now left|right; auto].
Qed.

Lemma deps_first_snoc l : forall seen x,
  deps_first seen (l ++ [x]) <->
  deps_first seen l /\ (forall d, In d (deps x) -> In d seen \/ In d l).
Proof.
  induction l as [|y l IH]; intros seen x; simpl.
  - unfold incl. split.
    + intros [H _]. split; [trivial|]. intros d Hd. left. auto.
    + intros [_ H]. split; [|trivial]. intros d Hd. destruct (H d Hd) as [|[]]. assumption.
  - rewrite IH. simpl. split.
    + intros (H1 & H2 & H3). repeat split; try assumption.
      intros d Hd. destruct (H3 d Hd) as [[->|]|]; auto.
    + intros ((H1 & H2) & H3). repeat split; try assumption.
      intros d Hd. destruct (H3 d Hd) as [|[->|]]; auto.
Qed.

Lemma deps_first_before l : forall seen l1 x l2,
  deps_first seen l -> l = l1 ++ x :: l2 ->
  forall d, In d (deps x) -> In d seen \/ In d l1.
Proof.
  induction l as [|y l IH]; intros seen l1 x l2 H E d Hd.
  - now destruct l1.
  - destruct H as [H1 H2]. destruct l1 as [|z l1]; simpl in E; injection E as -> ->.
    + left. auto.
    + destruct (IH _ _ _ _ H2 eq_refl d Hd) as [[->|]|]; simpl; auto.
Qed.

Section Merge.
Variable U : list Module.
Hypothesis HU : consistent U.

Lemma appendUnlessNamed_present ret m :
  incl ret U -> In m U -> In m (appendUnlessNamed ret m).
Proof.
  intros Hret Hm. unfold appendUnlessNamed.
  destruct (Named ret (Name m)) as [y|] eqn:E.
  - apply Named_Some in E as [Hy En].
    rewrite <- (HU y m); auto.
  - apply in_or_app. right. now left.
Qed.

Lemma appendUnlessNamed_resolved ret m :
  resolved U ret -> In m U -> incl (deps m) ret ->
  resolved U (appendUnlessNamed ret m) /\
  (forall x, In x (appendUnlessNamed ret m) <-> In x ret \/ x = m).
Proof.
  intros (Hnd & Hdf & Hin) Hm Hdeps. unfold appendUnlessNamed.
  destruct (Named ret (Name m)) as [y|] eqn:E.
  - apply Named_Some in E as [Hy En].
    assert (y = m) by (apply HU; auto). subst y.
    split; [now repeat split|]. intros x. split; [auto|]. intros [ H | -> ]; assumption.
  - apply Named_None in E. split.
    + repeat split.
      * rewrite map_app. apply NoDup_app.
        -- assumption.
        -- constructor; [intros Hf; inversion Hf|constructor].
        -- intros a Ha Hx. destruct Hx as [<-|Hx]; [contradiction|inversion Hx].
      * apply deps_first_snoc. split; [assumption|]. intros d Hd. right. auto.
      * intros z Hz. apply in_app_or in Hz as [|[<-|[]]]; auto.
    + intros x. rewrite in_app_iff. simpl. intuition.
Qed.

Lemma merge_resolved todo : forall seen ret,
  resolved U ret -> incl todo U -> incl seen ret -> deps_first seen todo ->
  resolved U (fold_left appendUnlessNamed todo ret) /\
  (forall z, In z (fold_left appendUnlessNamed todo ret) <-> In z ret \/ In z todo).
Proof.
  induction todo as [|x todo IH]; intros seen ret Hret Htodo Hseen Hdf; simpl.
  - split; [assumption|]. intuition.
  - destruct Hdf as [Hdx Hdf].
    assert (HxU : In x U) by (apply Htodo; now left).
    destruct (appendUnlessNamed_resolved ret x Hret HxU) as [Hr1 Hm1].
    { intros d Hd. auto. }
    destruct (IH (x :: seen) (appendUnlessNamed ret x)) as [Hr2 Hm2]; try assumption.
    + intros z Hz. apply Htodo. now right.
    + intros z [<-|Hz]; apply Hm1; auto.
    + split; [assumption|]. intros z. rewrite Hm2, Hm1. intuition.
Qed.

Lemma resolveStep_resolved ret m mreqs :
  resolved U ret -> In m U -> resolved U mreqs ->
  (forall z, In z mreqs <-> In z (deps m)) ->
  resolved U (resolveStep ret m mreqs) /\
  (forall z, In z (resolveStep ret m mreqs) <->
             In z ret \/ In z (closure [m])).
Proof.
  intros Hret Hm (_ & Hdf & Hin) Hmem. unfold resolveStep.
  destruct (merge_resolved mreqs [] ret) as [Hr1 Hm1]; try assumption.
  { intros z []. }
  destruct (appendUnlessNamed_resolved _ m Hr1 Hm) as [Hr2 Hm2].
  { intros d Hd. apply Hm1. right. now apply Hmem. }
  split; [assumption|]. intros z. rewrite Hm2, Hm1, Hmem.
  unfold closure. simpl. rewrite app_nil_r. intuition.
Qed.

Lemma loop_resolved (g : Module -> ModuleList) s : forall ret,
  resolved U ret -> incl s U ->
  (forall m, In m s ->
             resolved U (g m) /\ (forall z, In z (g m) <-> In z (deps m))) ->
  resolved U (fold_left (fun ret m => resolveStep ret m (g m)) s ret) /\
  (forall z, In z (fold_left (fun ret m => resolveStep ret m (g m)) s ret) <->
             In z ret \/ In z (closure s)).
Proof.
  induction s as [|m s IH]; intros ret Hret Hs Hg; simpl.
  - split; [assumption|]. intuition.
  - destruct (Hg m (or_introl eq_refl)) as [Hg1 Hg2].
    destruct (resolveStep_resolved ret m (g m)) as [Hr1 Hm1]; try assumption.
    { apply Hs. now left. }
    destruct (IH (resolveStep ret m (g m))) as [Hr2 Hm2]; try assumption.
    + intros z Hz. apply Hs. now right.
    + intros z Hz. apply Hg. now right.
    + split; [assumption|]. intros z. rewrite Hm2, Hm1.
      unfold closure. simpl. rewrite app_nil_r, !in_app_iff. simpl. intuition.
Qed.

Lemma resolves_list r :
  Forall (fun m => resolves U (Requires m)) r -> resolves U r.
Proof.
  intros Hall HrU. rewrite Resolve_unfold.
  assert (Hperm : Permutation (Sort Less r) r) by apply Sort_perm.
  destruct (loop_resolved (fun m => Resolve (Requires m)) (Sort Less r) [])
    as [Hr Hm].
  - repeat split; [constructor|intros z []].
  - intros z Hz. apply HrU, in_closure. exists z. split; [|now left].
    eapply Permutation_in; eassumption.
  - intros m Hm. assert (Hmr : In m r) by (eapply Permutation_in; eassumption).
    rewrite Forall_forall in Hall. rewrite deps_unfold. apply (Hall m Hmr).
    intros z Hz. apply HrU, in_closure. exists m. split; [assumption|right].
    now rewrite deps_unfold.
  - split; [assumption|]. intros z. rewrite Hm. split.
    + intros [[]|Hz]. eapply closure_perm; eassumption.
    + intros Hz. right. eapply closure_perm; [symmetry|]; eassumption.
Qed.

Lemma resolves_all r : resolves U r.
Proof.
  apply resolves_list. apply Forall_forall. intros m _.
  apply (Module_induction (fun m => resolves U (Requires m))).
  intros m' IH. now apply resolves_list.
Qed.
End Merge.

Lemma deps_first_nth l : forall seen i x d,
  deps_first seen l -> nth_error l i = Some x -> In d (deps x) ->
  In d seen \/ exists j, (j < i)%nat /\ nth_error l j = Some d.
Proof.
  induction l as [|y l IH]; intros seen i x d Hdf Hn Hd.
  - now destruct i.
  - destruct Hdf as [H1 H2]. destruct i as [|i]; simpl in Hn.
    + injection Hn as ->. left. auto.
    + destruct (IH _ _ _ _ H2 Hn Hd) as [[->|Hs]|(j & Hj & Hnj)].
      * right. exists 0%nat. split; [lia|reflexivity].
      * now left.
      * right. exists (S j). split; [lia|assumption].
Qed.

Lemma closure_incl_self r : incl r (closure r).
Proof. intros x Hx. apply in_closure. eauto. Qed.

(** What [Resolve] returns when names identify modules. *)
Lemma Resolve_sound r :
  consistent (closure r) ->
  NoDup (map Name (Resolve r)) /\
  (forall x, In x (Resolve r) <-> In x (closure r)) /\
  (forall i x d, nth_error (Resolve r) i = Some x -> In d (deps x) ->
                 exists j, (j < i)%nat /\ nth_error (Resolve r) j = Some d) /\
  (forall r', Permutation r r' -> Resolve r' = Resolve r).
Proof.
  intros HU.
  destruct (resolves_all (closure r) HU r (incl_refl _)) as [(Hnd & Hdf & _) Hmem].
  repeat split; try assumption; try apply Hmem.
  - intros i x d Hn Hd.
    destruct (deps_first_nth _ _ _ _ _ Hdf Hn Hd) as [[]|Hj]. exact Hj.
  - intros r' Hp. rewrite !Resolve_unfold.
    rewrite (Sort_perm_eq r r' Hp); [reflexivity|].
    intros x y Hx Hy. apply HU; now apply closure_incl_self.
Qed.

Lemma closure_Resolve ms :
  consistent (closure ms) ->
  forall x, In x (closure (Resolve ms)) <-> In x (closure ms).
Proof.
  intros HU x. destruct (Resolve_sound ms HU) as (_ & Hmem & _).
  split.
  - intros Hx. apply in_closure in Hx as (m & Hm & [->|Hx]).
    + now apply Hmem.
    + eapply closure_closed; [apply Hmem; eassumption|assumption].
  - intros Hx. apply closure_incl_self. now apply Hmem.
Qed.

Lemma consistent_Resolve ms :
  consistent (closure ms) -> consistent (closure (Resolve ms)).
Proof.
  intros HU x y Hx Hy. apply HU; now apply closure_Resolve.
Qed.

(** * Facts about the walker *)

(** ** The shape of the trace *)

Lemma ok_log_app a b : ok_log a -> ok_log b -> ok_log (a ++ b).
Proof.
  intros Ha Hb. induction Hb as [|l blk Hl IH Hblk].
  - now rewrite app_nil_r.
  - rewrite app_assoc. now constructor.
Qed.

Lemma ok_log_block b : ok_block b -> ok_log b.
Proof. intros H. change b with ([] ++ b). constructor; [constructor|assumption]. Qed.

Lemma trace_shape_app a b r : ok_log a -> trace_shape r b -> trace_shape r (a ++ b).
Proof.
  intros Ha. destruct r as [err|]; simpl.
  - intros (l0 & fb & -> & Hl & Hf). exists (a ++ l0), fb.
    rewrite app_assoc. repeat split; [now apply ok_log_app|assumption].
  - now apply ok_log_app.
Qed.

Section WalkerFacts.
Context `{Gzip} {St : Type}.
Implicit Types (fn : WalkFunc (St := St)) (w : world (St := St)).

Lemma extends_trans w w1 w2 r :
  extends w w1 None -> extends w1 w2 r -> extends w w2 r.
Proof.
  intros (a1 & E1 & S1) (a2 & E2 & S2). exists (a1 ++ a2).
  rewrite E2, E1, app_assoc. split; [reflexivity|now apply trace_shape_app].
Qed.

Lemma extends_refl w : extends w w None.
Proof. exists []. rewrite app_nil_r. split; [reflexivity|constructor]. Qed.

Lemma rangeEntries_shape recurse m root ext fn :
  (forall nr w w' r, recurse nr w = Some (w', r) -> extends w w' r) ->
  forall fis w w' r,
    rangeEntries recurse m root ext fn fis w = Some (w', r) -> extends w w' r.
Proof.
  intros Hrec. induction fis as [|fi fis IH]; intros w w' r; simpl.
  - inj_some. apply extends_refl.
  - destruct (IsDir fi).
    + destruct (recurse (Join [root; name fi]) w) as [[w1 [e|]]|] eqn:E; try discriminate.
      * inj_some. eapply Hrec, E.
      * intros Hr. eapply extends_trans; [eapply Hrec, E|eapply IH, Hr].
    + destruct (negb (str_eqb (Ext (name fi)) ext)); [apply IH|].
      destruct (Open m (Join [root; name fi])) as [f|e] eqn:Eo.
      * destruct (fn m (Join [root; name fi]) f (user w)) as [u [e|]] eqn:Ef.
        -- inj_some. eexists. split.
           ++ simpl. rewrite <- !app_assoc. reflexivity.
           ++ simpl. exists [], [EOpen (Join [root; name fi]) None;
                                 EVisit m (Join [root; name fi]) (Some e);
                                 EClose (Join [root; name fi])].
              repeat split; constructor.
        -- intros Hr. eapply extends_trans; [|eapply IH, Hr].
           eexists. split.
           ++ simpl. rewrite <- !app_assoc. reflexivity.
           ++ simpl. apply ok_log_block. constructor.
      * inj_some. eexists. split; [reflexivity|].
        exists [], [EOpen (Join [root; name fi]) (Some e)]. repeat split; constructor.
Qed.

Lemma walkDir_shape fuel : forall m root ext fn w w' r,
  walkDir fuel m root ext fn w = Some (w', r) -> extends w w' r.
Proof.
  induction fuel as [|fuel IH]; intros m root ext fn w w' r; simpl; [discriminate|].
  destruct (Open m root) as [dirf|e] eqn:Eo.
  - destruct (Readdir dirf (-1)) as [dirf' [fis|e]] eqn:Er.
    + intros Hr. eapply extends_trans; [|eapply rangeEntries_shape; [|exact Hr]].
      * eexists. split; [simpl; rewrite <- !app_assoc; reflexivity|].
        simpl. apply ok_log_block. constructor.
      * intros nr w0 w1 r0. apply IH.
    + inj_some. eexists. split; [simpl; rewrite <- !app_assoc; reflexivity|].
      exists [], [EOpen root None; EReaddir root (Some e); EClose root].
      repeat split; constructor.
  - inj_some. eexists. split; [reflexivity|].
    exists [], [EOpen root (Some e)]. repeat split; constructor.
Qed.

Lemma ModuleList_Walk_app fuel ext fn l1 : forall l2 w,
  ModuleList_Walk fuel (l1 ++ l2) ext fn w =
  match ModuleList_Walk fuel l1 ext fn w with
  | Some (w1, None) => ModuleList_Walk fuel l2 ext fn w1
  | other => other
  end.
Proof.
  induction l1 as [|m l1 IH]; intros l2 w; simpl.
  - now destruct (ModuleList_Walk fuel l2 ext fn w) as [[? [|]]|].
  - destruct (Walk fuel m ext fn w) as [[w1 [e|]]|]; try reflexivity. apply IH.
Qed.

Lemma ModuleList_Walk_shape fuel ext fn l : forall w w' r,
  ModuleList_Walk fuel l ext fn w = Some (w', r) -> extends w w' r.
Proof.
  induction l as [|m l IH]; intros w w' r; simpl.
  - inj_some. apply extends_refl.
  - destruct (Walk fuel m ext fn w) as [[w1 [e|]]|] eqn:E; try discriminate.
    + inj_some. eapply walkDir_shape, E.
    + intros Hr. eapply extends_trans; [eapply walkDir_shape, E|eapply IH, Hr].
Qed.

Lemma ModuleList_Walk_error fuel ext fn l : forall w w' err,
  ModuleList_Walk fuel l ext fn w = Some (w', Some err) ->
  exists l1 m l2 w1,
    l = l1 ++ m :: l2 /\
    ModuleList_Walk fuel l1 ext fn w = Some (w1, None) /\
    Walk fuel m ext fn w1 = Some (w', Some err).
Proof.
  induction l as [|m l IH]; intros w w' err; simpl; [discriminate|].
  destruct (Walk fuel m ext fn w) as [[w1 [e|]]|] eqn:E; try discriminate.
  - inj_some. exists [], m, l, w. auto.
  - intros Hr. apply IH in Hr as (l1 & m' & l2 & w2 & -> & H1 & H2).
    exists (m :: l1), m', l2, w2. simpl. rewrite E. auto.
Qed.

Lemma rangeEntries_mono rec1 rec2 m root ext fn :
  (forall nr w x, rec1 nr w = Some x -> rec2 nr w = Some x) ->
  forall fis w x,
    rangeEntries rec1 m root ext fn fis w = Some x ->
    rangeEntries rec2 m root ext fn fis w = Some x.
Proof.
  intros Hrec. induction fis as [|fi fis IH]; intros w x; simpl; [auto|].
  destruct (IsDir fi).
  - destruct (rec1 (Join [root; name fi]) w) as [[w1 [e|]]|] eqn:E; try discriminate.
    + rewrite (Hrec _ _ _ E). auto.
    + rewrite (Hrec _ _ _ E). apply IH.
  - destruct (negb (str_eqb (Ext (name fi)) ext)); [apply IH|].
    destruct (Open m (Join [root; name fi])) as [f|e]; [|auto].
    destruct (fn m (Join [root; name fi]) f (user w)) as [u [e|]]; [auto|apply IH].
Qed.

(** A run that returned is not changed by a larger bound. *)
Lemma walkDir_fuel fuel : forall m root ext fn w x,
  walkDir fuel m root ext fn w = Some x ->
  walkDir (Datatypes.S fuel) m root ext fn w = Some x.
Proof.
  induction fuel as [|fuel IH]; intros m root ext fn w x; [discriminate|].
  intros Hr. cbn [walkDir] in Hr |- *.
  destruct (Open m root) as [dirf|e]; [|assumption].
  destruct (Readdir dirf (-1)) as [dirf' [fis|e]]; [|assumption].
  eapply rangeEntries_mono; [|exact Hr]. intros nr w0 x0. apply IH.
Qed.

End WalkerFacts.

(** ** What a traversal visits *)

Lemma matching_unfold ext dir e :
  matching ext dir e = flat_map (matching_child ext dir) (children e).
Proof.
  destruct e as [b g n m t ch]. simpl.
  induction ch as [|c ch IH]; [reflexivity|]. simpl. now rewrite IH.
Qed.

Lemma walkable_unfold e :
  walkable e =
  uniqueb (map name (children e)) &&
  forallb (fun c => goodb (name c)) (children e) &&
  forallb (fun c => negb (IsDir c) || (listable c && walkable c)) (children e).
Proof.
  destruct e as [b g n m t ch]. reflexivity.
Qed.

Lemma depth_unfold e :
  depth e =
  S (list_max (map (fun c => if IsDir c then depth c else 0) (children e))).
Proof.
  destruct e as [b g n m t ch]. simpl. f_equal.
  induction ch as [|c ch IH]; [reflexivity|]. simpl. now rewrite IH.
Qed.

Lemma goodb_good c : goodb c = true -> good c.
Proof.
  unfold goodb. rewrite !andb_true_iff, !negb_true_iff.
  intros (((H1 & H2) & H3) & H4).
  apply str_eqb_neq in H1, H2, H3. repeat split; try assumption.
  intros Hin. assert (E : existsb (Ascii.eqb "/") c = true).
  { apply existsb_exists. exists "/". split; [assumption|reflexivity]. }
  congruence.
Qed.

Lemma entryWithName_unique l c :
  uniqueb (map name l) = true -> In c l -> entryWithName l (name c) = Some c.
Proof.
  induction l as [|x l IH]; simpl; [contradiction|].
  rewrite andb_true_iff, negb_true_iff. intros [Hx Hu] [->|Hin].
  - now rewrite str_eqb_refl.
  - destruct (str_eqb (name x) (name c)) eqn:E; [|auto].
    exfalso. rewrite <- not_true_iff_false in Hx. apply Hx.
    apply existsb_exists. exists (name c). split; [now apply in_map|assumption].
Qed.

Lemma Join_two a b : a <> [] -> Join [a; b] = Clean (a ++ "/" :: b).
Proof. destruct a; [congruence|reflexivity]. Qed.

Lemma abspath_rooted cs : exists t, abspath cs = "/" :: t.
Proof. destruct cs; simpl; eauto. Qed.

Lemma Join_abspath cs nm :
  Forall good cs -> good nm -> Join [abspath cs; nm] = abspath (cs ++ [nm]).
Proof.
  intros Hcs Hnm.
  assert (Hgood : Forall good (cs ++ [nm])).
  { apply Forall_app. split; [assumption|now constructor]. }
  rewrite Join_two by (destruct cs; discriminate).
  destruct (abspath_rooted cs) as [t Et].
  assert (E : normalize (abspath cs ++ "/" :: nm) = cs ++ [nm]).
  { destruct cs as [|c cs].
    - replace (abspath [] ++ "/" :: nm) with ("/" :: abs0 [nm])
        by (simpl; now rewrite app_nil_r).
      rewrite normalize_slash. now apply normalize_abs0.
    - cbn [abspath]. rewrite <- abs0_snoc. now apply normalize_abs0. }
  rewrite Et in *. cbn [app]. rewrite Clean_rooted.
  cbn [app] in E. rewrite normalize_slash in E. now rewrite E.
Qed.

Section Visits.
Context `{Gzip} {St : Type}.
Implicit Types (fn : WalkFunc (St := St)) (w : world (St := St)).

Lemma visit_all_app fn l1 : forall l2 u,
  visit_all fn (l1 ++ l2) u =
  match visit_all fn l1 u with
  | (u1, None) => visit_all fn l2 u1
  | other => other
  end.
Proof.
  induction l1 as [|[m [p e]] l1 IH]; intros l2 u; simpl.
  - now destruct (visit_all fn l2 u) as [? [|]].
  - destruct (open e) as [f|err]; [|reflexivity].
    destruct (fn m p f u) as [u' [err|]]; [reflexivity|apply IH].
Qed.

Lemma Open_abspath m cs e :
  Forall good cs -> find_loop cs (root m) = Some e -> Open m (abspath cs) = open e.
Proof.
  intros Hcs Hf. unfold Open.
  now rewrite findEntry_normalize, normalize_abspath, Hf.
Qed.

Lemma rangeEntries_visits recurse m ext fn cs fuel :
  Forall good cs ->
  (forall c w, IsDir c = true -> listable c = true -> walkable c = true ->
               (depth c <= fuel)%nat -> good (name c) ->
               find_loop (cs ++ [name c]) (root m) = Some c ->
               visits_result fn (map (pair m) (matching ext (cs ++ [name c]) c)) w
                             (recurse (abspath (cs ++ [name c])) w)) ->
  forall fis w,
    Forall (fun c => good (name c) /\
                     find_loop (cs ++ [name c]) (root m) = Some c /\
                     (IsDir c = true ->
                      listable c = true /\ walkable c = true /\
                      (depth c <= fuel)%nat)) fis ->
    visits_result fn (map (pair m) (flat_map (matching_child ext cs) fis)) w
                  (rangeEntries recurse m (abspath cs) ext fn fis w).
Proof.
  intros Hcs Hrec. induction fis as [|c fis IH]; intros w Hfis.
  - exists w. simpl. auto.
  - inversion Hfis as [|? ? (Hg & Hf & Hd) Hrest]; subst.
    unfold visits_result in *.
    cbn [rangeEntries flat_map]. rewrite map_app, visit_all_app.
    rewrite (Join_abspath cs (name c) Hcs Hg).
    destruct (IsDir c) eqn:Edir.
    + assert (Emc : matching_child ext cs c = matching ext (cs ++ [name c]) c)
        by (unfold matching_child; now rewrite Edir).
      rewrite Emc.
      destruct (Hd eq_refl) as (Hl & Hw & Hdep).
      destruct (Hrec c w Edir Hl Hw Hdep Hg Hf) as (w1 & -> & Hu1).
      destruct (visit_all fn (map (pair m) (matching ext (cs ++ [name c]) c)) (user w))
        as [u1 [err|]] eqn:Ev; simpl in *.
      * exists w1. auto.
      * subst u1. apply IH. assumption.
    + destruct (str_eqb (Ext (name c)) ext) eqn:Eext; simpl.
      * assert (Emc : matching_child ext cs c = [(abspath (cs ++ [name c]), c)])
          by (unfold matching_child; now rewrite Edir, Eext).
        rewrite Emc. cbn [map visit_all].
        rewrite (Open_abspath m (cs ++ [name c]) c); [|
          apply Forall_app; split; [assumption|now constructor]|assumption].
        destruct (open c) as [f|err].
        -- destruct (fn m (abspath (cs ++ [name c])) f (user w)) as [u' [err|]] eqn:Ef.
           ++ eexists. split; reflexivity.
           ++ match goal with
              | |- context [rangeEntries _ _ _ _ _ _ ?w1] =>
                  destruct (IH w1 Hrest) as (w2 & Hw2 & Hu2)
              end.
              exists w2. simpl in *. auto.
        -- eexists. split; reflexivity.
      * assert (Emc : matching_child ext cs c = [])
          by (unfold matching_child; now rewrite Edir, Eext).
        rewrite Emc. apply IH. assumption.
Qed.
End Visits.

Section VisitsTotal.
Context `{Gzip} {St : Type}.
Implicit Types (fn : WalkFunc (St := St)) (w : world (St := St)).

Lemma open_listable e :
  listable e = true ->
  exists rd, open e = inl (mkFile e rd (children e)) /\ children e <> [].
Proof.
  unfold listable, open. rewrite andb_true_iff, negb_true_iff. intros [-> Hc].
  split with (x := match buf e with Some b => NewReader b | None => NewReader [] end).
  split; [now destruct (buf e)|]. now destruct (children e).
Qed.

Lemma visits_result_user fn files w1 w res :
  user w1 = user w -> visits_result fn files w1 res -> visits_result fn files w res.
Proof. unfold visits_result. now intros ->. Qed.

Lemma depth_child e c fuel :
  In c (children e) -> IsDir c = true ->
  (depth e <= S fuel)%nat -> (depth c <= fuel)%nat.
Proof.
  rewrite depth_unfold. intros Hin Hdir Hd.
  apply le_S_n in Hd. rewrite list_max_le, Forall_forall in Hd.
  specialize (Hd _ (in_map (fun c => if IsDir c then depth c else 0) _ _ Hin)).
  simpl in Hd. now rewrite Hdir in Hd.
Qed.

Lemma walkDir_visits m ext fn fuel : forall cs e w,
  Forall good cs -> find_loop cs (root m) = Some e ->
  listable e = true -> walkable e = true -> (depth e <= fuel)%nat ->
  visits_result fn (map (pair m) (matching ext cs e)) w
                (walkDir fuel m (abspath cs) ext fn w).
Proof.
  induction fuel as [|fuel IH]; intros cs e w Hcs Hf Hl Hw Hd.
  - rewrite depth_unfold in Hd. lia.
  - cbn [walkDir]. rewrite (Open_abspath m cs e Hcs Hf).
    destruct (open_listable e Hl) as (rd & -> & Hne).
    rewrite Readdir_all by (simpl; assumption || lia). cbn [f_children].
    rewrite matching_unfold.
    rewrite walkable_unfold, !andb_true_iff in Hw. destruct Hw as [[Hu Hg] Hsub].
    rewrite forallb_forall in Hg, Hsub.
    match goal with
    | |- visits_result _ _ _ (rangeEntries _ _ _ _ _ _ ?w1) =>
        apply (visits_result_user fn _ w1 w); [reflexivity|]
    end.
    apply (rangeEntries_visits _ m ext fn cs fuel Hcs).
    + intros c w0 _ Hlc Hwc Hdc Hgc Hfc. apply IH; try assumption.
      apply Forall_app. split; [assumption|now constructor].
    + apply Forall_forall. intros c Hc. split; [|split].
      * apply goodb_good, Hg, Hc.
      * rewrite find_loop_app, Hf. simpl.
        now rewrite (entryWithName_unique _ _ Hu Hc).
      * intros Hdir. specialize (Hsub c Hc). rewrite Hdir in Hsub.
        simpl in Hsub. apply andb_true_iff in Hsub as [Hlc Hwc].
        repeat split; try assumption.
        eapply depth_child; eassumption.
Qed.

Lemma Walk_visits fuel m ext fn w :
  walks_ok fuel m ->
  visits_result fn (visits ext [m]) w (Walk fuel m ext fn w).
Proof.
  intros (Hl & Hw & Hd). unfold visits. simpl. rewrite app_nil_r.
  apply (walkDir_visits m ext fn fuel [] (root m) w); auto.
Qed.

Lemma ModuleList_Walk_visits fuel ext fn l : forall w,
  Forall (walks_ok fuel) l ->
  visits_result fn (visits ext l) w (ModuleList_Walk fuel l ext fn w).
Proof.
  induction l as [|m l IH]; intros w Hl.
  - exists w. simpl. auto.
  - inversion Hl as [|? ? Hm Hrest]; subst.
    destruct (Walk_visits fuel m ext fn w Hm) as (w1 & E1 & U1).
    unfold visits in E1, U1. simpl in E1, U1. rewrite app_nil_r in E1, U1.
    unfold visits_result, visits. cbn [flat_map ModuleList_Walk].
    rewrite E1, visit_all_app.
    match type of U1 with
    | _ = fst ?v => destruct v as [u1 [err|]]
    end; simpl in *.
    + exists w1. auto.
    + subst u1. apply IH. assumption.
Qed.
End VisitsTotal.

Lemma matching_files ext : forall e dir p c,
  In (p, c) (matching ext dir e) -> IsDir c = false /\ Ext (name c) = ext.
Proof.
  intros e. induction e as [e IH] using fileEntry_induction. intros dir p c.
  rewrite matching_unfold, in_flat_map. intros (x & Hx & Hin).
  unfold matching_child in Hin. destruct (IsDir x) eqn:Ed.
  - rewrite Forall_forall in IH. eapply IH; eassumption.
  - destruct (str_eqb (Ext (name x)) ext) eqn:Ee; [|contradiction].
    destruct Hin as [[= <- <-]|[]]. split; [assumption|now apply str_eqb_eq].
Qed.

(** Only files with the wanted extension are visited, never a
    directory. *)
Lemma visits_files ext l m p c :
  In (m, (p, c)) (visits ext l) ->
  In m l /\ IsDir c = false /\ Ext (name c) = ext.
Proof.
  unfold visits. rewrite in_flat_map. intros (x & Hx & Hin).
  apply in_map_iff in Hin as ([p' c'] & [= <- <- <-] & Hin).
  split; [assumption|]. eapply matching_files, Hin.
Qed.

(** ** The walk returns *)

Lemma addressable_unfold e :
  addressable e =
  uniqueb (map name (children e)) &&
  forallb (fun c => goodb (name c)) (children e) &&
  forallb (fun c => negb (IsDir c) || addressable c) (children e).
Proof.
  destruct e as [b g n m t ch]. reflexivity.
Qed.

Lemma addressable_child e c :
  addressable e = true -> In c (children e) ->
  good (name c) /\ entryWithName (children e) (name c) = Some c /\
  (IsDir c = true -> addressable c = true).
Proof.
  rewrite addressable_unfold. intros Hw Hin.
  apply andb_true_iff in Hw as [Hw H3]. apply andb_true_iff in Hw as [H1 H2].
  rewrite forallb_forall in H2, H3. split; [apply goodb_good; now apply H2|].
  split; [now apply entryWithName_unique|].
  intros Hd. specialize (H3 c Hin). now rewrite Hd in H3.
Qed.

Section WalkReturns.
Context `{Gzip} {St : Type}.
Implicit Types (fn : WalkFunc (St := St)) (w : world (St := St)).

(** The loop over the entries of a directory returns when every
    recursive call it makes does. *)
Lemma rangeEntries_returns recurse m ext fn cs :
  Forall good cs ->
  forall fis,
    Forall (fun c => good (name c) /\
                     (IsDir c = true ->
                      forall w, exists x,
                          recurse (abspath (cs ++ [name c])) w = Some x)) fis ->
    forall w, exists x,
        rangeEntries recurse m (abspath cs) ext fn fis w = Some x.
Proof.
  intros Hcs. induction fis as [|fi fis IH]; intros Hall w; simpl; [eauto|].
  inversion Hall as [|? ? [Hg Hrec] Hrest]; subst.
  destruct (IsDir fi) eqn:Hd.
  - rewrite Join_abspath by assumption.
    destruct (Hrec eq_refl w) as [[w1 [e|]] Hx]; rewrite Hx; [eauto|].
    now apply IH.
  - destruct (negb (str_eqb (Ext (name fi)) ext)); [now apply IH|].
    destruct (Open m (Join [abspath cs; name fi])) as [f|err]; [|eauto].
    simpl.
    destruct (fn m (Join [abspath cs; name fi]) f (user w)) as [u [e|]];
      [eauto|]. now apply IH.
Qed.

(** [walkDir] returns on every directory whose tree is addressable and
    no deeper than the bound, whether or not an open, a listing or the
    callback fails. *)
Lemma walkDir_returns m ext fn fuel : forall cs e w,
  Forall good cs -> find_loop cs (root m) = Some e ->
  addressable e = true -> (depth e <= fuel)%nat ->
  exists x, walkDir fuel m (abspath cs) ext fn w = Some x.
Proof.
  induction fuel as [|fuel IH]; intros cs e w Hcs Hf Ha Hd.
  - rewrite depth_unfold in Hd. lia.
  - simpl. rewrite (Open_abspath m cs e Hcs Hf).
    destruct (open e) as [dirf|err] eqn:Ho; [|eauto].
    destruct (open_fresh e dirf Ho) as [_ Hch].
    destruct (children e) as [|c0 ch0] eqn:Ech.
    + rewrite (Readdir_exhausted dirf (-1) Hch). eauto.
    + rewrite Readdir_all by (try lia; rewrite Hch; discriminate).
      rewrite Hch. apply rangeEntries_returns; [assumption|].
      rewrite <- Ech. apply Forall_forall. intros c Hc.
      destruct (addressable_child e c Ha Hc) as (Hg & Hfind & Hsub).
      split; [assumption|]. intros Hdir w1.
      apply (IH (cs ++ [name c]) c).
      * apply Forall_app. split; [assumption|]. now constructor.
      * rewrite find_loop_app, Hf. simpl. now rewrite Hfind.
      * now apply Hsub.
      * eapply depth_child; eassumption.
Qed.

Lemma ModuleList_Walk_returns fuel ext fn l : forall w,
  Forall (returns_ok fuel) l ->
  exists x, ModuleList_Walk fuel l ext fn w = Some x.
Proof.
  induction l as [|m l IH]; intros w Hl; simpl; [eauto|].
  inversion Hl as [|? ? [Ha Hd] Hrest]; subst.
  destruct (walkDir_returns m ext fn fuel [] (root m) w (Forall_nil _)
              eq_refl Ha Hd) as [[w1 [e|]] Hx];
    unfold Walk; change ["/"] with (abspath []); rewrite Hx; [eauto|].
  now apply IH.
Qed.
End WalkReturns.

(** * Properties of the specification *)

(** ** Validation of the library models

    [path.Clean] on rows of the table of Go's own test of the
    function. *)
Example Clean_table :
  map (fun s => Clean (go s))
      [""; "abc"; "."; ".."; "../../abc"; "/abc"; "/"; "abc/"; "../";
       "abc//def//ghi"; "//abc//"; "abc/./def"; "abc/def/../ghi/../jkl";
       "/abc/def/../../.."; "abc/def/../../../ghi/jkl/../../../mno"]%string
  = map go
      ["."; "abc"; "."; ".."; "../../abc"; "/abc"; "/"; "abc"; "..";
       "abc/def/ghi"; "/abc"; "abc/def"; "abc/jkl";
       "/"; "../../mno"]%string.
Proof. reflexivity. Qed.

Example Split_Ext_Join_table :
  Split (go "static/myfile.css") = (go "static/", go "myfile.css") /\
  Split (go "myfile.css") = ([], go "myfile.css") /\
  Ext (go "/css/main.css") = go ".css" /\
  Ext (go "a.b/c") = [] /\
  Join [go "a"; go "b/../c"] = go "a/c" /\
  Join [go "/"; go "a.js"] = go "/a.js" /\
  Join [[]; []] = [].
Proof. repeat split. Qed.

(** The table of [TestFullPathSplit]. *)
Example fullPathSplit_table :
  map (fun s => fullPathSplit (go s))
      ["/"; "//"; "../"; "/a"; "/a/b"; "/a/b/"; "/a/b/../c"; "/a/b/c.ext";
       "//a/b"; "../../a/b"; "a/b"]%string
  = [[]; []; []; [go "a"]; [go "a"; go "b"]; [go "a"; go "b"];
     [go "a"; go "c"]; [go "a"; go "b"; go "c.ext"]; [go "a"; go "b"];
     [go "a"; go "b"]; [go "a"; go "b"]].
Proof. reflexivity. Qed.

(** The example file sets are what their builder calls return. *)
Example examples_built :
  WriteFile (NewFileSet 0 (go "a") []) (go "/a.js") 420 0 (bytes "/* a.js */")
  = Ok test_a /\
  WriteFile (NewFileSet 0 (go "b") [test_a]) (go "/b.js") 420 0
            (bytes "/* b.js */") = Ok test_b /\
  WriteFile (NewFileSet 0 (go "c") [test_a]) (go "/c.js") 420 0
            (bytes "/* c.js */") = Ok test_c /\
  (fs <- Mkdir 0 (NewFileSet 0 (go "d") [test_b; test_c]) (go "/subdir") 493 ;;
   fs <- WriteFile fs (go "/subdir/d1.js") 420 0 (bytes "/* d1.js */") ;;
   WriteFile fs (go "/subdir/d2.js") 420 0 (bytes "/* d2.js */")) = Ok test_d /\
  WriteFile files2 (go "/files/three.js") 420 0 (bytes "3") = Ok threeFiles.
Proof. repeat split. Qed.

(** The three cases of [TestResolve]. *)
Example Resolve_table :
  map Name (Resolve [test_c]) = [go "a"; go "c"] /\
  map Name (Resolve [test_c; test_b]) = [go "a"; go "b"; go "c"] /\
  map Name (Resolve [test_d]) = [go "a"; go "b"; go "c"; go "d"].
Proof. repeat split. Qed.

(** ** C2: path normalisation *)

(** C2.  [fullPathSplit] maps "/", "//" and "../" to the empty
    component sequence, "/a/b/../c" to [a, c], "a/b" to [a, b] and
    "//a/b" to [a, b]; and for every input, normalising the absolute
    path rebuilt from the resulting components gives the same
    components again. *)
Theorem fullPathSplit_idempotent :
  fullPathSplit (go "/") = [] /\
  fullPathSplit (go "//") = [] /\
  fullPathSplit (go "../") = [] /\
  fullPathSplit (go "/a/b/../c") = [go "a"; go "c"] /\
  fullPathSplit (go "a/b") = [go "a"; go "b"] /\
  fullPathSplit (go "//a/b") = [go "a"; go "b"] /\
  forall p, fullPathSplit (abspath (fullPathSplit p)) = fullPathSplit p.
Proof.
  repeat split. intros p.
  rewrite !fullPathSplit_normalize. apply normalize_idem.
Qed.

(** ** C3: incremental directory listing *)

(** C3.  For a handle [f] that [Open] returned: the handle starts with
    the children of the entry it was opened on, and so does every other
    handle opened on the path; whatever sequence of [Readdir] calls is
    made, the entries handed out, in order, followed by the entries
    still held, are exactly these children, and the entry itself is
    untouched; a call with [k > 0] while entries remain returns the
    next [min k remaining] of them without error, hence all that
    remain when [k] is at least their number; a call with [n <= 0] on
    the fresh handle of a directory that has children returns them all;
    and a call on an exhausted cursor returns [EOF]. *)
Theorem Readdir_runs_in_creation_order `{Gzip} fs path f :
  Open fs path = inl f ->
  findEntry fs path = Some (f_fileEntry f) /\
  f_children f = children (f_fileEntry f) /\
  (forall f2, Open fs path = inl f2 ->
              f_children f2 = children (f_fileEntry f)) /\
  (forall counts,
      listed (snd (readdirs f counts)) ++ f_children (fst (readdirs f counts))
      = children (f_fileEntry f) /\
      f_fileEntry (fst (readdirs f counts)) = f_fileEntry f) /\
  (forall g k, (0 < k)%Z -> f_children g <> [] ->
      Readdir g k =
      (mkFile (f_fileEntry g) (f_Reader g) (skipn (Z.to_nat k) (f_children g)),
       inl (firstn (Z.to_nat k) (f_children g))) /\
      firstn (Z.to_nat k) (f_children g) <> []) /\
  (forall g k, (Z.of_nat (length (f_children g)) <= k)%Z ->
      f_children g <> [] ->
      snd (Readdir g k) = inl (f_children g) /\
      f_children (fst (Readdir g k)) = []) /\
  (forall n, (n <= 0)%Z -> children (f_fileEntry f) <> [] ->
      snd (Readdir f n) = inl (children (f_fileEntry f))) /\
  (forall g n, f_children g = [] -> Readdir g n = (g, inr EOF)).
Proof.
  intros Ho. destruct (Open_fresh fs path f Ho) as [Hfind Hch].
  split; [assumption|]. split; [assumption|]. split.
  { intros f2 Ho2. rewrite Ho in Ho2. now injection Ho2 as <-. }
  split.
  { intros counts. rewrite <- Hch. split;
      [apply readdirs_partition|apply readdirs_frame]. }
  split; [apply Readdir_positive|]. split.
  { intros g k Hk Hne.
    assert (Hpos : (0 < k)%Z) by (destruct (f_children g); [congruence|simpl in Hk; lia]).
    destruct (Readdir_positive g k Hpos Hne) as [-> _]. simpl.
    rewrite firstn_all2, skipn_all2 by lia. auto. }
  split.
  { intros n Hn Hne. rewrite <- Hch in *. now rewrite Readdir_all. }
  apply Readdir_exhausted.
Qed.

Lemma Readdir_runs_in_creation_order_witness :
  exists f,
    Open (H := rejectAll) threeFiles (go "/files") = inl f /\
    map name (f_children f) = [go "one.js"; go "two.js"; go "three.js"] /\
    map name (listed (snd (readdirs f [2; 2; 2]%Z))) =
      [go "one.js"; go "two.js"; go "three.js"] /\
    f_children f = children (f_fileEntry f).
Proof.
  eexists. split; [reflexivity|]. split; [reflexivity|]. split; [reflexivity|].
  refine (proj1 (proj2 (Readdir_runs_in_creation_order (H := rejectAll)
                          threeFiles (go "/files") _ _))).
  reflexivity.
Defined.

(** ** C1: the resolver *)

(** C1.  For every collection [r] of modules in which names identify
    modules (the requires-graph is acyclic by the type of modules):
    no name occurs twice in [Resolve r]; its members are exactly the
    modules reachable from [r] through requirements; every direct or
    transitive requirement of a member stands at a strictly smaller
    index than the member; and every permutation of [r] resolves to
    the same sequence. *)
Theorem Resolve_dependency_order r :
  consistent (closure r) ->
  NoDup (map Name (Resolve r)) /\
  (forall x, In x (Resolve r) <-> In x (closure r)) /\
  (forall i x d, nth_error (Resolve r) i = Some x -> In d (deps x) ->
                 exists j, (j < i)%nat /\ nth_error (Resolve r) j = Some d) /\
  (forall r', Permutation r r' -> Resolve r' = Resolve r).
Proof. apply Resolve_sound. Qed.

Lemma consistent_test_modules : consistent (closure [test_d]).
Proof.
  intros x y Hx Hy. simpl in Hx, Hy.
  repeat (destruct Hx as [<-|Hx]; [|]); try contradiction;
    repeat (destruct Hy as [<-|Hy]; [|]); try contradiction;
    intros E; try reflexivity; discriminate E.
Qed.

Lemma Resolve_dependency_order_witness :
  consistent (closure [test_d]) /\
  map Name (Resolve [test_d]) = [go "a"; go "b"; go "c"; go "d"] /\
  NoDup (map Name (Resolve [test_d])).
Proof.
  split; [exact consistent_test_modules|]. split; [reflexivity|].
  exact (proj1 (Resolve_dependency_order [test_d] consistent_test_modules)).
Defined.

(** ** C7: resolving twice *)

(** C7, as stated, fails: [m] and [n] are given, [n] requires [a];
    the resolved sequence is [m, a, n], and resolving it again yields
    [a, m, n]. *)
Lemma Resolve_not_idempotent :
  Resolve [mod_m; mod_n] = [mod_m; mod_a; mod_n] /\
  Resolve (Resolve [mod_m; mod_n]) = [mod_a; mod_m; mod_n] /\
  Resolve (Resolve [mod_m; mod_n]) <> Resolve [mod_m; mod_n].
Proof.
  repeat split; try reflexivity.
  intros E. apply (f_equal (map Name)) in E. vm_compute in E. discriminate E.
Qed.

(** C7, amended.  When names identify modules, resolving an already
    resolved sequence returns the same modules, possibly in another
    order, again with every requirement before the module that
    requires it; and one more application changes nothing. *)
Theorem Resolve_twice_stable ms :
  consistent (closure ms) ->
  Permutation (Resolve (Resolve ms)) (Resolve ms) /\
  (forall i x d, nth_error (Resolve (Resolve ms)) i = Some x ->
                 In d (deps x) ->
                 exists j, (j < i)%nat /\
                           nth_error (Resolve (Resolve ms)) j = Some d) /\
  Resolve (Resolve (Resolve ms)) = Resolve (Resolve ms).
Proof.
  intros HU.
  pose proof (closure_Resolve ms HU) as Hcl.
  pose proof (consistent_Resolve ms HU) as HU'.
  destruct (Resolve_sound ms HU) as (Hnd & Hmem & _).
  destruct (Resolve_sound (Resolve ms) HU') as (Hnd' & Hmem' & Hord & Hperm).
  assert (Hp : Permutation (Resolve (Resolve ms)) (Resolve ms)).
  { apply NoDup_Permutation.
    - eapply NoDup_map_inv, Hnd'.
    - eapply NoDup_map_inv, Hnd.
    - intros x. rewrite Hmem', Hcl, Hmem. reflexivity. }
  split; [assumption|]. split; [assumption|].
  apply Hperm. now symmetry.
Qed.

Lemma consistent_m_n : consistent (closure [mod_m; mod_n]).
Proof.
  intros x y Hx Hy. simpl in Hx, Hy.
  repeat (destruct Hx as [<-|Hx]; [|]); try contradiction;
    repeat (destruct Hy as [<-|Hy]; [|]); try contradiction;
    intros E; try reflexivity; discriminate E.
Qed.

Lemma Resolve_twice_stable_witness :
  consistent (closure [mod_m; mod_n]) /\
  Resolve (Resolve (Resolve [mod_m; mod_n])) = Resolve (Resolve [mod_m; mod_n]).
Proof.
  split; [exact consistent_m_n|].
  exact (proj2 (proj2 (Resolve_twice_stable [mod_m; mod_n] consistent_m_n))).
Defined.

(** ** C4: round trip of file contents *)

(** C4 at the path "/": [WriteFile] and [WriteGzipFile] are documented
    to panic when the entry exists, and the root does; yet neither
    panics.  They store the bytes in an entry with the empty name
    below the root, and [Open] of the same path yields the root, which
    reads as empty. *)
Theorem WriteFile_root_path_lost :
  forall G : Gzip,
  exists fs1 fs2 f1 f2 rd1 rd2,
    WriteFile demo (go "/") 420 0 (bytes "x") = Ok fs1 /\
    map name (children (root fs1)) = [[]] /\
    Open fs1 (go "/") = inl f1 /\ f_fileEntry f1 = root fs1 /\
    ReadAll 512 (f_Reader f1) = Some (rd1, [], None) /\
    WriteGzipFile demo (go "/") 420 0 gzipOfEmpty = Ok fs2 /\
    Open fs2 (go "/") = inl f2 /\ f_fileEntry f2 = root fs2 /\
    ReadAll 512 (f_Reader f2) = Some (rd2, [], None).
Proof.
  intros G. do 6 eexists. repeat split; reflexivity.
Qed.

(** ** C5: creating directories *)

(** C5 where it fails.  [MkdirAll] does not look at what kind of entry
    is in its way: below the file "/f" it creates the directory "x",
    and the file keeps saying it is no directory.  [Mkdir] of "/",
    which has an entry, does not panic: it adds a directory with the
    empty name to the root (and a second call panics). *)
Theorem MkdirAll_through_a_file :
  exists fs1 fs2 f x fs3 pn,
    WriteFile demo (go "/f") 420 0 (bytes "x") = Ok fs1 /\
    MkdirAll (fun _ => 0%Z) fs1 (go "/f/x") 493 = Ok fs2 /\
    findEntry fs2 (go "/f") = Some f /\ IsDir f = false /\
    findEntry fs2 (go "/f/x") = Some x /\ IsDir x = true /\
    children f = [x] /\
    findEntry demo (go "/") = Some (root demo) /\
    Mkdir 0 demo (go "/") 493 = Ok fs3 /\
    map name (children (root fs3)) = [[]] /\
    Mkdir 0 fs3 (go "/") 493 = Panic pn.
Proof.
  do 6 eexists. repeat split; reflexivity.
Qed.

(** ** C6: size of an entry *)

(** C6 where it fails.  A file written with [WriteGzipFile] reports the
    length of the stored, compressed bytes: 23 for the gzip encoding of
    the empty content, whatever the codec decodes it to.  The size of
    a plain file and of a directory made by [Mkdir] are as stated; the
    size of the root is a nil dereference. *)
Theorem Size_reports_stored_length :
  exists fs e p d,
    (fs0 <- Mkdir 0 demo (go "/dir") 493 ;;
     fs1 <- WriteFile fs0 (go "/plain.txt") 420 0 (bytes "four") ;;
     WriteGzipFile fs1 (go "/empty.gz") 420 0 gzipOfEmpty) = Ok fs /\
    findEntry fs (go "/empty.gz") = Some e /\
    gzipped e = true /\ buf e = Some gzipOfEmpty /\
    Size (fst (Stat e)) = Ok 23%Z /\
    findEntry fs (go "/plain.txt") = Some p /\ Size (fst (Stat p)) = Ok 4%Z /\
    findEntry fs (go "/dir") = Some d /\ Size (fst (Stat d)) = Ok 0%Z /\
    Size (fst (Stat (root fs))) = Panic NilDereference.
Proof.
  do 4 eexists. repeat split; reflexivity.
Qed.

(** ** C10: buffers *)

(** C10.  In every file set the builder API can produce, every entry
    below the root has a buffer, so [Size] returns on it; the root has
    none, so [Size] on the root, also through the handle [Open]
    returns for "/", is a nil dereference. *)
Theorem built_entries_have_buffers fs :
  built fs ->
  (forall e, In e (descendants (root fs)) -> exists n, Size e = Ok n) /\
  buf (root fs) = None /\
  Size (root fs) = Panic NilDereference /\
  (forall G : Gzip, exists f,
      Open fs (go "/") = inl f /\ f_fileEntry f = root fs /\
      Size (fst (Stat (f_fileEntry f))) = Panic NilDereference).
Proof.
  intros Hb. destruct (built_buffers fs Hb) as [Hall Hroot].
  assert (Hsize : Size (root fs) = Panic NilDereference)
    by (unfold Size; now rewrite Hroot).
  repeat split; try assumption.
  - intros e He. unfold buffered in Hall. rewrite Forall_forall in Hall.
    specialize (Hall e He). unfold has_buf in Hall. unfold Size.
    destruct (buf e); [eauto|congruence].
  - intros G. unfold Open. rewrite findEntry_normalize.
    change (normalize (go "/")) with (@nil gostring). simpl.
    unfold open. rewrite Hroot. eexists. repeat split. simpl. exact Hsize.
Qed.

Lemma built_threeFiles : built threeFiles.
Proof.
  apply (built_WriteFile files2 (go "/files/three.js") 420 0 (bytes "3"));
    [|reflexivity].
  apply (built_WriteFile files1 (go "/files/two.js") 420 0 (bytes "2"));
    [|reflexivity].
  apply (built_WriteFile files0 (go "/files/one.js") 420 0 (bytes "1"));
    [|reflexivity].
  apply (built_Mkdir 0 demo (go "/files") 493); [|reflexivity].
  apply built_NewFileSet.
Qed.

Lemma built_entries_have_buffers_witness :
  built threeFiles /\
  length (descendants (root threeFiles)) = 4%nat /\
  Size (root threeFiles) = Panic NilDereference.
Proof.
  split; [exact built_threeFiles|]. split; [reflexivity|].
  exact (proj1 (proj2 (proj2
           (built_entries_have_buffers threeFiles built_threeFiles)))).
Defined.

(** ** C8: the walker's errors and handles *)

(** C8.  For every list of modules whose trees are addressable (names
    are proper components and differ among siblings) and no deeper
    than the bound on nested calls, whatever the directories and files
    hold and whatever the callback does: [ModuleList.Walk] returns.
    The trace it adds consists of complete blocks (a directory opened,
    listed and closed; a file opened, visited and closed), and when an
    error is returned the last block is the one operation that failed
    (an open, a listing or a call of the callback), with that very
    error, its handle closed, and nothing after it; when nil is
    returned no operation of the trace failed.  The modules are walked
    in the order of the list, a run over [l1 ++ l2] being the run over
    [l1] followed, when that returned no error, by the run over [l2];
    and a returned error is the error of the walk of one module,
    before which all earlier modules were walked without error. *)
Theorem ModuleList_Walk_returns_first_error `{Gzip} {St : Type} fuel l ext
        (fn : WalkFunc (St := St)) w :
  Forall (returns_ok fuel) l ->
  exists w' r,
    ModuleList_Walk fuel l ext fn w = Some (w', r) /\
    (exists added, log w' = log w ++ added /\ trace_shape r added) /\
    (forall l1 l2, l = l1 ++ l2 ->
       match ModuleList_Walk fuel l1 ext fn w with
       | Some (w1, None) => ModuleList_Walk fuel l2 ext fn w1 = Some (w', r)
       | other => other = Some (w', r)
       end) /\
    (forall err, r = Some err ->
       exists l1 m l2 w1,
         l = l1 ++ m :: l2 /\
         ModuleList_Walk fuel l1 ext fn w = Some (w1, None) /\
         Walk fuel m ext fn w1 = Some (w', Some err)).
Proof.
  intros Hl.
  destruct (ModuleList_Walk_returns fuel ext fn l w Hl) as [[w' r] Hr].
  exists w', r. split; [exact Hr|]. repeat split.
  - eapply ModuleList_Walk_shape, Hr.
  - intros l1 l2 ->. rewrite ModuleList_Walk_app in Hr.
    now destruct (ModuleList_Walk fuel l1 ext fn w) as [[w1 [e|]]|].
  - intros err ->. now apply ModuleList_Walk_error.
Qed.

Lemma ModuleList_Walk_returns_first_error_witness :
  Forall (returns_ok 2) [test_a; test_b; test_c; test_d] /\
  exists w' r,
    ModuleList_Walk (H := rejectAll) 2 [test_a; test_b; test_c; test_d] (go ".js")
      (failingVisitor (go "/b.js")) (mkWorld [] 0%nat) = Some (w', r) /\
    r = Some (ErrVisit 1) /\
    visited (log w') = [go "/a.js"; go "/b.js"] /\
    exists added, log w' = [] ++ added /\ trace_shape r added.
Proof.
  assert (Hok : Forall (returns_ok 2) [test_a; test_b; test_c; test_d]).
  { repeat apply Forall_cons; try apply Forall_nil;
      (split; [reflexivity|apply Nat.leb_le; reflexivity]). }
  split; [exact Hok|].
  destruct (ModuleList_Walk_returns_first_error (H := rejectAll) 2
              [test_a; test_b; test_c; test_d] (go ".js")
              (failingVisitor (go "/b.js")) (mkWorld [] 0%nat) Hok)
    as (w' & r & Hrun & Hshape & _).
  exists w', r. split; [exact Hrun|].
  assert (E : ModuleList_Walk (H := rejectAll) 2 [test_a; test_b; test_c; test_d]
                (go ".js") (failingVisitor (go "/b.js")) (mkWorld [] 0%nat)
              = Some (mkWorld (log w') (user w'), Some (ErrVisit 1)) /\
              visited (log w') = [go "/a.js"; go "/b.js"]).
  { rewrite Hrun. vm_compute in Hrun. injection Hrun as <- <-.
    split; reflexivity. }
  destruct E as [E1 E2]. rewrite Hrun in E1. injection E1 as _ ->.
  split; [reflexivity|]. split; [exact E2|exact Hshape].
Defined.

(** A walk that meets a file whose payload does not decode, and one
    that meets an empty directory: both return the error, the first
    after the visit of the file before. *)
Example Walk_returns_the_failure :
  returns_ok 2 gzDemo /\
  option_map (fun x => (visited (log (fst x)), user (fst x), snd x))
    (Walk (H := stripHeader) 2 gzDemo (go ".gz") concatVisitor (mkWorld [] []))
  = Some ([go "/good.gz"], bytes "raw", Some (ErrGzip 1)) /\
  returns_ok 4 deepDirs /\
  option_map (fun x => (visited (log (fst x)), user (fst x), snd x))
    (Walk (H := rejectAll) 4 deepDirs (go ".js") concatVisitor (mkWorld [] []))
  = Some ([], [], Some EOF).
Proof.
  split; [split; [reflexivity|apply Nat.leb_le; reflexivity]|].
  split; [vm_compute; reflexivity|].
  split; [split; [reflexivity|apply Nat.leb_le; reflexivity]|].
  vm_compute. reflexivity.
Qed.

(** ** C9: what the walker visits, and in which order *)

(** C9, as stated, fails: the directory "/sub" was created before the
    file "/a.js", and the file inside the directory is visited first;
    the concatenation is "XA". *)
Lemma Walk_directory_before_root_file :
  exists fs w',
    dirFirst = Ok fs /\
    Walk (H := rejectAll) 2 fs (go ".js") concatVisitor (mkWorld [] [])
    = Some (w', None) /\
    visited (log w') = [go "/sub/x.js"; go "/a.js"] /\
    user w' = bytes "XA".
Proof. do 2 eexists. repeat split; vm_compute; reflexivity. Qed.

(** C9, amended.  When in every module of the list entries are
    addressable by their paths and every directory can be listed (it
    opens and is not empty), and [fuel] bounds the depth of the trees:
    the walk returns, and what it did to the callback's state and what
    it returned is what calling the callback on the files [visits ext
    l] does, in that order, with the module, the path and a fresh
    handle of the file, stopping at the first open or call that fails.
    [visits] lists the modules in the order of the list and, within a
    module, the tree depth-first with the children of every directory
    in the order of its list, the files of a directory at the
    directory's place among its siblings; it holds only entries that
    are no directories and whose extension equals the filter
    exactly. *)
Theorem Walk_visits_in_creation_order `{Gzip} {St : Type} fuel l ext
        (fn : WalkFunc (St := St)) w :
  Forall (walks_ok fuel) l ->
  visits_result fn (visits ext l) w (ModuleList_Walk fuel l ext fn w) /\
  (forall m, In m l ->
             visits_result fn (visits ext [m]) w (Walk fuel m ext fn w)) /\
  (forall m p c, In (m, (p, c)) (visits ext l) ->
                 In m l /\ IsDir c = false /\ Ext (name c) = ext).
Proof.
  intros Hl. split; [now apply ModuleList_Walk_visits|]. split.
  - intros m Hm. apply Walk_visits. rewrite Forall_forall in Hl. auto.
  - apply visits_files.
Qed.

Lemma Walk_visits_in_creation_order_witness :
  Forall (walks_ok 2) [test_a; test_b; test_c; test_d] /\
  map (fun v => fst (snd v)) (visits (go ".js") [test_a; test_b; test_c; test_d])
  = [go "/a.js"; go "/b.js"; go "/c.js"; go "/subdir/d1.js"; go "/subdir/d2.js"] /\
  visits_result (H := rejectAll) concatVisitor
    (visits (go ".js") [test_a; test_b; test_c; test_d]) (mkWorld [] [])
    (ModuleList_Walk (H := rejectAll) 2 [test_a; test_b; test_c; test_d]
       (go ".js") concatVisitor (mkWorld [] [])).
Proof.
  assert (Hok : Forall (walks_ok 2) [test_a; test_b; test_c; test_d]).
  { repeat apply Forall_cons; try apply Forall_nil;
      (split; [reflexivity|split; [reflexivity|apply Nat.leb_le; reflexivity]]). }
  split; [exact Hok|]. split; [reflexivity|].
  exact (proj1 (Walk_visits_in_creation_order (H := rejectAll) 2
                  [test_a; test_b; test_c; test_d] (go ".js") concatVisitor
                  (mkWorld [] []) Hok)).
Defined.

(** The scenario of [TestWalk]: the concatenation over the resolved
    modules. *)
Example TestWalk_concatenation :
  exists w',
    ModuleList_Walk (H := rejectAll) 2 (Resolve [test_d]) (go ".js")
      concatVisitor (mkWorld [] []) = Some (w', None) /\
    user w' = bytes "/* a.js *//* b.js *//* c.js *//* d1.js *//* d2.js */".
Proof. eexists. split; vm_compute; reflexivity. Qed.

(** An empty directory ends the walk: [Readdir(-1)] on it returns
    [EOF], [walkDir] returns that as an error, and the file created
    after the directory is not visited. *)
Example Walk_empty_directory :
  exists fs w',
    (fs0 <- Mkdir 0 demo (go "/empty") 493 ;;
     WriteFile fs0 (go "/a.js") 420 0 (bytes "A")) = Ok fs /\
    Walk (H := rejectAll) 2 fs (go ".js") concatVisitor (mkWorld [] [])
    = Some (w', Some EOF) /\
    visited (log w') = [] /\ user w' = [].
Proof. do 2 eexists. repeat split; vm_compute; reflexivity. Qed.

(** * Further facts *)

(** ** Names and the sanity check of [newFileEntry] *)

Lemma LastIndexByte_In s c : In c s -> (0 <= LastIndexByte s c)%Z.
Proof.
  induction s as [|x t IH]; simpl; [contradiction|].
  intros [->|Hin].
  - destruct (0 <=? LastIndexByte t c)%Z eqn:E.
    + apply Z.leb_le in E. lia.
    + rewrite Ascii.eqb_refl. lia.
  - specialize (IH Hin). apply Z.leb_le in IH as E. rewrite E. lia.
Qed.

Lemma LastIndexByte_bound s c : (LastIndexByte s c < Z.of_nat (length s))%Z.
Proof.
  induction s as [|x t IH]; simpl length; simpl LastIndexByte; [lia|].
  destruct (0 <=? LastIndexByte t c)%Z; [lia|].
  destruct (x =? c); lia.
Qed.

Lemma Split_slash nm :
  In "/" nm -> fst (Split nm) <> [].
Proof.
  intros Hin. unfold Split. simpl.
  pose proof (LastIndexByte_In nm "/" Hin) as H0.
  destruct nm as [|x t]; [contradiction|].
  replace (Z.to_nat (LastIndexByte (x :: t) "/" + 1))
    with (S (Z.to_nat (LastIndexByte (x :: t) "/"))) by lia.
  simpl. discriminate.
Qed.

Lemma newFileEntry_slash nm b md mt :
  In "/" nm -> newFileEntry nm b md mt = Panic (InvalidName nm).
Proof.
  intros Hin. unfold newFileEntry.
  pose proof (Split_slash nm Hin) as Hd.
  destruct (Split nm) as [d n]. simpl in Hd.
  apply str_eqb_neq in Hd. now rewrite Hd.
Qed.

(** ** Outcomes of [Mkdir] and [writeFile] *)

Lemma findEntry_dir_of fs p :
  findEntry fs (dir_of p) = find_loop (parent_parts p) (root fs).
Proof. now rewrite findEntry_normalize, normalize_dir_of. Qed.

Lemma find_modify_append fs p e dire :
  find_loop (parent_parts p) (root fs) = Some dire ->
  findEntry
    (set_root fs (modifyEntry (parent_parts p)
                    (fun d => set_children d (children d ++ [e])) (root fs)))
    (dir_of p)
  = Some (set_children dire (children dire ++ [e])).
Proof.
  intros Hf. rewrite findEntry_dir_of. simpl.
  now apply (find_modify (parent_parts p)
               (fun d => set_children d (children d ++ [e]))).
Qed.

(** ** Entries persist *)

Lemma same_entry_refl e : same_entry e e.
Proof. now repeat split. Qed.

Lemma same_entry_trans a b c : same_entry a b -> same_entry b c -> same_entry a c.
Proof.
  unfold same_entry. intros (A1 & A2 & A3 & A4 & A5) (B1 & B2 & B3 & B4 & B5).
  repeat split; congruence.
Qed.

Lemma keeps_refl e : keeps e e.
Proof. intros parts d Hf. exists d. split; [assumption|apply same_entry_refl]. Qed.

Lemma keeps_trans a b c : keeps a b -> keeps b c -> keeps a c.
Proof.
  intros Hab Hbc parts d Hf.
  destruct (Hab parts d Hf) as (d1 & Hf1 & S1).
  destruct (Hbc parts d1 Hf1) as (d2 & Hf2 & S2).
  exists d2. split; [assumption|]. eapply same_entry_trans; eassumption.
Qed.

(** A change of the children of [e] that keeps what each name led to. *)
Lemma keeps_children e ch :
  (forall nm c, entryWithName (children e) nm = Some c ->
                exists c', entryWithName ch nm = Some c' /\ keeps c c') ->
  keeps e (set_children e ch).
Proof.
  intros Hch [|n q] d; simpl.
  - intros [= <-]. eexists. split; [reflexivity|]. now repeat split.
  - destruct (entryWithName (children e) n) as [c|] eqn:E; [|discriminate].
    intros Hf. destruct (Hch n c E) as (c' & -> & Hk). now apply Hk.
Qed.

Lemma keeps_append e x :
  keeps e (set_children e (children e ++ [x])).
Proof.
  apply keeps_children. intros nm c E. exists c.
  rewrite entryWithName_app, E. split; [reflexivity|apply keeps_refl].
Qed.

Lemma same_entry_name e e' : same_entry e e' -> name e' = name e.
Proof. now intros (_ & _ & H & _). Qed.

Lemma keeps_name e e' : keeps e e' -> name e' = name e.
Proof.
  intros Hk. destruct (Hk [] e eq_refl) as (d' & Hf & Hs).
  simpl in Hf. injection Hf as <-. now apply same_entry_name.
Qed.

Lemma keeps_replace e nm g :
  (forall c, entryWithName (children e) nm = Some c -> keeps c (g c)) ->
  keeps e (set_children e (replaceChild (children e) nm g)).
Proof.
  intros Hg. apply keeps_children. intros n c E.
  destruct (str_eqb nm n) eqn:En.
  - apply str_eqb_eq in En. subst n.
    exists (g c). split; [|now apply Hg].
    apply entryWithName_replace; [assumption|].
    rewrite (keeps_name _ _ (Hg c E)). now apply entryWithName_name in E.
  - exists c. split; [|apply keeps_refl].
    revert E. induction (children e) as [|x t IH]; simpl; [discriminate|].
    destruct (str_eqb (name x) nm) eqn:Ex.
    + apply str_eqb_eq in Ex. simpl.
      destruct (str_eqb (name x) n) eqn:Exn.
      * apply str_eqb_eq in Exn. apply str_eqb_neq in En. congruence.
      * assert (Exg : str_eqb (name (g x)) n = false).
        { destruct (str_eqb (name (g x)) n) eqn:Q; [|reflexivity].
          exfalso. clear IH.
          (* [g x] is only known to keep its name when [x] is the child found *)
          apply str_eqb_eq in Q. apply str_eqb_neq in Exn. apply Exn.
          rewrite <- Q. symmetry. apply keeps_name, Hg.
          simpl. rewrite <- Ex, str_eqb_refl. reflexivity. }
        now rewrite Exg.
    + simpl. destruct (str_eqb (name x) n); [trivial|].
      apply IH. intros c0 E0. apply Hg. simpl. now rewrite Ex.
Qed.

Lemma keeps_modify parts f : forall e,
  (forall d, keeps d (f d)) -> keeps e (modifyEntry parts f e).
Proof.
  induction parts as [|a ps IH]; intros e Hf; simpl; [apply Hf|].
  apply keeps_replace. intros c _. now apply IH.
Qed.

Lemma keeps_addEntry fs p mk fs' :
  addEntry fs p mk = Ok fs' -> keeps (root fs) (root fs').
Proof.
  intros Ha. apply addEntry_find in Ha as (dire & e & _ & _ & _ & _ & -> & _).
  simpl. apply keeps_modify. intros d. apply keeps_append.
Qed.

Lemma keeps_mkdirAll clock md parts : forall i e e',
  mkdirAll_loop clock md i parts e = Ok e' -> keeps e e'.
Proof.
  induction parts as [|p ps IH]; intros i e e'; simpl.
  - intros [= <-]. apply keeps_refl.
  - destruct (entryWithName (children e) p) as [sube|] eqn:E.
    + destruct (mkdirAll_loop clock md (S i) ps sube) as [s'|] eqn:El;
        simpl; [|discriminate].
      intros [= <-]. apply keeps_replace. intros c Ec.
      rewrite E in Ec. injection Ec as <-. eapply IH, El.
    + destruct (newFileEntry p [] (mode_or md ModeDir) (clock i)) as [n|];
        simpl; [|discriminate].
      destruct (mkdirAll_loop clock md (S i) ps n) as [s'|]; simpl; [|discriminate].
      intros [= <-]. apply keeps_append.
Qed.

Lemma keeps_MkdirAll clock fs p md fs' :
  MkdirAll clock fs p md = Ok fs' -> keeps (root fs) (root fs').
Proof.
  unfold MkdirAll.
  destruct (mkdirAll_loop clock md 0 (fullPathSplit p) (root fs)) as [e'|] eqn:E;
    simpl; [|discriminate].
  intros [= <-]. simpl. eapply keeps_mkdirAll, E.
Qed.

Lemma builds_to_keeps fs fs' : builds_to fs fs' -> keeps (root fs) (root fs').
Proof.
  induction 1 as [|? ? ? ? ? _ IH Hc|? ? ? ? ? _ IH Hc
                  |? ? ? ? ? ? _ IH Hc|? ? ? ? ? ? _ IH Hc].
  - apply keeps_refl.
  - eapply keeps_trans; [exact IH|]. eapply keeps_addEntry, Hc.
  - eapply keeps_trans; [exact IH|]. eapply keeps_MkdirAll, Hc.
  - eapply keeps_trans; [exact IH|]. eapply keeps_addEntry, Hc.
  - eapply keeps_trans; [exact IH|]. eapply keeps_addEntry, Hc.
Qed.

Lemma builds_to_names fs fs' :
  builds_to fs fs' -> Name fs' = Name fs /\ Requires fs' = Requires fs.
Proof.
  induction 1 as [|? ? ? ? ? _ IH Hc|? ? ? ? ? _ IH Hc
                  |? ? ? ? ? ? _ IH Hc|? ? ? ? ? ? _ IH Hc];
    [now split| | | |].
  - apply addEntry_find in Hc as (dire & e & _ & _ & _ & _ & -> & _). exact IH.
  - unfold MkdirAll in Hc.
    destruct (mkdirAll_loop clock md 0 (fullPathSplit p) (root fs1)); [|discriminate].
    simpl in Hc. injection Hc as <-. exact IH.
  - apply addEntry_find in Hc as (dire & e & _ & _ & _ & _ & -> & _). exact IH.
  - apply addEntry_find in Hc as (dire & e & _ & _ & _ & _ & -> & _). exact IH.
Qed.

(** ** What the new entry looks like *)

Lemma addEntry_findEntry fs p mk fs' e :
  addEntry fs p mk = Ok fs' -> normalize p <> [] ->
  mk (base_of p) = Ok e -> name e = base_of p ->
  findEntry fs' p = Some e.
Proof.
  intros Ha Hne Hmk Hn.
  apply addEntry_find in Ha as (dire & e0 & Hf & Hd & Hb & Hmk0 & -> & Hf').
  rewrite Hmk in Hmk0. injection Hmk0 as <-.
  rewrite findEntry_normalize, (parts_snoc p Hne), find_loop_app, Hf'.
  simpl. rewrite entryWithName_app, Hb. simpl.
  now rewrite Hn, str_eqb_refl.
Qed.

Lemma Mkdir_findEntry now fs p md fs' :
  Mkdir now fs p md = Ok fs' -> normalize p <> [] ->
  findEntry fs' p =
  Some (mkFileEntry (Some []) false (base_of p) (mode_or md ModeDir) now []).
Proof.
  intros Hm Hne. unfold Mkdir in Hm.
  eapply addEntry_findEntry; [exact Hm|assumption| |reflexivity].
  cbv beta. now rewrite newFileEntry_ok by apply base_of_slashfree.
Qed.

(** ** Sibling names *)

Lemma entryWithName_None l nm :
  entryWithName l nm = None <-> ~ In nm (map name l).
Proof.
  induction l as [|x t IH]; simpl; [tauto|].
  destruct (str_eqb (name x) nm) eqn:E.
  - apply str_eqb_eq in E. split; [discriminate|]. intros H. exfalso. auto.
  - apply str_eqb_neq in E. rewrite IH. tauto.
Qed.

Lemma tidy_unfold e :
  tidy e <->
  NoDup (map name (children e)) /\
  Forall (fun c => okname (name c)) (children e) /\
  Forall tidy (children e).
Proof.
  destruct e as [b g n m t ch]. simpl.
  assert (E : forall l,
             (fix all (l : fileEntryList) : Prop :=
                match l with
                | [] => True
                | c :: t => tidy c /\ all t
                end) l <-> Forall tidy l).
  { induction l as [|c l IH]; [split; auto|].
    rewrite IH. split.
    - intros [H1 H2]. now constructor.
    - intros H. inversion H. now split. }
  now rewrite E.
Qed.

Lemma replaceChild_names l nm g :
  (forall c, entryWithName l nm = Some c -> name (g c) = name c) ->
  map name (replaceChild l nm g) = map name l.
Proof.
  induction l as [|x t IH]; simpl; [reflexivity|]. intros Hg.
  destruct (str_eqb (name x) nm) eqn:E; simpl.
  - now rewrite Hg.
  - now rewrite IH.
Qed.

Lemma replaceChild_Forall_found (Q : fileEntry -> Prop) l nm g :
  Forall Q l -> (forall c, entryWithName l nm = Some c -> Q c -> Q (g c)) ->
  Forall Q (replaceChild l nm g).
Proof.
  induction l as [|x t IH]; simpl; intros Hl Hg; [constructor|].
  inversion Hl; subst.
  destruct (str_eqb (name x) nm) eqn:E.
  - constructor; [now apply Hg|assumption].
  - constructor; [assumption|]. now apply IH.
Qed.

Lemma tidy_replace e nm g :
  tidy e ->
  (forall c, entryWithName (children e) nm = Some c ->
             name (g c) = name c /\ (tidy c -> tidy (g c))) ->
  tidy (set_children e (replaceChild (children e) nm g)).
Proof.
  rewrite !tidy_unfold. simpl. intros (Hnd & Hok & Hch) Hg.
  rewrite replaceChild_names by (intros c Hc; now apply Hg).
  split; [assumption|]. split.
  - apply replaceChild_Forall_found; [assumption|].
    intros c Hc Hq. destruct (Hg c Hc) as [-> _]. exact Hq.
  - apply replaceChild_Forall_found; [assumption|].
    intros c Hc. now apply Hg.
Qed.

Lemma tidy_append e x :
  tidy e -> tidy x -> okname (name x) ->
  entryWithName (children e) (name x) = None ->
  tidy (set_children e (children e ++ [x])).
Proof.
  rewrite !tidy_unfold. simpl. intros (Hnd & Hok & Hch) Hx Hn Hfree.
  apply entryWithName_None in Hfree.
  split; [|split].
  - rewrite map_app. simpl. apply NoDup_app_remove_l with (l := []).
    simpl. apply Permutation_NoDup with (l := name x :: map name (children e)).
    + apply Permutation_cons_append.
    + now constructor.
  - apply Forall_app. split; [assumption|]. now constructor.
  - apply Forall_app. split; [assumption|]. constructor; [|constructor].
    now apply tidy_unfold.
Qed.

Lemma tidy_leaf b g n m t : tidy (mkFileEntry b g n m t []).
Proof. simpl. repeat split; constructor. Qed.

Lemma tidy_modify parts f : forall e d,
  find_loop parts e = Some d ->
  (forall x, name (f x) = name x) -> (tidy d -> tidy (f d)) ->
  tidy e -> tidy (modifyEntry parts f e).
Proof.
  induction parts as [|a ps IH]; intros e d; simpl.
  - intros [= <-] _ Hf. exact Hf.
  - destruct (entryWithName (children e) a) as [c|] eqn:E; [|discriminate].
    intros Hfind Hn Hf Ht. apply tidy_replace; [assumption|].
    intros c0 Hc0. rewrite E in Hc0. injection Hc0 as <-. split.
    + now apply modifyEntry_name.
    + intros Hc. now apply (IH c d).
Qed.

Lemma base_of_okname p : okname (base_of p).
Proof.
  unfold base_of, okname.
  destruct (normalize_cases p) as [->|(cs & c & -> & _ & Hc)]; [now left|].
  rewrite last_last. now right.
Qed.

Lemma tidy_addEntry fs p mk fs' :
  (forall nm e, mk nm = Ok e -> name e = nm /\ tidy e) ->
  addEntry fs p mk = Ok fs' -> tidy (root fs) -> tidy (root fs').
Proof.
  intros Hmk Ha Ht.
  apply addEntry_find in Ha as (dire & e & Hf & _ & Hb & He & -> & _).
  destruct (Hmk _ _ He) as [Hn Hte]. simpl.
  apply (tidy_modify _ _ _ dire); try assumption.
  - intros x. apply set_children_name.
  - intros Hd. apply tidy_append; try assumption.
    + rewrite Hn. apply base_of_okname.
    + now rewrite Hn.
Qed.

Lemma newFileEntry_tidy nm b md mt e :
  newFileEntry nm b md mt = Ok e -> name e = nm /\ tidy e.
Proof.
  unfold newFileEntry. destruct (Split nm).
  destruct (negb (str_eqb g []) || negb (str_eqb g0 nm)); [discriminate|].
  intros [= <-]. split; [reflexivity|apply tidy_leaf].
Qed.

Lemma tidy_mkdirAll clock md parts : forall i e e',
  Forall good parts ->
  mkdirAll_loop clock md i parts e = Ok e' -> tidy e -> tidy e'.
Proof.
  induction parts as [|p ps IH]; intros i e e' Hg; simpl.
  - now intros [= <-].
  - inversion Hg; subst.
    destruct (entryWithName (children e) p) as [sube|] eqn:E.
    + destruct (mkdirAll_loop clock md (S i) ps sube) as [s'|] eqn:El;
        simpl; [|discriminate].
      intros [= <-] Ht. apply tidy_replace; [assumption|].
      intros c Hc. rewrite E in Hc. injection Hc as <-. split.
      * eapply mkdirAll_name, El.
      * intros Hs. eapply IH; eassumption.
    + destruct (newFileEntry p [] (mode_or md ModeDir) (clock i)) as [n|] eqn:En;
        simpl; [|discriminate].
      destruct (mkdirAll_loop clock md (S i) ps n) as [s'|] eqn:El;
        simpl; [|discriminate].
      intros [= <-] Ht.
      apply newFileEntry_tidy in En as [Hn Htn].
      assert (Hs : name s' = p)
        by (rewrite (mkdirAll_name _ _ _ _ _ _ El); exact Hn).
      apply tidy_append; try assumption.
      * eapply IH; eassumption.
      * rewrite Hs. now right.
      * now rewrite Hs.
Qed.

Lemma built_tidy fs : built fs -> tidy (root fs).
Proof.
  induction 1 as [now nm requires|now fs p md fs' _ IH Hc
                  |clock fs p md fs' _ IH Hc
                  |fs p md mt b fs' _ IH Hc|fs p md mt b fs' _ IH Hc].
  - apply tidy_leaf.
  - eapply tidy_addEntry; [|exact Hc|exact IH].
    intros nm e. apply newFileEntry_tidy.
  - unfold MkdirAll in Hc.
    destruct (mkdirAll_loop clock md 0 (fullPathSplit p) (root fs)) as [e'|] eqn:E;
      simpl in Hc; [|discriminate].
    injection Hc as <-. simpl. eapply tidy_mkdirAll; [|exact E|exact IH].
    rewrite fullPathSplit_normalize. apply normalize_good.
  - eapply tidy_addEntry; [|exact Hc|exact IH].
    intros nm e. simpl.
    destruct (newFileEntry nm b md mt) as [x|] eqn:En; simpl; [|discriminate].
    intros [= <-]. apply newFileEntry_tidy in En as [Hn Ht].
    split; [exact Hn|]. destruct x; simpl in *.
    exact Ht.
  - eapply tidy_addEntry; [|exact Hc|exact IH].
    intros nm e. simpl.
    destruct (newFileEntry nm b md mt) as [x|] eqn:En; simpl; [|discriminate].
    intros [= <-]. apply newFileEntry_tidy in En as [Hn Ht].
    split; [exact Hn|]. destruct x; simpl in *.
    exact Ht.
Qed.

(** ** The resolver without assumptions on names *)

Lemma names_first_incl l : forall seen seen',
  incl seen seen' -> names_first seen l -> names_first seen' l.
Proof.
  induction l as [|x t IH]; intros seen seen' Hi; simpl; [trivial|].
  intros [H1 H2]. split; [intros d Hd; apply Hi; auto|].
  eapply IH; [|exact H2]. intros z [->|Hz]; [now left|right; auto].
Qed.

Lemma names_first_snoc l : forall seen x,
  names_first seen (l ++ [x]) <->
  names_first seen l /\
  (forall d, In d (deps x) -> In (Name d) seen \/ In (Name d) (map Name l)).
Proof.
  induction l as [|y t IH]; intros seen x; simpl.
  - split.
    + intros [H _]. split; [trivial|]. intros d Hd. left. auto.
    + intros [_ H]. split; [|trivial]. intros d Hd.
      destruct (H d Hd) as [Hs|Hs]; [assumption|destruct Hs].
  - rewrite IH. split.
    + intros (H1 & H2 & H3). repeat split; try assumption.
      intros d Hd. destruct (H3 d Hd) as [[<-|?]|?]; auto.
    + intros ((H1 & H2) & H3). repeat split; try assumption.
      intros d Hd. destruct (H3 d Hd) as [?|[<-|?]]; simpl; auto.
Qed.

Lemma names_first_nth l : forall seen i x d,
  names_first seen l -> nth_error l i = Some x -> In d (deps x) ->
  In (Name d) seen \/
  exists j y, (j < i)%nat /\ nth_error l j = Some y /\ Name y = Name d.
Proof.
  induction l as [|y l IH]; intros seen i x d Hnf Hn Hd.
  - now destruct i.
  - destruct Hnf as [H1 H2]. destruct i as [|i]; simpl in Hn.
    + injection Hn as ->. left. auto.
    + destruct (IH _ _ _ _ H2 Hn Hd) as [[E|Hs]|(j & z & Hj & Hnj & Hz)].
      * right. exists 0%nat, y. split; [lia|]. split; [reflexivity|exact E].
      * now left.
      * right. exists (S j), z. split; [lia|]. now split.
Qed.

Lemma appendUnlessNamed_cases ret m :
  (In (Name m) (map Name ret) /\ appendUnlessNamed ret m = ret) \/
  (~ In (Name m) (map Name ret) /\ appendUnlessNamed ret m = ret ++ [m]).
Proof.
  unfold appendUnlessNamed. destruct (Named ret (Name m)) as [y|] eqn:E.
  - left. split; [|reflexivity]. apply Named_Some in E as [Hy Hn].
    rewrite <- Hn. now apply in_map.
  - right. split; [|reflexivity]. now apply Named_None.
Qed.

Lemma appendUnlessNamed_named ret m :
  NoDup (map Name ret) -> names_first [] ret ->
  (forall d, In d (deps m) -> In (Name d) (map Name ret)) ->
  NoDup (map Name (appendUnlessNamed ret m)) /\
  names_first [] (appendUnlessNamed ret m) /\
  (forall n, In n (map Name (appendUnlessNamed ret m)) <->
             In n (map Name ret) \/ n = Name m) /\
  (forall x, In x (appendUnlessNamed ret m) -> In x ret \/ x = m).
Proof.
  intros Hnd Hnf Hd.
  destruct (appendUnlessNamed_cases ret m) as [[Hin ->]|[Hout ->]].
  - repeat split; try assumption; [tauto|intros [?| ->]; assumption|tauto].
  - repeat split.
    + rewrite map_app. simpl.
      apply Permutation_NoDup with (l := Name m :: map Name ret).
      * apply Permutation_cons_append.
      * now constructor.
    + apply names_first_snoc. split; [assumption|]. intros d Hdd. right. auto.
    + rewrite map_app, in_app_iff. simpl. intuition.
    + rewrite map_app, in_app_iff. simpl. intuition.
    + intros x. rewrite in_app_iff. simpl. intuition.
Qed.

Lemma merge_named todo : forall seen ret,
  NoDup (map Name ret) -> names_first [] ret ->
  incl seen (map Name ret) -> names_first seen todo ->
  NoDup (map Name (fold_left appendUnlessNamed todo ret)) /\
  names_first [] (fold_left appendUnlessNamed todo ret) /\
  (forall n, In n (map Name (fold_left appendUnlessNamed todo ret)) <->
             In n (map Name ret) \/ In n (map Name todo)) /\
  (forall x, In x (fold_left appendUnlessNamed todo ret) ->
             In x ret \/ In x todo).
Proof.
  induction todo as [|x t IH]; intros seen ret Hnd Hnf Hseen Htodo; simpl.
  - repeat split; try assumption; tauto.
  - destruct Htodo as [Hx Ht].
    destruct (appendUnlessNamed_named ret x Hnd Hnf) as (A1 & A2 & A3 & A4).
    { intros d Hd. apply Hseen. auto. }
    destruct (IH (Name x :: seen) (appendUnlessNamed ret x) A1 A2) as (B1 & B2 & B3 & B4).
    + intros n [<-|Hn]; apply A3; [now right|left; auto].
    + exact Ht.
    + repeat split; try assumption.
      * intros Hn. apply B3 in Hn as [Hn|Hn]; [|tauto].
        apply A3 in Hn as [Hn| ->]; tauto.
      * intros [Hn|[<-|Hn]]; apply B3; [left; apply A3; tauto
                                        |left; apply A3; tauto|tauto].
      * intros y Hy. apply B4 in Hy as [Hy|Hy]; [|tauto].
        apply A4 in Hy as [Hy| ->]; tauto.
Qed.

Lemma resolveStep_named ret m mreqs :
  NoDup (map Name ret) -> names_first [] ret ->
  names_first [] mreqs ->
  (forall d, In d (deps m) -> In (Name d) (map Name mreqs)) ->
  NoDup (map Name (resolveStep ret m mreqs)) /\
  names_first [] (resolveStep ret m mreqs) /\
  (forall n, In n (map Name (resolveStep ret m mreqs)) <->
             In n (map Name ret) \/ In n (map Name mreqs) \/ n = Name m) /\
  (forall x, In x (resolveStep ret m mreqs) ->
             In x ret \/ In x mreqs \/ x = m).
Proof.
  intros Hnd Hnf Hreqs Hd. unfold resolveStep.
  destruct (merge_named mreqs [] ret Hnd Hnf) as (A1 & A2 & A3 & A4);
    [intros n []|assumption|].
  destruct (appendUnlessNamed_named (fold_left appendUnlessNamed mreqs ret) m A1 A2)
    as (B1 & B2 & B3 & B4).
  { intros d Hdd. apply A3. right. auto. }
  repeat split; try assumption.
  - intros Hn. apply B3 in Hn as [Hn| ->]; [|tauto]. apply A3 in Hn. tauto.
  - intros [Hn|[Hn| ->]]; apply B3; [left; apply A3; tauto
                                    |left; apply A3; tauto|tauto].
  - intros x Hx. apply B4 in Hx as [Hx| ->]; [|tauto]. apply A4 in Hx. tauto.
Qed.

Lemma closure_cons m s x :
  In x (closure (m :: s)) <-> x = m \/ In x (deps m) \/ In x (closure s).
Proof.
  unfold closure. simpl. rewrite in_app_iff. intuition.
Qed.

Lemma loop_named (g : Module -> ModuleList) s : forall ret,
  NoDup (map Name ret) -> names_first [] ret ->
  (forall m, In m s ->
             names_first [] (g m) /\
             (forall d, In d (deps m) -> In (Name d) (map Name (g m))) /\
             incl (g m) (deps m)) ->
  NoDup (map Name (fold_left (fun ret m => resolveStep ret m (g m)) s ret)) /\
  names_first [] (fold_left (fun ret m => resolveStep ret m (g m)) s ret) /\
  (forall x, In x ret \/ In x (closure s) ->
             In (Name x)
                (map Name (fold_left (fun ret m => resolveStep ret m (g m)) s ret))) /\
  (forall x, In x (fold_left (fun ret m => resolveStep ret m (g m)) s ret) ->
             In x ret \/ In x (closure s)).
Proof.
  induction s as [|m s IH]; intros ret Hnd Hnf Hg; cbn [fold_left].
  - repeat split; try assumption.
    + intros x [Hx|[]]. now apply in_map.
    + tauto.
  - destruct (Hg m (or_introl eq_refl)) as (G1 & G2 & G3).
    destruct (resolveStep_named ret m (g m) Hnd Hnf G1 G2) as (A1 & A2 & A3 & A4).
    destruct (IH (resolveStep ret m (g m)) A1 A2) as (B1 & B2 & B3 & B4).
    { intros m' Hm'. apply Hg. now right. }
    assert (Hkeep : forall n,
               In n (map Name (resolveStep ret m (g m))) ->
               In n (map Name (fold_left (fun ret m => resolveStep ret m (g m)) s
                                         (resolveStep ret m (g m))))).
    { intros n Hn. apply in_map_iff in Hn as (y & <- & Hin). apply B3. now left. }
    repeat split; try assumption.
    + intros x [Hx|Hx].
      * apply Hkeep, A3. left. now apply in_map.
      * apply closure_cons in Hx. destruct Hx as [-> |[Hx|Hx]].
        -- apply Hkeep, A3. tauto.
        -- apply Hkeep, A3. right. left. now apply G2.
        -- apply B3. now right.
    + intros x Hx. apply B4 in Hx as [Hx|Hx].
      * apply A4 in Hx as [Hx|[Hx| ->]]; [tauto| |].
        -- right. apply closure_cons. right. left. now apply G3.
        -- right. apply closure_cons. now left.
      * right. apply closure_cons. tauto.
Qed.

Lemma resolved_by_name_list r :
  Forall (fun m => resolved_by_name (Requires m)) r -> resolved_by_name r.
Proof.
  intros Hall. unfold resolved_by_name. rewrite Resolve_unfold.
  assert (Hperm : Permutation (Sort Less r) r) by apply Sort_perm.
  destruct (loop_named (fun m => Resolve (Requires m)) (Sort Less r) [])
    as (A1 & A2 & A3 & A4).
  - constructor.
  - exact I.
  - intros m Hm. assert (Hmr : In m r) by (eapply Permutation_in; eassumption).
    rewrite Forall_forall in Hall. destruct (Hall m Hmr) as (B1 & B2 & B3 & B4).
    rewrite deps_unfold. split; [assumption|]. split; assumption.
  - split; [assumption|]. split; [assumption|]. split.
    + intros x Hx. apply A3. right.
      eapply closure_perm; [symmetry|]; eassumption.
    + intros x Hx. apply A4 in Hx as [[]|Hx].
      eapply closure_perm; eassumption.
Qed.

Lemma resolved_by_name_all r : resolved_by_name r.
Proof.
  apply resolved_by_name_list. apply Forall_forall. intros m _.
  apply (Module_induction (fun m => resolved_by_name (Requires m))).
  intros m' IH. now apply resolved_by_name_list.
Qed.

(** ** Names of modules *)

Lemma Named_split l nm m :
  Named l nm = Some m ->
  exists l1 l2, l = l1 ++ m :: l2 /\ Name m = nm /\ ~ In nm (map Name l1).
Proof.
  unfold Named. induction l as [|x t IH]; simpl; [discriminate|].
  destruct (str_eqb (Name x) nm) eqn:E.
  - intros [= <-]. apply str_eqb_eq in E.
    exists [], t. repeat split; [assumption|]. intros [].
  - intros Hf. destruct (IH Hf) as (l1 & l2 & -> & Hn & Hout).
    exists (x :: l1), l2. repeat split; [assumption|].
    apply str_eqb_neq in E. simpl. intros [H|H]; [now apply E|now apply Hout].
Qed.

(** ** Extensions *)

Lemma ext_scan_extension rp : forall suffix,
  ~ In "." suffix -> ~ In "/" suffix -> extension (ext_scan rp suffix).
Proof.
  induction rp as [|c rp IH]; intros suffix Hd Hs; simpl; [now left|].
  destruct (c =? "/") eqn:E1; [now left|].
  destruct (c =? ".") eqn:E2.
  - right. exists suffix. apply Ascii.eqb_eq in E2. subst c. now repeat split.
  - apply IH.
    + intros [->|H]; [now rewrite Ascii.eqb_refl in E2|auto].
    + intros [->|H]; [now rewrite Ascii.eqb_refl in E1|auto].
Qed.

Lemma Ext_extension s : extension (Ext s).
Proof. unfold Ext. apply ext_scan_extension; intros []. Qed.

(** ** Runs that visit nothing *)

Lemma visited_app a b : visited (a ++ b) = visited a ++ visited b.
Proof.
  induction a as [|e a IH]; simpl; [reflexivity|].
  destruct e; simpl; now rewrite IH.
Qed.

Section Quiet.
Context `{Gzip} {St : Type}.
Implicit Types (fn : WalkFunc (St := St)) (w : world (St := St)).
Variable ext : gostring.
Hypothesis Hext : forall s, Ext s <> ext.

Lemma rangeEntries_quiet recurse m root fn :
  (forall nr w w' r, recurse nr w = Some (w', r) ->
                     user w' = user w /\ visited (log w') = visited (log w)) ->
  forall fis w w' r,
    rangeEntries recurse m root ext fn fis w = Some (w', r) ->
    user w' = user w /\ visited (log w') = visited (log w).
Proof.
  intros Hrec. induction fis as [|fi fis IH]; intros w w' r; simpl.
  - intros [= <- <-]. now split.
  - destruct (IsDir fi).
    + destruct (recurse (Join [root; name fi]) w) as [[w1 [e|]]|] eqn:E;
        [| |discriminate].
      * intros [= <- <-]. eapply Hrec, E.
      * intros Hr. destruct (Hrec _ _ _ _ E) as [U1 V1].
        destruct (IH _ _ _ Hr) as [U2 V2]. split; congruence.
    + assert (Hne : str_eqb (Ext (name fi)) ext = false)
        by (apply str_eqb_neq, Hext).
      rewrite Hne. simpl. apply IH.
Qed.

Lemma walkDir_quiet fuel : forall m root fn w w' r,
  walkDir fuel m root ext fn w = Some (w', r) ->
  user w' = user w /\ visited (log w') = visited (log w).
Proof.
  induction fuel as [|fuel IH]; intros m root fn w w' r; simpl; [discriminate|].
  destruct (Open m root) as [dirf|err].
  - destruct (Readdir dirf (-1)) as [dirf' [fis|err]].
    + intros Hr.
      apply (rangeEntries_quiet _ m root fn (fun nr w w' r => IH m nr fn w w' r))
        in Hr as [U V].
      simpl in U, V. rewrite U, V. split; [reflexivity|].
      now rewrite !visited_app, !app_nil_r.
    + intros [= <- <-]. simpl. split; [reflexivity|].
      now rewrite !visited_app, !app_nil_r.
  - intros [= <- <-]. simpl. split; [reflexivity|].
    now rewrite visited_app, app_nil_r.
Qed.

Lemma ModuleList_Walk_quiet fuel fn l : forall w w' r,
  ModuleList_Walk fuel l ext fn w = Some (w', r) ->
  user w' = user w /\ visited (log w') = visited (log w).
Proof.
  induction l as [|m l IH]; intros w w' r; simpl.
  - intros [= <- <-]. now split.
  - unfold Walk. destruct (walkDir fuel m ["/"] ext fn w) as [[w1 [e|]]|] eqn:E;
      [| |discriminate].
    + intros [= <- <-]. eapply walkDir_quiet, E.
    + intros Hr. destruct (walkDir_quiet _ _ _ _ _ _ _ E) as [U1 V1].
      destruct (IH _ _ _ Hr) as [U2 V2]. split; congruence.
Qed.
End Quiet.

(** ** Printing *)

Lemma String_unfold fs :
  String fs =
  match Requires fs with
  | [] => Name fs
  | _ =>
      let buf :=
        fold_left (fun buf r => buf ++ String r ++ go ", ") (Requires fs)
                  (Name fs ++ go " -> (") in
      firstn (length buf - 2) buf ++ go ")"
  end.
Proof. now destruct fs. Qed.

Lemma fold_left_append {A} (f : A -> gostring) l : forall init,
  fold_left (fun buf r => buf ++ f r) l init = init ++ flat_map f l.
Proof.
  induction l as [|x l IH]; intros init; simpl; [now rewrite app_nil_r|].
  now rewrite IH, app_assoc.
Qed.

Lemma flat_map_join {A} (f : A -> gostring) sep x l :
  flat_map (fun r => f r ++ sep) (x :: l) = join sep (map f (x :: l)) ++ sep.
Proof.
  revert x. induction l as [|y l IH]; intros x.
  - simpl. now rewrite app_nil_r.
  - change (flat_map (fun r => f r ++ sep) (x :: y :: l))
      with ((f x ++ sep) ++ flat_map (fun r => f r ++ sep) (y :: l)).
    rewrite IH. change (join sep (map f (x :: y :: l)))
      with (f x ++ sep ++ join sep (map f (y :: l))).
    now rewrite <- !app_assoc.
Qed.

Lemma firstn_drop_suffix {A} (x s : list A) :
  firstn (length (x ++ s) - length s) (x ++ s) = x.
Proof.
  rewrite length_app. replace (length x + length s - length s)%nat
    with (length x + 0)%nat by lia.
  rewrite firstn_app_2. simpl. apply app_nil_r.
Qed.

(** ** Import paths *)

Lemma split_slash_cat l : forall t,
  split_slash (l ++ "/" :: t) = split_slash l ++ split_slash t.
Proof.
  induction l as [|x l IH]; intros t; [reflexivity|].
  simpl. rewrite IH. destruct (x =? "/"); [reflexivity|].
  destruct (split_slash l) as [|h r] eqn:E; [|reflexivity].
  now apply split_slash_nonnil in E.
Qed.

Lemma last_app_cons {A} (l : list A) x t d : last (l ++ x :: t) d = last (x :: t) d.
Proof.
  induction l as [|y l IH]; [reflexivity|].
  simpl app. rewrite <- IH. simpl. now destruct (l ++ x :: t) eqn:E; [destruct l|].
Qed.

Lemma last_slash_cases p :
  slashfree p \/ exists l c, p = l ++ "/" :: c /\ slashfree c.
Proof.
  induction p as [|x p IH]; [left; intros []|].
  destruct IH as [Hp|(l & c & -> & Hc)].
  - destruct (Ascii.eqb_spec x "/") as [->|Hx].
    + right. exists [], p. now split.
    + left. intros [E|H]; [now apply Hx|now apply Hp].
  - right. exists (x :: l), c. now split.
Qed.

Lemma last_split_slash p : last (split_slash p) [] = snd (Split p).
Proof.
  destruct (last_slash_cases p) as [Hp|(l & c & -> & Hc)].
  - now rewrite split_slash_one, Split_noslash.
  - rewrite split_slash_cat, (split_slash_one c), Split_app by assumption.
    now rewrite last_last.
Qed.

Lemma Split_slashfree p : slashfree (snd (Split p)).
Proof.
  destruct (last_slash_cases p) as [Hp|(l & c & -> & Hc)].
  - now rewrite Split_noslash.
  - now rewrite Split_app.
Qed.

(** ** The visitor of the demo server *)

Section Concatenation.
Context `{Gzip}.

Lemma open_content e b :
  content e = inl b ->
  open e = inl (mkFile e (NewReader b) (children e)).
Proof.
  unfold content, open. destruct (buf e) as [s|].
  - destruct (gzipped e).
    + now intros ->.
    + now intros [= ->].
  - now intros [= <-].
Qed.

Lemma concatNewest_all files : forall b0 t0,
  Forall (fun v => exists b, content (snd (snd v)) = inl b) files ->
  visit_all concatNewest files (b0, t0) =
  ((b0 ++ flat_map (fun v => decoded (snd (snd v)) ++ [x0a%byte]) files,
    fold_left (fun t v => Z.max t (modTime (snd (snd v)))) files t0), None).
Proof.
  induction files as [|[m [p e]] files IH]; intros b0 t0 Hall; simpl.
  - now rewrite app_nil_r.
  - inversion Hall as [|v l [b Hb] Hrest]; subst. simpl in Hb.
    rewrite (open_content e b Hb). unfold concatNewest. simpl.
    rewrite ReadAll_NewReader by lia. simpl.
    rewrite (IH _ _ Hrest). unfold decoded. rewrite Hb.
    rewrite <- !app_assoc. simpl. f_equal. f_equal.
    unfold ModTime. destruct (modTime e >? t0)%Z eqn:E.
    + apply Z.gtb_lt in E. now rewrite Z.max_r by lia.
    + rewrite Z.gtb_ltb in E. apply Z.ltb_ge in E. now rewrite Z.max_l by lia.
Qed.
End Concatenation.

(** ** What a tree holds after a call *)

Lemma entryWithName_replace_diff l nm n g :
  nm <> n ->
  (forall c, entryWithName l nm = Some c -> name (g c) = name c) ->
  entryWithName (replaceChild l nm g) n = entryWithName l n.
Proof.
  intros Hne. induction l as [|x t IH]; intros Hg; simpl; [reflexivity|].
  destruct (str_eqb (name x) nm) eqn:Ex.
  - simpl. rewrite Hg by (simpl; now rewrite Ex).
    destruct (str_eqb (name x) n) eqn:Exn; [|reflexivity].
    apply str_eqb_eq in Ex, Exn. congruence.
  - simpl. destruct (str_eqb (name x) n); [reflexivity|]. apply IH.
    intros c Hc. apply Hg. simpl. now rewrite Ex.
Qed.

Lemma prefix_of_cons p q c : prefix_of q c -> prefix_of (p :: q) (p :: c).
Proof. intros [rest ->]. now exists rest. Qed.

Lemma prefix_of_nil c : prefix_of [] c.
Proof. now exists c. Qed.

(** After [mkdirAll_loop] along [parts]: an entry that resolves was
    there before, or is a directory on the way along [parts]. *)
Lemma mkdirAll_holds clock md parts : forall i e e' q x,
  mkdirAll_loop clock md i parts e = Ok e' ->
  find_loop q e' = Some x ->
  (exists x0, find_loop q e = Some x0 /\ mode x = mode x0) \/
  (prefix_of q parts /\ q <> [] /\ IsDir x = true).
Proof.
  induction parts as [|p ps IH]; intros i e e' q x Hm Hf.
  - simpl in Hm. injection Hm as <-. left. eauto.
  - destruct q as [|n q'].
    + simpl in Hf. injection Hf as <-. left. exists e. split; [reflexivity|].
      eapply mkdirAll_mode, Hm.
    + simpl in Hm. destruct (entryWithName (children e) p) as [sube|] eqn:E.
      * destruct (mkdirAll_loop clock md (S i) ps sube) as [s'|] eqn:El;
          simpl in Hm; [|discriminate].
        injection Hm as <-. simpl in Hf.
        destruct (list_eq_dec ascii_dec p n) as [<-|Hpn].
        -- rewrite (entryWithName_replace _ _ (fun _ => s') sube E) in Hf.
           2:{ rewrite (mkdirAll_name _ _ _ _ _ _ El).
               now apply entryWithName_name in E. }
           destruct (IH _ _ _ _ _ El Hf) as [(x0 & Hx0 & Hmode)|(Hp & Hq & Hd)].
           ++ left. exists x0. simpl. rewrite E. now split.
           ++ right. split; [now apply prefix_of_cons|]. split; [discriminate|assumption].
        -- rewrite entryWithName_replace_diff in Hf; [|assumption|].
           ++ left. exists x. simpl. now split.
           ++ intros c Hc. rewrite E in Hc. injection Hc as <-.
              eapply mkdirAll_name, El.
      * destruct (newFileEntry p [] (mode_or md ModeDir) (clock i)) as [n0|] eqn:En;
          simpl in Hm; [|discriminate].
        destruct (mkdirAll_loop clock md (S i) ps n0) as [s'|] eqn:El;
          simpl in Hm; [|discriminate].
        injection Hm as <-. simpl in Hf. rewrite entryWithName_app in Hf.
        destruct (entryWithName (children e) n) as [c|] eqn:Ec.
        -- left. exists x. simpl. rewrite Ec. now split.
        -- simpl in Hf. destruct (str_eqb (name s') n) eqn:Es; [|discriminate].
           apply str_eqb_eq in Es.
           assert (Hn0 : n0 = mkFileEntry (Some []) false p (mode_or md ModeDir)
                                          (clock i) []).
           { unfold newFileEntry in En. destruct (Split p).
             destruct (negb (str_eqb g []) || negb (str_eqb g0 p)); [discriminate|].
             now injection En as <-. }
           assert (Hnp : n = p).
           { rewrite <- Es, (mkdirAll_name _ _ _ _ _ _ El), Hn0. reflexivity. }
           clear Es. subst n. right.
           destruct (IH _ _ _ _ _ El Hf) as [(x0 & Hx0 & Hmode)|(Hp & Hq & Hd)].
           ++ split; [|split; [discriminate|]].
              ** rewrite Hn0 in Hx0. destruct q' as [|? ?]; [|discriminate].
                 apply prefix_of_cons, prefix_of_nil.
              ** rewrite Hn0 in Hx0. destruct q' as [|? ?]; [|discriminate].
                 simpl in Hx0. injection Hx0 as <-. unfold IsDir.
                 rewrite Hmode. simpl. apply mode_or_IsDir.
           ++ split; [now apply prefix_of_cons|]. split; [discriminate|assumption].
Qed.

(** After the leaf [e0] is appended below [parts]: an entry that
    resolves was there before, or is [e0] at its path. *)
Lemma append_holds e0 parts : forall r q x,
  children e0 = [] ->
  find_loop q (modifyEntry parts
                 (fun d => set_children d (children d ++ [e0])) r) = Some x ->
  (exists x0, find_loop q r = Some x0 /\ mode x = mode x0) \/
  (q = parts ++ [name e0] /\ x = e0).
Proof.
  intros r q x Hleaf. revert r q x.
  induction parts as [|a ps IH]; intros r q x Hf.
  - simpl in Hf. destruct q as [|n q'].
    + simpl in Hf. injection Hf as <-. left. exists r. now split.
    + simpl in Hf. rewrite entryWithName_app in Hf.
      destruct (entryWithName (children r) n) as [c|] eqn:Ec.
      * left. exists x. simpl. rewrite Ec. now split.
      * simpl in Hf. destruct (str_eqb (name e0) n) eqn:En; [|discriminate].
        apply str_eqb_eq in En. subst n. right.
        destruct q' as [|n2 q2].
        -- simpl in Hf. injection Hf as <-. now split.
        -- simpl in Hf. rewrite Hleaf in Hf. discriminate.
  - destruct q as [|n q'].
    + simpl in Hf. injection Hf as <-. left. exists r. now split.
    + cbn [modifyEntry] in Hf. simpl in Hf.
      destruct (list_eq_dec ascii_dec a n) as [<-|Han].
      * destruct (entryWithName (children r) a) as [c|] eqn:Ec.
        -- rewrite (entryWithName_replace _ _ _ c Ec) in Hf.
           2:{ rewrite modifyEntry_name; [now apply entryWithName_name in Ec|].
               intros d. apply set_children_name. }
           destruct (IH _ _ _ Hf) as [(x0 & Hx0 & Hmode)|(Hq & Hx)].
           ++ left. exists x0. simpl. rewrite Ec. now split.
           ++ right. subst. now split.
        -- rewrite replaceChild_none in Hf by assumption.
           rewrite Ec in Hf. discriminate.
      * rewrite entryWithName_replace_diff in Hf; [|assumption|].
        -- left. exists x. simpl. now split.
        -- intros c _. apply modifyEntry_name. intros d. apply set_children_name.
Qed.

Lemma dirs_along_found parts : forall e,
  (forall q x, prefix_of q parts -> q <> [] -> find_loop q e = Some x ->
               IsDir x = true) ->
  dirs_along parts e.
Proof.
  induction parts as [|p ps IH]; intros e Hd; simpl; [exact I|].
  destruct (entryWithName (children e) p) as [s|] eqn:E; [|exact I]. split.
  - apply (Hd [p] s); [apply prefix_of_cons, prefix_of_nil|discriminate|].
    simpl. now rewrite E.
  - apply IH. intros q x Hq Hne Hf.
    apply (Hd (p :: q) x); [now apply prefix_of_cons|discriminate|].
    simpl. now rewrite E.
Qed.

Lemma dirs_resolve_find parts : forall e,
  dirs_resolve parts e ->
  exists d, find_loop parts e = Some d /\ (parts <> [] -> IsDir d = true).
Proof.
  induction parts as [|c cs IH]; intros e.
  - intros _. exists e. split; [reflexivity|]. now intros [].
  - intros (s & Hs & Hdir & Hrest). simpl. rewrite Hs.
    destruct cs as [|c2 cs2].
    + exists s. split; [reflexivity|]. now intros _.
    + destruct (IH s Hrest) as (d & Hf & Hdd). exists d. split; [exact Hf|].
      intros _. apply Hdd. discriminate.
Qed.

(** ** Running the generated statements *)

Lemma bind_Ok {A} (r : result A) : (x <- r ;; Ok x) = r.
Proof. now destruct r. Qed.

Lemma execAll_app clock a : forall fs b,
  execAll clock fs (a ++ b) =
  (fs' <- execAll clock fs a ;; execAll clock fs' b).
Proof.
  induction a as [|c a IH]; intros fs b; simpl; [reflexivity|].
  destruct (exec clock fs c) as [fs1|pn]; simpl; [apply IH|reflexivity].
Qed.

Lemma builds_to_trans a b c : builds_to a b -> builds_to b c -> builds_to a c.
Proof.
  intros Hab Hbc. induction Hbc.
  - exact Hab.
  - eapply builds_Mkdir; eassumption.
  - eapply builds_MkdirAll; eassumption.
  - eapply builds_WriteFile; eassumption.
  - eapply builds_WriteGzipFile; eassumption.
Qed.

Lemma independent_sym a b : independent a b -> independent b a.
Proof. unfold independent. tauto. Qed.

Lemma prefix_of_refl c : prefix_of c c.
Proof. exists []. now rewrite app_nil_r. Qed.

Lemma prefix_of_app q a b : prefix_of q a -> prefix_of q (a ++ b).
Proof. intros [rest ->]. exists (rest ++ b). now rewrite app_assoc. Qed.

Lemma prefix_of_longer a b : ~ prefix_of (a ++ [b]) a.
Proof.
  intros [rest E]. apply (f_equal (@length _)) in E.
  rewrite !length_app in E. simpl in E. lia.
Qed.

Lemma root_dir_parts name :
  negb (str_eqb (dir_of name) []) && negb (str_eqb (dir_of name) ["/"]) = false ->
  parent_parts name = [].
Proof.
  intros Hc. rewrite <- normalize_dir_of.
  apply andb_false_iff in Hc as [Hc|Hc]; apply negb_false_iff, str_eqb_eq in Hc;
    now rewrite Hc.
Qed.

Lemma addFile_step clock done fs name mt gz :
  holds_only done (root fs) ->
  normalize name <> [] ->
  Forall (independent (normalize name)) done ->
  exists fs',
    execAll clock fs (addFile name mt gz) = Ok fs' /\
    holds_only (normalize name :: done) (root fs') /\
    builds_to fs fs' /\
    findEntry fs' name =
    Some (mkFileEntry (Some gz) true (base_of name) 420%Z mt []).
Proof.
  intros [Hroot Hinv] Hne Hind.
  pose proof (parts_snoc name Hne) as Hcs.
  rewrite Forall_forall in Hind.
  (* the directories *)
  assert (H1 : exists fs1,
             builds_to fs fs1 /\
             execAll clock fs (addFile name mt gz)
             = WriteGzipFile fs1 name 420%Z mt gz /\
             (forall q x, find_loop q (root fs1) = Some x ->
                (exists x0, find_loop q (root fs) = Some x0 /\ mode x = mode x0) \/
                (prefix_of q (parent_parts name) /\ q <> [] /\ IsDir x = true)) /\
             exists d, find_loop (parent_parts name) (root fs1) = Some d /\
                       IsDir d = true).
  { unfold addFile. rewrite Split_Clean.
    destruct (negb (str_eqb (dir_of name) []) &&
              negb (str_eqb (dir_of name) ["/"])) eqn:Hc.
    - destruct (MkdirAll_total clock fs (dir_of name) 493%Z) as [fs1 Hm].
      exists fs1. split; [eapply builds_MkdirAll; [apply builds_refl|exact Hm]|].
      split.
      { cbn [app execAll exec]. rewrite Hm. cbn [bind]. apply bind_Ok. }
      assert (Hholds : forall q x, find_loop q (root fs1) = Some x ->
                (exists x0, find_loop q (root fs) = Some x0 /\ mode x = mode x0) \/
                (prefix_of q (parent_parts name) /\ q <> [] /\ IsDir x = true)).
      { intros q x Hf. unfold MkdirAll in Hm.
        rewrite fullPathSplit_normalize, normalize_dir_of in Hm.
        destruct (mkdirAll_loop clock 493%Z 0 (parent_parts name) (root fs))
          as [e'|] eqn:El; simpl in Hm; [|discriminate].
        injection Hm as <-. simpl in Hf.
        eapply mkdirAll_holds; eassumption. }
      split; [exact Hholds|].
      assert (Hd : dirs_along (normalize (dir_of name)) (root fs)).
      { rewrite normalize_dir_of. apply dirs_along_found.
        intros q x Hq Hqne Hf.
        destruct (Hinv q x Hf) as [->|[Hin|[Hdir _]]];
          [now destruct Hqne| |exact Hdir].
        exfalso. destruct (Hind q Hin) as [_ Hno]. apply Hno.
        rewrite Hcs. now apply prefix_of_app. }
      pose proof (MkdirAll_creates _ _ _ _ _ Hm Hd) as Hr.
      rewrite normalize_dir_of in Hr.
      destruct (dirs_resolve_find _ _ Hr) as (d & Hfd & Hdd).
      exists d. split; [exact Hfd|].
      destruct (parent_parts name) as [|p0 ps0] eqn:Hpp; [|apply Hdd; discriminate].
      simpl in Hfd. injection Hfd as <-.
      destruct (Hholds [] (root fs1) eq_refl) as [(x0 & Hx0 & Hmode)|(_ & Hq & _)];
        [|now destruct Hq].
      simpl in Hx0. injection Hx0 as <-. unfold IsDir in *. now rewrite Hmode.
    - exists fs. split; [apply builds_refl|]. split.
      { cbn [app execAll exec]. apply bind_Ok. }
      split.
      + intros q x Hf. left. eauto.
      + rewrite (root_dir_parts name Hc). exists (root fs). now split. }
  destruct H1 as (fs1 & Hb1 & Hexec & Hholds & d & Hfd & Hdd).
  (* the file *)
  assert (Hfree : entryWithName (children d) (base_of name) = None).
  { destruct (entryWithName (children d) (base_of name)) as [y|] eqn:Ey;
      [|reflexivity]. exfalso.
    assert (Hy : find_loop (normalize name) (root fs1) = Some y).
    { rewrite Hcs, find_loop_app, Hfd. simpl. now rewrite Ey. }
    destruct (Hholds _ _ Hy) as [(x0 & Hx0 & _)|(Hp & _)].
    - destruct (Hinv _ _ Hx0) as [E|[Hin|(_ & c & Hc & Hp)]].
      + now apply Hne.
      + destruct (Hind _ Hin) as [Hno _]. apply Hno, prefix_of_refl.
      + destruct (Hind _ Hc) as [Hno _]. now apply Hno.
    - rewrite Hcs in Hp. now apply prefix_of_longer in Hp. }
  assert (Hw : exists fs2, WriteGzipFile fs1 name 420%Z mt gz = Ok fs2 /\
                 root fs2 =
                 modifyEntry (parent_parts name)
                   (fun d => set_children d
                      (children d ++
                       [mkFileEntry (Some gz) true (base_of name) 420%Z mt []]))
                   (root fs1)).
  { unfold WriteGzipFile, writeFile. rewrite addEntry_spec, Hfd, Hdd. simpl.
    rewrite Hfree, newFileEntry_ok by apply base_of_slashfree. simpl.
    eexists. split; reflexivity. }
  destruct Hw as (fs2 & Hw & Hroot2).
  exists fs2. split; [now rewrite Hexec|]. split; [|split].
  - assert (Hall : forall q x, find_loop q (root fs2) = Some x ->
               (exists x0, find_loop q (root fs) = Some x0 /\ mode x = mode x0) \/
               (prefix_of q (normalize name) /\ q <> [] /\ IsDir x = true) \/
               q = normalize name).
    { intros q x Hf. rewrite Hroot2 in Hf.
      destruct (append_holds
                  (mkFileEntry (Some gz) true (base_of name) 420%Z mt [])
                  _ _ _ _ eq_refl Hf) as [(x1 & Hx1 & Hm1)|[Hq _]].
      - destruct (Hholds _ _ Hx1) as [(x0 & Hx0 & Hm0)|(Hp & Hq & Hd1)].
        + left. exists x0. split; [assumption|congruence].
        + right. left. split; [rewrite Hcs; now apply prefix_of_app|].
          split; [assumption|]. unfold IsDir in *. now rewrite Hm1.
      - right. right. simpl in Hq. now rewrite Hcs. }
    split.
    + destruct (Hall [] (root fs2) eq_refl) as [(x0 & Hx0 & Hm)|[(_ & Hq & _)|Hq]].
      * simpl in Hx0. injection Hx0 as <-. unfold IsDir in *. now rewrite Hm.
      * now destruct Hq.
      * symmetry in Hq. now apply Hne in Hq.
    + intros q x Hf.
      destruct (Hall q x Hf) as [(x0 & Hx0 & Hm)|[(Hp & Hq & Hd1)|Hq]].
      * destruct (Hinv _ _ Hx0) as [E|[Hin|(Hd0 & c & Hc & Hp)]].
        -- now left.
        -- right. left. now right.
        -- right. right. split; [unfold IsDir in *; now rewrite Hm|].
           exists c. split; [now right|assumption].
      * right. right. split; [assumption|].
        exists (normalize name). split; [now left|assumption].
      * right. left. now left.
  - eapply builds_to_trans; [exact Hb1|].
    eapply builds_WriteGzipFile; [apply builds_refl|exact Hw].
  - eapply writeFile_findEntry; eassumption.
Qed.

Lemma addFiles_run clock inputs : forall done fs,
  holds_only done (root fs) ->
  Forall (fun i => normalize (fst (fst i)) <> []) inputs ->
  prefix_free (map (fun i => normalize (fst (fst i))) inputs) ->
  Forall (fun i => Forall (independent (normalize (fst (fst i)))) done) inputs ->
  exists fs',
    execAll clock fs (addFiles inputs) = Ok fs' /\ builds_to fs fs' /\
    forall i, In i inputs ->
      exists e,
        findEntry fs' (fst (fst i)) = Some e /\
        same_entry (mkFileEntry (Some (snd i)) true (base_of (fst (fst i)))
                                420%Z (snd (fst i)) []) e.
Proof.
  induction inputs as [|[[name mt] gz] inputs IH]; intros done fs Hinv Hne Hpf Hind.
  - exists fs. split; [reflexivity|]. split; [apply builds_refl|]. intros i [].
  - inversion Hne as [|? ? Hne1 Hne2]; subst.
    inversion Hind as [|? ? Hind1 Hind2]; subst.
    destruct Hpf as [Hpf1 Hpf2]. simpl in Hne1, Hind1, Hpf1.
    destruct (addFile_step clock done fs name mt gz Hinv Hne1 Hind1)
      as (fs1 & Hexec & Hinv1 & Hb1 & Hfind).
    destruct (IH (normalize name :: done) fs1 Hinv1 Hne2 Hpf2) as (fs2 & Hrun & Hb2 & Hall).
    { apply Forall_forall. intros i Hi. constructor.
      - apply independent_sym. rewrite Forall_forall in Hpf1. apply Hpf1.
        now apply (in_map (fun i => normalize (fst (fst i)))).
      - rewrite Forall_forall in Hind2. now apply Hind2. }
    exists fs2. split; [|split].
    + unfold addFiles. simpl. rewrite execAll_app, Hexec. exact Hrun.
    + eapply builds_to_trans; eassumption.
    + intros i [<-|Hi]; [|now apply Hall].
      simpl. rewrite findEntry_normalize in Hfind.
      destruct (builds_to_keeps _ _ Hb2 _ _ Hfind) as (e & He & Hs).
      exists e. rewrite findEntry_normalize. now split.
Qed.

(** ** Every file once *)

Lemma abspath_inj a b :
  Forall good a -> Forall good b -> abspath a = abspath b -> a = b.
Proof.
  intros Ha Hb E. rewrite <- (normalize_abspath a Ha), <- (normalize_abspath b Hb).
  now rewrite E.
Qed.

Lemma uniqueb_cons x t :
  uniqueb (x :: t) = true -> ~ In x t /\ uniqueb t = true.
Proof.
  simpl. intros Hu. apply andb_true_iff in Hu as [H1 H2]. split; [|exact H2].
  intros Hin. apply negb_true_iff in H1.
  assert (Hex : existsb (str_eqb x) t = true)
    by (apply existsb_exists; exists x; split; [assumption|apply str_eqb_refl]).
  congruence.
Qed.

Lemma walkable_child e c :
  walkable e = true -> In c (children e) ->
  good (name c) /\ entryWithName (children e) (name c) = Some c /\
  (IsDir c = true -> walkable c = true).
Proof.
  rewrite walkable_unfold. intros Hw Hin.
  apply andb_true_iff in Hw as [Hw H3]. apply andb_true_iff in Hw as [H1 H2].
  rewrite forallb_forall in H2, H3. split; [apply goodb_good; now apply H2|].
  split; [now apply entryWithName_unique|].
  intros Hd. specialize (H3 c Hin). rewrite Hd in H3. simpl in H3.
  now apply andb_true_iff in H3 as [_ H3].
Qed.

(** Where the files of [matching] are. *)
Lemma matching_paths ext e :
  forall cs p c,
    walkable e = true -> In (p, c) (matching ext cs e) ->
    exists ch q,
      In ch (children e) /\ Forall good q /\
      p = abspath (cs ++ name ch :: q) /\
      find_loop (name ch :: q) e = Some c.
Proof.
  induction e as [e IH] using fileEntry_induction. intros cs p c Hw Hin.
  rewrite matching_unfold in Hin. apply in_flat_map in Hin as (ch & Hch & Hin).
  destruct (walkable_child e ch Hw Hch) as (Hg & Hfind & Hsub).
  exists ch. unfold matching_child in Hin. destruct (IsDir ch) eqn:Hd.
  - rewrite Forall_forall in IH.
    destruct (IH ch Hch (cs ++ [name ch]) p c (Hsub eq_refl) Hin)
      as (ch2 & q2 & Hch2 & Hq2 & Hp & Hf).
    exists (name ch2 :: q2). split; [assumption|]. split.
    + constructor; [|assumption]. now apply (walkable_child ch ch2 (Hsub eq_refl)).
    + split; [now rewrite <- app_assoc in Hp|].
      cbn [find_loop]. now rewrite Hfind.
  - destruct (str_eqb (Ext (name ch)) ext); [|destruct Hin].
    destruct Hin as [[= <- <-]|[]]. exists []. split; [assumption|].
    split; [constructor|]. split; [reflexivity|].
    cbn [find_loop]. now rewrite Hfind.
Qed.

Lemma map_flat_map_fst {A B C} (f : A -> list (B * C)) l :
  map fst (flat_map f l) = flat_map (fun x => map fst (f x)) l.
Proof.
  induction l as [|x l IH]; simpl; [reflexivity|]. now rewrite map_app, IH.
Qed.

Lemma NoDup_app_intro {A} (a b : list A) :
  NoDup a -> NoDup b -> (forall x, In x a -> ~ In x b) -> NoDup (a ++ b).
Proof.
  induction a as [|x a IH]; intros Ha Hb Hd; simpl; [assumption|].
  inversion Ha; subst. constructor.
  - rewrite in_app_iff. intros [H|H]; [contradiction|].
    apply (Hd x); [now left|assumption].
  - apply IH; try assumption. intros y Hy. apply Hd. now right.
Qed.

Lemma matching_NoDup ext e :
  forall cs, Forall good cs -> walkable e = true ->
             NoDup (map fst (matching ext cs e)).
Proof.
  induction e as [e IH] using fileEntry_induction. intros cs Hcs Hw.
  rewrite matching_unfold.
  assert (Hfirst : forall ch p, In ch (children e) ->
                     In p (map fst (matching_child ext cs ch)) ->
                     exists q, Forall good q /\ p = abspath (cs ++ name ch :: q)).
  { intros ch p Hch Hp. apply in_map_iff in Hp as ([p' c] & <- & Hin).
    destruct (walkable_child e ch Hw Hch) as (Hg & Hfind & Hsub).
    unfold matching_child in Hin. destruct (IsDir ch) eqn:Hd.
    - destruct (matching_paths ext ch (cs ++ [name ch]) p' c (Hsub eq_refl) Hin)
        as (ch2 & q2 & Hch2 & Hq2 & Hp & _).
      exists (name ch2 :: q2). split.
      + constructor; [|assumption].
        now apply (walkable_child ch ch2 (Hsub eq_refl)).
      + simpl. now rewrite <- app_assoc in Hp.
    - destruct (str_eqb (Ext (name ch)) ext); [|destruct Hin].
      destruct Hin as [[= <- <-]|[]]. exists []. now split. }
  assert (Hu : uniqueb (map name (children e)) = true).
  { rewrite walkable_unfold in Hw.
    apply andb_true_iff in Hw as [Hw _]. now apply andb_true_iff in Hw as [Hw _]. }
  assert (Hall : forall ch, In ch (children e) ->
                   NoDup (map fst (matching_child ext cs ch)) /\ good (name ch)).
  { intros ch Hch. destruct (walkable_child e ch Hw Hch) as (Hg & _ & Hsub).
    split; [|assumption]. unfold matching_child. destruct (IsDir ch) eqn:Hd.
    - rewrite Forall_forall in IH. apply IH; [assumption| |now apply Hsub].
      apply Forall_app. split; [assumption|]. now constructor.
    - destruct (str_eqb (Ext (name ch)) ext); simpl; repeat constructor.
      intros []. }
  revert Hfirst Hu Hall. generalize (children e). intros l.
  induction l as [|ch l IHl]; intros Hfirst Hu Hall; simpl; [constructor|].
  rewrite map_app. simpl in Hu. apply uniqueb_cons in Hu as [Hout Hu].
  apply NoDup_app_intro.
  - apply Hall. now left.
  - apply IHl; [|assumption|].
    + intros c p Hc. apply Hfirst. now right.
    + intros c Hc. apply Hall. now right.
  - intros p Hp1 Hp2.
    destruct (Hfirst ch p (or_introl eq_refl) Hp1) as (q1 & Hq1 & E1).
    rewrite map_flat_map_fst in Hp2.
    apply in_flat_map in Hp2 as (ch2 & Hch2 & Hp2).
    destruct (Hfirst ch2 p (or_intror Hch2) Hp2) as (q2 & Hq2 & E2).
    rewrite E1 in E2. apply abspath_inj in E2.
    + apply app_inv_head in E2. injection E2 as E2 _. apply Hout.
      rewrite E2. now apply in_map.
    + apply Forall_app. split; [assumption|].
      constructor; [|assumption]. apply Hall. now left.
    + apply Forall_app. split; [assumption|].
      constructor; [|assumption]. apply Hall. now right.
Qed.

Section Recording.
Context `{Gzip}.

Lemma recordPaths_all files : forall seen,
  Forall (fun v => exists b, content (snd (snd v)) = inl b) files ->
  visit_all recordPaths files seen =
  (seen ++ map (fun v => fst (snd v)) files, None).
Proof.
  induction files as [|[m [p e]] files IH]; intros seen Hall; simpl.
  - now rewrite app_nil_r.
  - inversion Hall as [|v l [b Hb] Hrest]; subst. simpl in Hb.
    rewrite (open_content e b Hb). unfold recordPaths at 1.
    rewrite (IH _ Hrest). now rewrite <- app_assoc.
Qed.
End Recording.

(** * Further properties of the code *)

(** ** Paths and lookups *)

(** X1.  [fullPathSplit] returns the slash-separated elements of its
    argument with the empty ones and "." dropped and every ".."
    cancelling the element before it (nothing at the root); none of the
    components it returns is empty, ".", ".." or holds a slash; a
    leading slash makes no difference; and the components of the
    absolute path built from proper components are these components. *)
Theorem fullPathSplit_components p :
  fullPathSplit p = normalize p /\
  Forall good (fullPathSplit p) /\
  fullPathSplit ("/" :: p) = fullPathSplit p /\
  (forall cs, Forall good cs -> fullPathSplit (abspath cs) = cs).
Proof.
  rewrite !fullPathSplit_normalize. split; [reflexivity|].
  split; [apply normalize_good|]. split; [apply normalize_slash|].
  intros cs Hcs. rewrite fullPathSplit_normalize. now apply normalize_abspath.
Qed.

(** X2.  [findEntry] follows the components of [fullPathSplit] from
    the root (cleaning the path a second time changes nothing), so two
    spellings with the same components find the same entry; a path
    without components ("/", "", ".", "..") finds the root in every
    file set; and when a path resolves, every path whose components are
    a prefix of its components resolves too, to an ancestor from which
    the remaining components lead to the entry. *)
Theorem findEntry_by_components fs :
  (forall p, findEntry fs p = find_loop (fullPathSplit p) (root fs)) /\
  (forall p q, fullPathSplit p = fullPathSplit q ->
               findEntry fs p = findEntry fs q) /\
  (forall p, fullPathSplit p = [] -> findEntry fs p = Some (root fs)) /\
  findEntry fs (go "/") = Some (root fs) /\
  findEntry fs (go "") = Some (root fs) /\
  findEntry fs (go "../..") = Some (root fs) /\
  (forall p q rest e,
      fullPathSplit p = fullPathSplit q ++ rest ->
      findEntry fs p = Some e ->
      exists d, findEntry fs q = Some d /\ find_loop rest d = Some e).
Proof.
  assert (H1 : forall p, findEntry fs p = find_loop (fullPathSplit p) (root fs)).
  { intros p. now rewrite findEntry_normalize, fullPathSplit_normalize. }
  split; [exact H1|]. split.
  { intros p q E. now rewrite !H1, E. }
  split.
  { intros p E. now rewrite H1, E. }
  split; [reflexivity|]. split; [reflexivity|]. split; [reflexivity|].
  intros p q rest e E. rewrite !H1, E, find_loop_app.
  destruct (find_loop (fullPathSplit q) (root fs)) as [d|]; [|discriminate].
  intros Hf. exists d. now split.
Qed.

(** ** The builder API *)

(** X3.  The sanity check of [newFileEntry] panics exactly on the names
    that hold a slash; every other name, the empty one, "." and ".."
    included, yields an entry with a buffer holding the given bytes,
    not gzipped and without children. *)
Theorem newFileEntry_rejects_slash nm b md mt :
  (In "/" nm -> newFileEntry nm b md mt = Panic (InvalidName nm)) /\
  (~ In "/" nm ->
   newFileEntry nm b md mt = Ok (mkFileEntry (Some b) false nm md mt [])) /\
  newFileEntry [] b md mt = Ok (mkFileEntry (Some b) false [] md mt []) /\
  newFileEntry (go "..") b md mt = Ok (mkFileEntry (Some b) false (go "..") md mt []).
Proof.
  split; [apply newFileEntry_slash|]. split; [apply newFileEntry_ok|].
  split; reflexivity.
Qed.

(** X4.  What [writeFile] (behind [WriteFile] and [WriteGzipFile]) and
    [Mkdir] do, for [dir] and [base] the two halves of the cleaned
    path: they panic when [dir] does not resolve, when it resolves to
    an entry that is no directory, and when that directory has a child
    named [base]; in every other case they return, and [dir] then holds
    its former children followed by the new entry, which has no
    children and carries [base], the given content and flag (an empty
    buffer for a directory), the given mode (with the directory bit
    for [Mkdir]) and the given time.  The name check of [newFileEntry]
    never fires. *)
Theorem builder_outcomes fs p :
  (forall md mt contents gz,
      add_outcome fs p
        (mkFileEntry (Some contents) gz (snd (Split (Clean ("/" :: p)))) md mt [])
        (writeFile fs p md mt contents gz)) /\
  (forall now md,
      add_outcome fs p
        (mkFileEntry (Some []) false (snd (Split (Clean ("/" :: p))))
                     (mode_or md ModeDir) now [])
        (Mkdir now fs p md)).
Proof.
  assert (Hadd : forall mk e,
             mk (base_of p) = Ok e ->
             add_outcome fs p e (addEntry fs p mk)).
  { intros mk e Hmk. unfold add_outcome.
    rewrite Split_Clean, findEntry_dir_of, addEntry_spec.
    destruct (find_loop (parent_parts p) (root fs)) as [dire|] eqn:Hf;
      [|reflexivity].
    destruct (IsDir dire); simpl; [|reflexivity].
    destruct (entryWithName (children dire) (base_of p)); [reflexivity|].
    rewrite Hmk. simpl. eexists. split; [reflexivity|].
    now apply find_modify_append. }
  rewrite Split_Clean. simpl. split.
  - intros md mt contents gz. apply Hadd.
    now rewrite newFileEntry_ok by apply base_of_slashfree.
  - intros now md. apply Hadd.
    now rewrite newFileEntry_ok by apply base_of_slashfree.
Qed.

(** X5.  After a [WriteFile] that returned, on a path other than the
    root: [Open] of the path succeeds; reading the handle to the end
    yields the bytes written, for every chunk size; [Stat] returns the
    entry itself without error, and it reports the last component of
    the path as name, the length of the bytes as size, the mode and the
    modification time given; the entry is a directory only if the mode
    given says so; and the handle lists no children, [Readdir]
    returning [EOF]. *)
Theorem WriteFile_then_Open `{Gzip} fs p md mt b fs' :
  WriteFile fs p md mt b = Ok fs' -> fullPathSplit p <> [] ->
  exists f,
    Open fs' p = inl f /\
    (forall chunk, (0 < chunk)%nat ->
                   exists rd, ReadAll chunk (f_Reader f) = Some (rd, b, None)) /\
    Stat (f_fileEntry f) = (f_fileEntry f, None) /\
    name (f_fileEntry f) = last (fullPathSplit p) [] /\
    Size (f_fileEntry f) = Ok (Z.of_nat (length b)) /\
    Mode (f_fileEntry f) = md /\ ModTime (f_fileEntry f) = mt /\
    IsDir (f_fileEntry f) = mode_IsDir md /\
    (forall n, Readdir f n = (f, inr EOF)).
Proof.
  rewrite fullPathSplit_normalize. intros Hw Hne.
  pose proof (writeFile_findEntry _ _ _ _ _ _ _ Hw Hne) as Hf.
  unfold Open. rewrite Hf. unfold open. simpl.
  eexists. split; [reflexivity|]. simpl. repeat split.
  - intros chunk Hc. rewrite ReadAll_NewReader by assumption. eauto.
  - intros n. now apply Readdir_exhausted.
Qed.

Lemma WriteFile_then_Open_witness :
  WriteFile files2 (go "/files/three.js") 420 0 (bytes "3") = Ok threeFiles /\
  fullPathSplit (go "/files/three.js") <> [] /\
  exists f,
    Open (H := rejectAll) threeFiles (go "/files/three.js") = inl f /\
    (forall chunk, (0 < chunk)%nat ->
                   exists rd, ReadAll chunk (f_Reader f) = Some (rd, bytes "3", None)) /\
    Stat (f_fileEntry f) = (f_fileEntry f, None) /\
    name (f_fileEntry f) = last (fullPathSplit (go "/files/three.js")) [] /\
    Size (f_fileEntry f) = Ok (Z.of_nat (length (bytes "3"))) /\
    Mode (f_fileEntry f) = 420%Z /\ ModTime (f_fileEntry f) = 0%Z /\
    IsDir (f_fileEntry f) = mode_IsDir 420 /\
    (forall n, Readdir f n = (f, inr EOF)).
Proof.
  split; [reflexivity|]. split; [vm_compute; discriminate|].
  apply (WriteFile_then_Open (H := rejectAll) files2);
    [reflexivity|vm_compute; discriminate].
Defined.

(** X6.  [WriteGzipFile] stores the payload as it is, without looking
    at it.  After a call that returned, on a path other than the root:
    when the payload decodes to [u], [Open] succeeds and reading the
    handle to the end yields [u]; when the decoder fails, the entry is
    there all the same and every [Open] of the path returns the
    decoder's error. *)
Theorem WriteGzipFile_then_Open `{Gzip} fs p md mt payload fs' :
  WriteGzipFile fs p md mt payload = Ok fs' -> fullPathSplit p <> [] ->
  (exists e, findEntry fs' p = Some e /\
             buf e = Some payload /\ gzipped e = true) /\
  match gunzip payload with
  | inl u =>
      exists f, Open fs' p = inl f /\
                forall chunk, (0 < chunk)%nat ->
                  exists rd, ReadAll chunk (f_Reader f) = Some (rd, u, None)
  | inr err => Open fs' p = inr err
  end.
Proof.
  rewrite fullPathSplit_normalize. intros Hw Hne.
  pose proof (writeFile_findEntry _ _ _ _ _ _ _ Hw Hne) as Hf.
  split; [eexists; split; [exact Hf|split; reflexivity]|].
  unfold Open. rewrite Hf. unfold open. simpl.
  destruct (gunzip payload) as [u|err]; [|reflexivity].
  eexists. split; [reflexivity|]. simpl.
  intros chunk Hc. rewrite ReadAll_NewReader by assumption. eauto.
Qed.

Lemma WriteGzipFile_then_Open_witness :
  WriteGzipFile gzDemo0 (go "/bad.gz") 420 8 (bytes "junk") = Ok gzDemo /\
  fullPathSplit (go "/bad.gz") <> [] /\
  Open (H := stripHeader) gzDemo (go "/bad.gz") = inr (ErrGzip 1) /\
  exists f rd,
    Open (H := stripHeader) gzDemo (go "/good.gz") = inl f /\
    ReadAll 512 (f_Reader f) = Some (rd, bytes "raw", None).
Proof.
  split; [reflexivity|]. split; [vm_compute; discriminate|]. split.
  - refine (proj2 (WriteGzipFile_then_Open (H := stripHeader) gzDemo0
                     (go "/bad.gz") 420%Z 8%Z (bytes "junk") gzDemo _ _));
      [reflexivity|vm_compute; discriminate].
  - do 2 eexists. split; reflexivity.
Defined.

(** X7.  [MkdirAll] returns normally for every file set, path and mode;
    afterwards the path resolves; the name and the requirements of the
    file set are untouched; a second call with the same path changes
    nothing; and on a path that resolved before the call nothing is
    changed at all. *)
Theorem MkdirAll_succeeds clock fs p md :
  exists fs',
    MkdirAll clock fs p md = Ok fs' /\
    (exists d, findEntry fs' p = Some d) /\
    Name fs' = Name fs /\ Requires fs' = Requires fs /\
    (forall clock' md', MkdirAll clock' fs' p md' = Ok fs') /\
    ((exists d, findEntry fs p = Some d) -> fs' = fs).
Proof.
  destruct (MkdirAll_total clock fs p md) as [fs' Hm].
  exists fs'. split; [exact Hm|].
  destruct (MkdirAll_resolves _ _ _ _ _ Hm) as [d Hd].
  split; [eauto|].
  assert (Hn : Name fs' = Name fs /\ Requires fs' = Requires fs).
  { unfold MkdirAll in Hm.
    destruct (mkdirAll_loop clock md 0 (fullPathSplit p) (root fs));
      simpl in Hm; [|discriminate].
    injection Hm as <-. now split. }
  destruct Hn as [Hn1 Hn2]. split; [exact Hn1|]. split; [exact Hn2|]. split.
  - intros clock' md'. eapply MkdirAll_noop, Hd.
  - intros [d0 Hd0]. rewrite (MkdirAll_noop clock fs p md d0 Hd0) in Hm.
    now injection Hm.
Qed.

(** X8.  When nothing but directories exists along the path, [MkdirAll]
    leaves a directory at the path and at each of its ancestors, the
    ones it creates carrying the given mode with the directory bit;
    and whatever resolved before the call still resolves to an entry
    with the same content, name, mode and time. *)
Theorem MkdirAll_creates_directories clock fs p md fs' :
  MkdirAll clock fs p md = Ok fs' ->
  dirs_along (fullPathSplit p) (root fs) ->
  dirs_resolve (fullPathSplit p) (root fs') /\
  (exists d, findEntry fs' p = Some d /\
             (fullPathSplit p <> [] -> IsDir d = true)) /\
  keeps (root fs) (root fs').
Proof.
  rewrite !fullPathSplit_normalize. intros Hm Hd.
  pose proof (MkdirAll_creates _ _ _ _ _ Hm Hd) as Hr.
  split; [exact Hr|]. split; [|eapply keeps_MkdirAll, Hm].
  rewrite findEntry_normalize. clear Hm Hd.
  revert Hr. generalize (root fs'). induction (normalize p) as [|c cs IH].
  - intros e _. exists e. split; [reflexivity|]. now intros [].
  - intros e (s & Hs & Hdir & Hrest). simpl. rewrite Hs.
    destruct cs as [|c2 cs2].
    + exists s. split; [reflexivity|]. now intros _.
    + destruct (IH s Hrest) as (d & Hf & Hdd). exists d. split; [exact Hf|].
      intros _. apply Hdd. discriminate.
Qed.

Lemma MkdirAll_creates_directories_witness :
  MkdirAll (fun i => Z.of_nat i) files0 (go "/files/x/y") 448 = Ok deepDirs /\
  dirs_along (fullPathSplit (go "/files/x/y")) (root files0) /\
  dirs_resolve (fullPathSplit (go "/files/x/y")) (root deepDirs).
Proof.
  assert (Hd : dirs_along (fullPathSplit (go "/files/x/y")) (root files0))
    by (vm_compute; auto).
  split; [reflexivity|]. split; [exact Hd|].
  exact (proj1 (MkdirAll_creates_directories (fun i => Z.of_nat i) files0
                  (go "/files/x/y") 448%Z deepDirs eq_refl Hd)).
Defined.

(** X9.  After a [Mkdir] that returned, on a path other than the root:
    the path resolves to a directory, whatever the mode given, named
    by the last component of the path, with an empty buffer (size 0),
    no children and the time of the call; [Open] of it succeeds and
    [Readdir] on the fresh handle returns [EOF]; and another [Mkdir]
    or [WriteFile] on the path panics. *)
Theorem Mkdir_then_Open `{Gzip} now fs p md fs' :
  Mkdir now fs p md = Ok fs' -> fullPathSplit p <> [] ->
  exists d,
    findEntry fs' p = Some d /\
    IsDir d = true /\ name d = last (fullPathSplit p) [] /\
    Size d = Ok 0%Z /\ children d = [] /\ ModTime d = now /\
    Mode d = mode_or md ModeDir /\
    (exists f, Open fs' p = inl f /\ f_fileEntry f = d /\
               Readdir f (-1) = (f, inr EOF)) /\
    (forall now' md', exists pn, Mkdir now' fs' p md' = Panic pn) /\
    (forall md' mt b gz, exists pn, writeFile fs' p md' mt b gz = Panic pn).
Proof.
  rewrite fullPathSplit_normalize. intros Hm Hne.
  pose proof (Mkdir_findEntry _ _ _ _ _ Hm Hne) as Hf.
  eexists. split; [exact Hf|]. simpl.
  split; [apply mode_or_IsDir|]. do 5 (split; [reflexivity|]).
  split; [|split].
  - unfold Open. rewrite Hf. simpl. eexists. repeat split.
  - intros now' md'. eapply Mkdir_existing; eassumption.
  - intros md' mt b gz. unfold writeFile. rewrite addEntry_spec.
    rewrite findEntry_normalize, (parts_snoc p Hne), find_loop_app in Hf.
    destruct (find_loop (parent_parts p) (root fs')) as [dire|]; [|discriminate].
    destruct (IsDir dire); simpl; [|eauto].
    simpl in Hf.
    destruct (entryWithName (children dire) (base_of p)); [eauto|discriminate].
Qed.

Lemma Mkdir_then_Open_witness :
  Mkdir 0 demo (go "/files") 493 = Ok files0 /\
  fullPathSplit (go "/files") <> [] /\
  exists d,
    findEntry files0 (go "/files") = Some d /\ IsDir d = true /\
    name d = go "files".
Proof.
  split; [reflexivity|]. split; [vm_compute; discriminate|].
  destruct (Mkdir_then_Open (H := rejectAll) 0%Z demo (go "/files") 493%Z files0)
    as (d & Hf & Hd & Hn & _); [reflexivity|vm_compute; discriminate|].
  exists d. split; [exact Hf|]. split; [exact Hd|].
  rewrite Hn. reflexivity.
Defined.

(** X10.  No builder call removes, renames or overwrites an entry:
    whatever a path resolved to before any sequence of successful
    [Mkdir], [MkdirAll], [WriteFile] and [WriteGzipFile] calls, it
    resolves afterwards to an entry with the same buffer, flag, name,
    mode and modification time, and [Open] of it gives a reader over
    the same bytes or fails with the same error; the name and the
    requirements of the file set never change. *)
Theorem builder_calls_keep_entries fs fs' :
  builds_to fs fs' ->
  Name fs' = Name fs /\ Requires fs' = Requires fs /\
  forall q e,
    findEntry fs q = Some e ->
    exists e',
      findEntry fs' q = Some e' /\ same_entry e e' /\
      forall G : Gzip,
        match Open fs q, Open fs' q with
        | inl f, inl f' => f_Reader f' = f_Reader f
        | inr err, inr err' => err' = err
        | _, _ => False
        end.
Proof.
  intros Hb. destruct (builds_to_names _ _ Hb) as [Hn Hr].
  split; [exact Hn|]. split; [exact Hr|].
  intros q e Hq. rewrite findEntry_normalize in Hq.
  destruct (builds_to_keeps _ _ Hb _ _ Hq) as (e' & Hq' & Hs).
  exists e'. rewrite findEntry_normalize. split; [exact Hq'|].
  split; [exact Hs|]. intros G. unfold Open.
  rewrite !findEntry_normalize, Hq, Hq'. unfold open.
  destruct Hs as (-> & -> & _).
  destruct (buf e) as [b|]; [|reflexivity].
  destruct (gzipped e); [|reflexivity].
  now destruct (gunzip b).
Qed.

Lemma builds_files0_threeFiles : builds_to files0 threeFiles.
Proof.
  apply (builds_WriteFile files0 files2 (go "/files/three.js") 420%Z 0%Z (bytes "3"));
    [|reflexivity].
  apply (builds_WriteFile files0 files1 (go "/files/two.js") 420%Z 0%Z (bytes "2"));
    [|reflexivity].
  apply (builds_WriteFile files0 files0 (go "/files/one.js") 420%Z 0%Z (bytes "1"));
    [|reflexivity].
  apply builds_refl.
Qed.

Lemma builder_calls_keep_entries_witness :
  builds_to files0 threeFiles /\ Name threeFiles = Name files0.
Proof.
  split; [exact builds_files0_threeFiles|].
  exact (proj1 (builder_calls_keep_entries files0 threeFiles
                  builds_files0_threeFiles)).
Defined.

(** X11.  In every file set the builder API can produce, the children
    of an entry carry pairwise different names, every name is a proper
    path component (not empty, ".", ".." and without slash) or the
    empty name, the root keeps its name "/" and stays a directory. *)
Theorem built_names_differ fs :
  built fs ->
  tidy (root fs) /\ name (root fs) = go "/" /\ IsDir (root fs) = true /\
  (forall q e, findEntry fs q = Some e ->
               NoDup (map name (children e)) /\
               Forall (fun c => okname (name c)) (children e)).
Proof.
  intros Hb. pose proof (built_tidy fs Hb) as Ht.
  split; [exact Ht|].
  assert (Hroot : name (root fs) = go "/" /\ IsDir (root fs) = true).
  { clear Ht.
    induction Hb as [now nm requires|now fs p md fs' _ IH Hc
                     |clock fs p md fs' _ IH Hc
                     |fs p md mt b fs' _ IH Hc|fs p md mt b fs' _ IH Hc].
    - split; reflexivity.
    - pose proof (keeps_addEntry _ _ _ _ Hc [] _ eq_refl) as (d & Hd & Hs).
      simpl in Hd. injection Hd as <-.
      destruct Hs as (_ & _ & Hn & Hm & _). unfold IsDir. now rewrite Hn, Hm.
    - pose proof (keeps_MkdirAll _ _ _ _ _ Hc [] _ eq_refl) as (d & Hd & Hs).
      simpl in Hd. injection Hd as <-.
      destruct Hs as (_ & _ & Hn & Hm & _). unfold IsDir. now rewrite Hn, Hm.
    - pose proof (keeps_addEntry _ _ _ _ Hc [] _ eq_refl) as (d & Hd & Hs).
      simpl in Hd. injection Hd as <-.
      destruct Hs as (_ & _ & Hn & Hm & _). unfold IsDir. now rewrite Hn, Hm.
    - pose proof (keeps_addEntry _ _ _ _ Hc [] _ eq_refl) as (d & Hd & Hs).
      simpl in Hd. injection Hd as <-.
      destruct Hs as (_ & _ & Hn & Hm & _). unfold IsDir. now rewrite Hn, Hm. }
  split; [apply Hroot|]. split; [apply Hroot|].
  intros q e. rewrite findEntry_normalize.
  generalize (normalize q). intros parts. revert Ht.
  generalize (root fs). induction parts as [|c cs IH]; intros r Ht; simpl.
  - intros [= <-]. apply tidy_unfold in Ht. tauto.
  - destruct (entryWithName (children r) c) as [s|] eqn:E; [|discriminate].
    apply IH. apply tidy_unfold in Ht as (_ & _ & Hch).
    rewrite Forall_forall in Hch. apply Hch.
    eapply entryWithName_In, E.
Qed.

Lemma built_names_differ_witness :
  built threeFiles /\
  map name (children (root threeFiles)) = [go "files"] /\
  tidy (root threeFiles).
Proof.
  assert (Hb : built threeFiles).
  { apply (built_WriteFile files2 (go "/files/three.js") 420%Z 0%Z (bytes "3"));
      [|reflexivity].
    apply (built_WriteFile files1 (go "/files/two.js") 420%Z 0%Z (bytes "2"));
      [|reflexivity].
    apply (built_WriteFile files0 (go "/files/one.js") 420%Z 0%Z (bytes "1"));
      [|reflexivity].
    apply (built_Mkdir 0%Z demo (go "/files") 493%Z); [|reflexivity].
    apply built_NewFileSet. }
  split; [exact Hb|]. split; [reflexivity|].
  exact (proj1 (built_names_differ threeFiles Hb)).
Defined.

(** ** Handles *)

(** X12.  [Close] never fails and releases nothing: it moves the read
    position of the handle to the end.  Afterwards every [Read]
    returns [EOF] and reading to the end yields no bytes, the entry
    behind the handle and its directory cursor are as before (so
    [Readdir] goes on where it was), and closing again changes
    nothing. *)
Theorem Close_seeks_to_end f :
  snd (Close f) = None /\
  f_fileEntry (fst (Close f)) = f_fileEntry f /\
  f_children (fst (Close f)) = f_children f /\
  (forall n, Read (f_Reader (fst (Close f))) n
             = (f_Reader (fst (Close f)), [], Some EOF)) /\
  (forall chunk, ReadAll chunk (f_Reader (fst (Close f)))
                 = Some (f_Reader (fst (Close f)), [], None)) /\
  (forall n, snd (Readdir (fst (Close f)) n) = snd (Readdir f n)) /\
  Close (fst (Close f)) = Close f.
Proof.
  assert (HR : forall n, Read (f_Reader (fst (Close f))) n
                         = (f_Reader (fst (Close f)), [], Some EOF)).
  { intros n. unfold Read. simpl.
    destruct (Z.of_nat (length (r_s (f_Reader f)))
              >=? Z.of_nat (length (r_s (f_Reader f))))%Z eqn:E;
      [reflexivity|]. rewrite Z.geb_leb in E. apply Z.leb_gt in E. lia. }
  split; [reflexivity|]. split; [reflexivity|]. split; [reflexivity|].
  split; [exact HR|]. split; [|split; [|reflexivity]].
  - intros chunk. unfold ReadAll. cbn [readAll_loop]. now rewrite HR.
  - intros n. unfold Readdir. simpl.
    now destruct (firstn _ (f_children f)).
Qed.

(** ** The resolver *)

(** X14.  For every module list, also one in which different modules
    carry the same name: no name occurs twice in [Resolve r]; every
    member is reachable from [r] through requirements; the name of
    every reachable module occurs in the result; and every member is
    preceded, at a strictly smaller index, by a member carrying the
    name of each of its direct and transitive requirements.  The empty
    list resolves to the empty list. *)
Theorem Resolve_orders_by_name r :
  NoDup (map Name (Resolve r)) /\
  (forall x, In x (Resolve r) -> In x (closure r)) /\
  (forall x, In x (closure r) -> In (Name x) (map Name (Resolve r))) /\
  (forall i x d, nth_error (Resolve r) i = Some x -> In d (deps x) ->
                 exists j y, (j < i)%nat /\ nth_error (Resolve r) j = Some y /\
                             Name y = Name d) /\
  Resolve [] = [].
Proof.
  destruct (resolved_by_name_all r) as (Hnd & Hnf & Hnames & Hin).
  split; [exact Hnd|]. split; [exact Hin|]. split; [exact Hnames|].
  split; [|reflexivity].
  intros i x d Hn Hd.
  destruct (names_first_nth _ _ _ _ _ Hnf Hn Hd) as [[]|Hj]. exact Hj.
Qed.

(** X15.  [Less] compares the names of two modules and nothing else:
    it is irreflexive, transitive and asymmetric, and two modules are
    unordered exactly when they carry the same name. *)
Theorem Less_orders_names a b c :
  Less a a = false /\
  (Less a b = true -> Less b c = true -> Less a c = true) /\
  (Less a b = true -> Less b a = false) /\
  (Less a b = false /\ Less b a = false <-> Name a = Name b).
Proof.
  unfold Less. split; [apply str_ltb_irrefl|].
  split; [apply str_ltb_trans|]. split; [apply str_ltb_asym|]. split.
  - intros [H1 H2]. now apply str_ltb_total.
  - intros ->. split; apply str_ltb_irrefl.
Qed.

(** X16.  [Named] returns the first module of the list that carries
    the name, and nil exactly when no module of the list carries it. *)
Theorem Named_first_match l nm :
  match Named l nm with
  | Some m =>
      exists l1 l2, l = l1 ++ m :: l2 /\ Name m = nm /\ ~ In nm (map Name l1)
  | None => ~ In nm (map Name l)
  end.
Proof.
  destruct (Named l nm) as [m|] eqn:E.
  - now apply Named_split.
  - now apply Named_None.
Qed.

(** ** The walker *)

(** X17.  The filter of [Walk] is compared with what [path.Ext]
    returns, which is empty or a dot followed by bytes other than the
    dot and the slash.  With any other filter ("js", ".tar.gz", "*.js")
    a walk that returns has not called the callback and has left its
    state as it was, whatever the modules hold. *)
Theorem Walk_filter_must_be_extension `{Gzip} {St : Type} fuel l ext
        (fn : WalkFunc (St := St)) w w' r :
  ~ extension ext ->
  ModuleList_Walk fuel l ext fn w = Some (w', r) ->
  user w' = user w /\ visited (log w') = visited (log w).
Proof.
  intros Hext. apply ModuleList_Walk_quiet.
  intros s E. apply Hext. rewrite <- E. apply Ext_extension.
Qed.

Lemma Walk_filter_must_be_extension_witness :
  ~ extension (go "js") /\
  exists w' r,
    ModuleList_Walk (H := rejectAll) 2 [test_a; test_d] (go "js") concatVisitor
      (mkWorld [] []) = Some (w', r) /\
    user w' = [] /\ visited (log w') = [].
Proof.
  assert (Hne : ~ extension (go "js")).
  { intros [E|(t & E & _)]; discriminate E. }
  split; [exact Hne|].
  do 2 eexists. split; [vm_compute; reflexivity|].
  refine (Walk_filter_must_be_extension (H := rejectAll) 2 [test_a; test_d]
            (go "js") concatVisitor (mkWorld [] []) _ _ Hne _).
  vm_compute. reflexivity.
Defined.

(** X18.  A walk over a file set that holds no entry does not return
    nil: the root opens, [Readdir] on it returns [EOF], the root is
    closed, and [EOF] is what [Walk] returns, without a call of the
    callback; in a [ModuleList] the walk ends there and the modules
    after such a file set are not walked. *)
Theorem Walk_empty_file_set `{Gzip} {St : Type} fuel now nm requires ext
        (fn : WalkFunc (St := St)) w l :
  Walk (S fuel) (NewFileSet now nm requires) ext fn w
  = Some (mkWorld (log w ++ [EOpen (go "/") None;
                             EReaddir (go "/") (Some EOF);
                             EClose (go "/")]) (user w), Some EOF) /\
  ModuleList_Walk (S fuel) (NewFileSet now nm requires :: l) ext fn w
  = Walk (S fuel) (NewFileSet now nm requires) ext fn w.
Proof.
  assert (E : Walk (S fuel) (NewFileSet now nm requires) ext fn w
              = Some (mkWorld (log w ++ [EOpen (go "/") None;
                                         EReaddir (go "/") (Some EOF);
                                         EClose (go "/")]) (user w), Some EOF)).
  { unfold Walk, walkDir, record. simpl.
    now rewrite <- !app_assoc. }
  split; [exact E|]. cbn [ModuleList_Walk]. now rewrite E.
Qed.

(** X19.  The callback of the demo server.  Over modules the walk gets
    through (entries addressable by their paths, every directory
    listable) and whose matching files all decode, [ModuleList.Walk]
    with this callback returns nil; the buffer then holds what it held
    before followed by the content of every matching file, each with a
    newline after it, in the order of the walk (list order across
    modules, creation order within a module); and the time is the
    latest of the start value and the modification times of these
    files. *)
Theorem demoserver_concatenation `{Gzip} fuel l ext b0 t0 :
  Forall (walks_ok fuel) l ->
  Forall (fun v => exists b, content (snd (snd v)) = inl b) (visits ext l) ->
  exists w',
    ModuleList_Walk fuel l ext concatNewest (mkWorld [] (b0, t0))
    = Some (w', None) /\
    user w' =
    (b0 ++ flat_map (fun v => decoded (snd (snd v)) ++ [x0a%byte]) (visits ext l),
     fold_left (fun t v => Z.max t (modTime (snd (snd v)))) (visits ext l) t0).
Proof.
  intros Hok Hall.
  destruct (ModuleList_Walk_visits fuel ext concatNewest l (mkWorld [] (b0, t0)) Hok)
    as (w' & Hrun & Huser).
  simpl in Hrun, Huser. rewrite (concatNewest_all _ _ _ Hall) in Hrun, Huser.
  exists w'. split; [exact Hrun|exact Huser].
Qed.

Lemma demoserver_concatenation_witness :
  Forall (walks_ok 2) [test_a; test_b; test_c; test_d] /\
  exists w',
    ModuleList_Walk (H := rejectAll) 2 [test_a; test_b; test_c; test_d] (go ".js")
      concatNewest (mkWorld [] ([], 0%Z)) = Some (w', None) /\
    user w' =
    (flat_map (fun v => decoded (H := rejectAll) (snd (snd v)) ++ [x0a%byte])
              (visits (go ".js") [test_a; test_b; test_c; test_d]),
     fold_left (fun t v => Z.max t (modTime (snd (snd v))))
               (visits (go ".js") [test_a; test_b; test_c; test_d]) 0%Z).
Proof.
  assert (Hok : Forall (walks_ok 2) [test_a; test_b; test_c; test_d]).
  { repeat apply Forall_cons; try apply Forall_nil;
      (split; [reflexivity|split; [reflexivity|apply Nat.leb_le; reflexivity]]). }
  split; [exact Hok|].
  apply (demoserver_concatenation (H := rejectAll) 2
           [test_a; test_b; test_c; test_d] (go ".js") [] 0%Z Hok).
  vm_compute. repeat constructor; eexists; reflexivity.
Defined.

(** ** Printing and naming *)

(** X20.  [String] of a file set is its name; when the file set has
    requirements the name is followed by " -> (", the [String]s of the
    requirements in their order with ", " between them and none after
    the last, and ")". *)
Theorem String_format fs :
  String fs =
  Name fs ++
  match Requires fs with
  | [] => []
  | _ :: _ => go " -> (" ++ join (go ", ") (map String (Requires fs)) ++ go ")"
  end.
Proof.
  rewrite String_unfold. destruct (Requires fs) as [|r rs].
  - now rewrite app_nil_r.
  - cbv zeta.
    rewrite (fold_left_append (fun r => String r ++ go ", ")).
    rewrite flat_map_join, !app_assoc.
    change 2%nat with (length (go ", ")).
    rewrite firstn_drop_suffix. now rewrite <- !app_assoc.
Qed.

(** X21.  [importLocalName] depends only on what follows the last
    slash of the import path: it is that element ([path.Split]'s file
    part) with every dot and dash dropped, so it holds no slash, dot or
    dash, a prefix ending in a slash makes no difference, and applying
    it again changes nothing.  A path that ends in a slash has the
    empty local name. *)
Theorem importLocalName_last_element p :
  importLocalName p = dropDotsAndDashes (snd (Split p)) /\
  (forall c, In c (importLocalName p) -> c <> "/" /\ c <> "." /\ c <> "-") /\
  (forall d, importLocalName (d ++ "/" :: p) = importLocalName p) /\
  importLocalName (importLocalName p) = importLocalName p /\
  importLocalName (p ++ ["/"]) = [].
Proof.
  assert (E : forall q, importLocalName q = dropDotsAndDashes (snd (Split q))).
  { intros q. unfold importLocalName. cbv zeta. now rewrite last_split_slash. }
  assert (Hin : forall c, In c (importLocalName p) ->
                          c <> "/" /\ c <> "." /\ c <> "-").
  { intros c. rewrite E. unfold dropDotsAndDashes. rewrite filter_In.
    intros [Hc Hk]. split.
    - intros ->. now apply (Split_slashfree p).
    - split; intros ->; discriminate Hk. }
  split; [apply E|]. split; [exact Hin|]. split; [|split].
  - intros d. unfold importLocalName. cbv zeta.
    rewrite split_slash_cat.
    destruct (split_slash p) as [|h r] eqn:Hp; [now apply split_slash_nonnil in Hp|].
    now rewrite last_app_cons.
  - assert (Hs : slashfree (importLocalName p))
      by (intros Hc; now apply Hin in Hc as [Hc _]).
    rewrite (E (importLocalName p)), Split_noslash by assumption. simpl.
    rewrite E. unfold dropDotsAndDashes.
    clear. induction (snd (Split p)) as [|c s IH]; [reflexivity|].
    simpl. destruct (negb ((c =? ".") || (c =? "-"))) eqn:K; [|exact IH].
    simpl. now rewrite K, IH.
  - rewrite E, Split_app by (intros []). reflexivity.
Qed.

(** The local names of some import paths. *)
Example importLocalName_table :
  map (fun s => importLocalName (go s))
      ["github.com/gocaveman-libs/bootstrap"; "github.com/gocaveman-libs/jquery";
       "gopkg.in/yaml.v2"; "example.org/go-chi"; "jquery"; ""]%string
  = map go ["bootstrap"; "jquery"; "yamlv2"; "gochi"; "jquery"; ""]%string.
Proof. reflexivity. Qed.

(** [String] on the modules of [TestResolve]. *)
Example String_table :
  map String (Resolve [test_d])
  = map go ["a"; "b -> (a)"; "c -> (a)"; "d -> (b -> (a), c -> (a))"]%string.
Proof. reflexivity. Qed.

(** ** The generated code *)

(** X22.  The function [addFiles] that mkwebresource generates, run on
    a fresh file set.  When the inputs are the files of a directory
    scan (no path is the root, and none is another one or leads
    through another one), no statement panics; afterwards every input
    path resolves to a gzipped regular file with mode 0644 holding the
    payload and the modification time written for it, and [Open] of
    the path reads what the payload decodes to, or returns the
    decoder's error; the name and the requirements of the file set
    are those given to [NewFileSet]. *)
Theorem generated_addFiles_succeeds `{Gzip} clock now nm requires inputs :
  Forall (fun i => fullPathSplit (fst (fst i)) <> []) inputs ->
  prefix_free (map (fun i => fullPathSplit (fst (fst i))) inputs) ->
  exists fs,
    execAll clock (NewFileSet now nm requires) (addFiles inputs) = Ok fs /\
    Name fs = nm /\ Requires fs = requires /\
    forall name mt gz,
      In (name, mt, gz) inputs ->
      (exists e, findEntry fs name = Some e /\
                 buf e = Some gz /\ gzipped e = true /\ modTime e = mt /\
                 mode e = 420%Z /\ IsDir e = false) /\
      match gunzip gz with
      | inl u =>
          exists f, Open fs name = inl f /\
                    forall chunk, (0 < chunk)%nat ->
                      exists rd, ReadAll chunk (f_Reader f) = Some (rd, u, None)
      | inr err => Open fs name = inr err
      end.
Proof.
  intros Hne Hpf.
  assert (Hne' : Forall (fun i => normalize (fst (fst i)) <> []) inputs).
  { eapply Forall_impl; [|exact Hne]. intros i. cbv beta.
    now rewrite fullPathSplit_normalize. }
  assert (Hpf' : prefix_free (map (fun i => normalize (fst (fst i))) inputs)).
  { erewrite map_ext; [exact Hpf|]. intros i. cbv beta.
    now rewrite fullPathSplit_normalize. }
  destruct (addFiles_run clock inputs [] (NewFileSet now nm requires))
    as (fs & Hrun & Hb & Hall); try assumption.
  - split; [apply mode_or_IsDir|]. intros [|n q] x; [now left|discriminate].
  - apply Forall_forall. intros i _. constructor.
  - exists fs. split; [exact Hrun|].
    destruct (builds_to_names _ _ Hb) as [Hn Hr].
    split; [exact Hn|]. split; [exact Hr|].
    intros name mt gz Hin.
    destruct (Hall _ Hin) as (e & He & Hb1 & Hg & _ & Hm & Ht). simpl in *.
    split.
    + exists e. repeat split; try assumption. unfold IsDir. now rewrite Hm.
    + unfold Open. rewrite He. unfold open. rewrite Hb1, Hg.
      destruct (gunzip gz) as [u|err]; [|reflexivity].
      eexists. split; [reflexivity|]. simpl.
      intros chunk Hc. rewrite ReadAll_NewReader by assumption. eauto.
Qed.

Lemma generated_addFiles_succeeds_witness :
  Forall (fun i => fullPathSplit (fst (fst i)) <> []) scanned /\
  prefix_free (map (fun i => fullPathSplit (fst (fst i))) scanned) /\
  exists fs,
    execAll (fun i => Z.of_nat i) (NewFileSet 0 (go "lib") []) (addFiles scanned)
    = Ok fs /\
    Name fs = go "lib".
Proof.
  assert (Hne : Forall (fun i => fullPathSplit (fst (fst i)) <> []) scanned).
  { repeat constructor; vm_compute; discriminate. }
  assert (Hpf : prefix_free (map (fun i => fullPathSplit (fst (fst i))) scanned)).
  { vm_compute. repeat split; repeat constructor;
      intros [rest E]; discriminate E. }
  split; [exact Hne|]. split; [exact Hpf|].
  destruct (generated_addFiles_succeeds (H := stripHeader) (fun i => Z.of_nat i)
              0%Z (go "lib") [] scanned Hne Hpf) as (fs & Hrun & Hn & _).
  exists fs. split; [exact Hrun|exact Hn].
Defined.

(** ** Every file once *)

(** X23.  Over a module the walk gets through (entries addressable by
    their paths, every directory listable) and whose matching files
    all decode, [Walk] with a callback that records its path argument
    returns nil, and the paths recorded are those of the matching
    files in walk order: no path is recorded twice, and every recorded
    path resolves to an entry that is no directory and whose name has
    the filter as its extension. *)
Theorem Walk_visits_each_file_once `{Gzip} fuel m ext :
  walks_ok fuel m ->
  Forall (fun v => exists b, content (snd v) = inl b) (matching ext [] (root m)) ->
  exists w',
    Walk fuel m ext recordPaths (mkWorld [] []) = Some (w', None) /\
    user w' = map fst (matching ext [] (root m)) /\
    NoDup (user w') /\
    forall p, In p (user w') ->
              exists c, findEntry m p = Some c /\
                        IsDir c = false /\ Ext (name c) = ext.
Proof.
  intros Hok Hall.
  destruct (Walk_visits fuel m ext recordPaths (mkWorld [] []) Hok)
    as (w' & Hrun & Huser).
  assert (Hv : visits ext [m] = map (pair m) (matching ext [] (root m)))
    by (unfold visits; simpl; apply app_nil_r).
  rewrite Hv in Hrun, Huser. simpl in Hrun, Huser.
  rewrite recordPaths_all in Hrun, Huser
    by (apply Forall_map; eapply Forall_impl; [|exact Hall]; now intros v).
  simpl in Hrun, Huser. rewrite map_map in Huser. simpl in Huser.
  exists w'. split; [exact Hrun|]. split; [exact Huser|].
  destruct Hok as (_ & Hw & _). rewrite Huser. split.
  - apply matching_NoDup; [constructor|assumption].
  - intros p Hp. apply in_map_iff in Hp as ([p' c] & <- & Hin). simpl.
    exists c. destruct (matching_files _ _ _ _ _ Hin) as [Hd He].
    split; [|now split].
    destruct (matching_paths ext (root m) [] p' c Hw Hin)
      as (ch & q & Hch & Hq & -> & Hf).
    rewrite findEntry_normalize, normalize_abspath; [exact Hf|].
    constructor; [|assumption]. now apply (walkable_child (root m) ch Hw).
Qed.

Lemma Walk_visits_each_file_once_witness :
  walks_ok 2 test_d /\
  exists w',
    Walk (H := rejectAll) 2 test_d (go ".js") recordPaths (mkWorld [] [])
    = Some (w', None) /\
    user w' = map fst (matching (go ".js") [] (root test_d)) /\
    NoDup (user w').
Proof.
  assert (Hok : walks_ok 2 test_d).
  { split; [reflexivity|split; [reflexivity|apply Nat.leb_le; reflexivity]]. }
  split; [exact Hok|].
  destruct (Walk_visits_each_file_once (H := rejectAll) 2 test_d (go ".js") Hok)
    as (w' & Hrun & Huser & Hnd & _).
  - vm_compute. repeat constructor; eexists; reflexivity.
  - exists w'. split; [exact Hrun|]. split; [exact Huser|exact Hnd].
Defined.
